(** * Quub Layer 2: the rollup ledger, the settlement router, the bridge
      and the transaction pool

    A shallow embedding of
      - [contracts/contracts/OptimisticRollup.sol] (module [Rollup]): the
        per-chain ledger of state commitments, fraud-proof challenges and
        bonds;
      - the [SettlementRouter] class and the three routing strategies of
        [sequencer/src/settlement], the [ChainAdapter] interface of
        [IChainAdapter.ts] and the cost and metrics queries of
        [EthereumAdapter.ts] (module [Settlement]): chain scoring, chain
        selection, submission with retries and failover, statistics;
      - [contracts/contracts/L1Bridge.sol] (module [Bridge]): deposits and
        delayed withdrawals;
      - [sequencer/src/TransactionPool.ts] (module [Pool]): the pending
        transactions of the sequencer and their statuses.

    Solidity [uint256] values are binary naturals [N]; the compiler is
    ^0.8, so [+], [-] and [++] are checked and an overflow aborts the
    whole call.  JavaScript [bigint] values are [Z], JavaScript [number]
    values are the kernel's binary64 floats, whose operations are those of
    IEEE 754 as JavaScript has them. *)

From Stdlib Require Import ZArith NArith List String Bool Lia Sorted.
From Stdlib Require Import Floats.
From stdpp Require Import gmap strings.

Set Default Proof Using "Type".

(** ** The rollup ledger *)

Module Rollup.

Local Open Scope N_scope.

Abbreviation address := N (only parsing).
Abbreviation bytes32 := N (only parsing).
Abbreviation uint256 := N (only parsing).
Abbreviation bytes := (list N) (only parsing).

Definition MAX_UINT256 : N := 2 ^ 256 - 1.

Record StateCommitment := mkStateCommitment {
  stateRoot : bytes32;
  blockNumber : uint256;
  timestamp : uint256;
  proposer : address;
  finalized : bool
}.

Record FraudProof := mkFraudProof {
  commitmentIndex : uint256;
  preStateRoot : bytes32;
  postStateRoot : bytes32;
  transitionProof : bytes;
  challenger : address;
  challengeTime : uint256;
  resolved : bool
}.

(** Contract storage, the owner slot inherited from [OwnableUpgradeable],
    and the ether held by the contract ([address(this).balance]). *)
Record State := mkState {
  stateCommitments : gmap N StateCommitment;
  fraudProofs : gmap N FraudProof;
  currentCommitmentIndex : uint256;
  currentProofIndex : uint256;
  challengePeriod : uint256;
  bondAmount : uint256;
  sequencer : address;
  bonds : gmap N N;
  owner : address;
  balance : uint256
}.

Inductive Event :=
| StateCommitted (index : uint256) (root : bytes32) (by_ : address)
| ChallengeSubmitted (proofIndex commitment : uint256) (by_ : address)
| ChallengeResolved (proofIndex : uint256) (fraudulent : bool)
| StateFinalized (index : uint256) (root : bytes32).

(** What a successful call leaves behind besides the new storage: ether
    sent out with [payable(a).transfer(v)] and events. *)
Inductive Effect :=
| Sent (to : address) (amount : uint256)
| Emitted (e : Event).

(** The transaction context: [msg.sender], [block.number] and
    [block.timestamp].  [msg.value] is an argument of the two payable
    functions. *)
Record Env := mkEnv {
  msg_sender : address;
  block_number : uint256;
  block_timestamp : uint256
}.

(** A Solidity mapping reads the zero value at a key never written. *)
Definition zeroCommitment : StateCommitment := mkStateCommitment 0 0 0 0 false.
Definition zeroProof : FraudProof := mkFraudProof 0 0 0 [] 0 0 false.

Definition commitmentAt (s : State) (i : N) : StateCommitment :=
  default zeroCommitment (stateCommitments s !! i).
Definition proofAt (s : State) (i : N) : FraudProof :=
  default zeroProof (fraudProofs s !! i).
Definition bondOf (s : State) (a : address) : N :=
  default 0 (bonds s !! a).

(** Field updates. *)
Definition with_stateCommitments (m : gmap N StateCommitment) (s : State) : State :=
  mkState m (fraudProofs s) (currentCommitmentIndex s) (currentProofIndex s)
    (challengePeriod s) (bondAmount s) (sequencer s) (bonds s) (owner s) (balance s).
Definition with_fraudProofs (m : gmap N FraudProof) (s : State) : State :=
  mkState (stateCommitments s) m (currentCommitmentIndex s) (currentProofIndex s)
    (challengePeriod s) (bondAmount s) (sequencer s) (bonds s) (owner s) (balance s).
Definition with_currentCommitmentIndex (n : N) (s : State) : State :=
  mkState (stateCommitments s) (fraudProofs s) n (currentProofIndex s)
    (challengePeriod s) (bondAmount s) (sequencer s) (bonds s) (owner s) (balance s).
Definition with_currentProofIndex (n : N) (s : State) : State :=
  mkState (stateCommitments s) (fraudProofs s) (currentCommitmentIndex s) n
    (challengePeriod s) (bondAmount s) (sequencer s) (bonds s) (owner s) (balance s).
Definition with_challengePeriod (n : N) (s : State) : State :=
  mkState (stateCommitments s) (fraudProofs s) (currentCommitmentIndex s) (currentProofIndex s)
    n (bondAmount s) (sequencer s) (bonds s) (owner s) (balance s).
Definition with_sequencer (a : address) (s : State) : State :=
  mkState (stateCommitments s) (fraudProofs s) (currentCommitmentIndex s) (currentProofIndex s)
    (challengePeriod s) (bondAmount s) a (bonds s) (owner s) (balance s).
Definition with_bonds (m : gmap N N) (s : State) : State :=
  mkState (stateCommitments s) (fraudProofs s) (currentCommitmentIndex s) (currentProofIndex s)
    (challengePeriod s) (bondAmount s) (sequencer s) m (owner s) (balance s).
Definition with_owner (a : address) (s : State) : State :=
  mkState (stateCommitments s) (fraudProofs s) (currentCommitmentIndex s) (currentProofIndex s)
    (challengePeriod s) (bondAmount s) (sequencer s) (bonds s) a (balance s).
Definition with_balance (n : N) (s : State) : State :=
  mkState (stateCommitments s) (fraudProofs s) (currentCommitmentIndex s) (currentProofIndex s)
    (challengePeriod s) (bondAmount s) (sequencer s) (bonds s) (owner s) n.

Definition setFinalized (c : StateCommitment) : StateCommitment :=
  mkStateCommitment (stateRoot c) (blockNumber c) (timestamp c) (proposer c) true.
Definition setResolved (p : FraudProof) : FraudProof :=
  mkFraudProof (commitmentIndex p) (preStateRoot p) (postStateRoot p)
    (transitionProof p) (challenger p) (challengeTime p) true.

(** *** Calls as state transformers that may revert *)

Inductive Result (A : Type) : Type :=
| Ok (a : A)
| Revert (reason : string)
| Panic (code : N).
Arguments Ok {A} a.
Arguments Revert {A} reason.
Arguments Panic {A} code.

(** A call body reads and writes storage, appends effects, and may abort;
    an abort discards storage writes and effects alike. *)
Definition Tx (A : Type) : Type := State -> Result (A * State * list Effect).

Definition tx_ret {A} (a : A) : Tx A := fun s => Ok (a, s, []).
Definition tx_bind {A B} (f : A -> Tx B) (m : Tx A) : Tx B := fun s =>
  match m s with
  | Ok (a, s1, l1) =>
      match f a s1 with
      | Ok (b, s2, l2) => Ok (b, s2, l1 ++ l2)
      | Revert r => Revert r
      | Panic c => Panic c
      end
  | Revert r => Revert r
  | Panic c => Panic c
  end.

#[export] Instance Tx_ret : MRet Tx := @tx_ret.
#[export] Instance Tx_bind : MBind Tx := @tx_bind.

Definition get : Tx State := fun s => Ok (s, s, []).
Definition modify (f : State -> State) : Tx unit := fun s => Ok (tt, f s, []).
Definition emit (e : Event) : Tx unit := fun s => Ok (tt, s, [Emitted e]).
Definition require (b : bool) (reason : string) : Tx unit := fun s =>
  if b then Ok (tt, s, []) else Revert reason.

(** Checked arithmetic of Solidity 0.8: Panic(0x11) on overflow. *)
Definition checked_add (a b : N) : Tx N := fun s =>
  if a + b <=? MAX_UINT256 then Ok (a + b, s, []) else Panic 17.
Definition checked_sub (a b : N) : Tx N := fun s =>
  if b <=? a then Ok (a - b, s, []) else Panic 17.

(** [payable(to).transfer(amount)]: aborts when the contract holds less
    than [amount].  The recipient is taken to accept plain ether within
    the 2300 gas stipend, so nothing re-enters the contract and the
    [nonReentrant] modifier never fires; what a recipient that refuses
    the ether does to a call is told by [exec_with]. *)
Definition transfer (to : address) (amount : N) : Tx unit := fun s =>
  if amount <=? balance s
  then Ok (tt, with_balance (balance s - amount) s, [Sent to amount])
  else Revert "".

(** Entering a payable function credits [msg.value] to the contract. *)
Definition receive_value (v : N) : Tx unit :=
  modify (fun s => with_balance (balance s + v) s).

(** [onlyOwner] of OwnableUpgradeable. *)
Definition onlyOwner (e : Env) : Tx unit :=
  s ← get;
  require (msg_sender e =? owner s) "OwnableUnauthorizedAccount".

(** *** The contract's functions *)

Definition initialize (deployer _sequencer : address) (_challengePeriod _bondAmount : uint256) : State :=
  mkState ∅ ∅ 0 0 _challengePeriod _bondAmount _sequencer ∅ deployer 0.

Definition commitState (e : Env) (_stateRoot : bytes32) : Tx unit :=
  s ← get;
  require (msg_sender e =? sequencer s) "Only sequencer can commit states";;
  require (bondAmount s <=? bondOf s (msg_sender e)) "Insufficient bond";;
  modify (with_stateCommitments
            (<[currentCommitmentIndex s :=
                 mkStateCommitment _stateRoot (block_number e) (block_timestamp e)
                   (msg_sender e) false]> (stateCommitments s)));;
  emit (StateCommitted (currentCommitmentIndex s) _stateRoot (msg_sender e));;
  next ← checked_add (currentCommitmentIndex s) 1;
  modify (with_currentCommitmentIndex next).

Definition challengeState (e : Env) (msg_value : uint256)
    (_commitmentIndex : uint256) (_preStateRoot _postStateRoot : bytes32)
    (_transitionProof : bytes) : Tx unit :=
  receive_value msg_value;;
  s ← get;
  require (bondAmount s <=? msg_value) "Insufficient challenge bond";;
  require (_commitmentIndex <? currentCommitmentIndex s) "Invalid commitment index";;
  require (negb (finalized (commitmentAt s _commitmentIndex))) "State already finalized";;
  deadline ← checked_add (timestamp (commitmentAt s _commitmentIndex)) (challengePeriod s);
  require (block_timestamp e <=? deadline) "Challenge period expired";;
  modify (with_fraudProofs
            (<[currentProofIndex s :=
                 mkFraudProof _commitmentIndex _preStateRoot _postStateRoot
                   _transitionProof (msg_sender e) (block_timestamp e) false]>
               (fraudProofs s)));;
  emit (ChallengeSubmitted (currentProofIndex s) _commitmentIndex (msg_sender e));;
  next ← checked_add (currentProofIndex s) 1;
  modify (with_currentProofIndex next).

Definition resolveChallenge (e : Env) (_proofIndex : uint256) (_fraudulent : bool) : Tx unit :=
  onlyOwner e;;
  s ← get;
  require (_proofIndex <? currentProofIndex s) "Invalid proof index";;
  require (negb (resolved (proofAt s _proofIndex))) "Challenge already resolved";;
  let proof := proofAt s _proofIndex in
  let commitment := commitmentAt s (commitmentIndex proof) in
  modify (with_fraudProofs (<[_proofIndex := setResolved proof]> (fraudProofs s)));;
  (if _fraudulent then
     let slashAmount := bondOf s (proposer commitment) in
     modify (fun s' => with_bonds (<[proposer commitment := 0]> (bonds s')) s');;
     transfer (challenger proof) (bondAmount s);;
     (if bondAmount s <? slashAmount then
        extra ← checked_sub slashAmount (bondAmount s);
        transfer (challenger proof) extra
      else mret tt)
   else
     transfer (proposer commitment) (bondAmount s));;
  emit (ChallengeResolved _proofIndex _fraudulent).

(** The body of the loop of [finalizeStates] at index [i], then the
    [n] following indices. *)
Fixpoint finalizeFrom (e : Env) (n : nat) (i : uint256) : Tx unit :=
  match n with
  | O => mret tt
  | S n' =>
      s ← get;
      let commitment := commitmentAt s i in
      (if negb (finalized commitment) then
         deadline ← checked_add (timestamp commitment) (challengePeriod s);
         if deadline <? block_timestamp e then
           modify (with_stateCommitments
                     (<[i := setFinalized commitment]> (stateCommitments s)));;
           emit (StateFinalized i (stateRoot commitment))
         else mret tt
       else mret tt);;
      finalizeFrom e n' (i + 1)
  end.

Definition finalizeStates (e : Env) : Tx unit :=
  s ← get;
  finalizeFrom e (N.to_nat (currentCommitmentIndex s)) 0.

Definition finalizeState (e : Env) (_index : uint256) : Tx unit :=
  s ← get;
  require (_index <? currentCommitmentIndex s) "Invalid commitment index";;
  let commitment := commitmentAt s _index in
  require (negb (finalized commitment)) "State already finalized";;
  deadline ← checked_add (timestamp commitment) (challengePeriod s);
  require (deadline <? block_timestamp e) "Challenge period not expired";;
  modify (with_stateCommitments
            (<[_index := setFinalized commitment]> (stateCommitments s)));;
  emit (StateFinalized _index (stateRoot commitment)).

Definition depositBond (e : Env) (msg_value : uint256) : Tx unit :=
  receive_value msg_value;;
  s ← get;
  credited ← checked_add (bondOf s (msg_sender e)) msg_value;
  modify (with_bonds (<[msg_sender e := credited]> (bonds s))).

(** [withdrawBond(uint256)]. *)
Definition withdrawBond (e : Env) (_amount : uint256) : Tx unit :=
  s ← get;
  require (_amount <=? bondOf s (msg_sender e)) "Insufficient bond balance";;
  rest ← checked_sub (bondOf s (msg_sender e)) _amount;
  modify (with_bonds (<[msg_sender e := rest]> (bonds s)));;
  transfer (msg_sender e) _amount.

(** [withdrawBond()], the withdraw-all overload. *)
Definition withdrawBondAll (e : Env) : Tx unit :=
  s ← get;
  let amount := bondOf s (msg_sender e) in
  require (0 <? amount) "No bond to withdraw";;
  modify (with_bonds (<[msg_sender e := 0]> (bonds s)));;
  transfer (msg_sender e) amount.

Definition setSequencer (e : Env) (_newSequencer : address) : Tx unit :=
  onlyOwner e;;
  modify (with_sequencer _newSequencer).

Definition setChallengePeriod (e : Env) (_newPeriod : uint256) : Tx unit :=
  onlyOwner e;;
  modify (with_challengePeriod _newPeriod).

(** [transferOwnership] and [renounceOwnership], inherited from
    OpenZeppelin's [OwnableUpgradeable] which the contract imports. *)
Definition transferOwnership (e : Env) (newOwner : address) : Tx unit :=
  onlyOwner e;;
  require (negb (newOwner =? 0)) "OwnableInvalidOwner";;
  modify (with_owner newOwner).

Definition renounceOwnership (e : Env) : Tx unit :=
  onlyOwner e;;
  modify (with_owner 0).

(** The state-changing entry points of the deployed contract. *)
Inductive Call :=
| CommitState (_stateRoot : bytes32)
| ChallengeState (msg_value : uint256) (_commitmentIndex : uint256)
    (_preStateRoot _postStateRoot : bytes32) (_transitionProof : bytes)
| ResolveChallenge (_proofIndex : uint256) (_fraudulent : bool)
| FinalizeStates
| FinalizeState (_index : uint256)
| DepositBond (msg_value : uint256)
| WithdrawBond (_amount : uint256)
| WithdrawBondAll
| SetSequencer (_newSequencer : address)
| SetChallengePeriod (_newPeriod : uint256)
| TransferOwnership (newOwner : address)
| RenounceOwnership.

Definition body (e : Env) (c : Call) : Tx unit :=
  match c with
  | CommitState r => commitState e r
  | ChallengeState v i pre post prf => challengeState e v i pre post prf
  | ResolveChallenge i f => resolveChallenge e i f
  | FinalizeStates => finalizeStates e
  | FinalizeState i => finalizeState e i
  | DepositBond v => depositBond e v
  | WithdrawBond a => withdrawBond e a
  | WithdrawBondAll => withdrawBondAll e
  | SetSequencer a => setSequencer e a
  | SetChallengePeriod p => setChallengePeriod e p
  | TransferOwnership a => transferOwnership e a
  | RenounceOwnership => renounceOwnership e
  end.

(** One transaction: the new storage and the effects, or the abort. *)
Definition exec (e : Env) (c : Call) (s : State) : Result (State * list Effect) :=
  match body e c s with
  | Ok (_, s', l) => Ok (s', l)
  | Revert r => Revert r
  | Panic k => Panic k
  end.

Definition succeeds (e : Env) (c : Call) (s : State) : bool :=
  match exec e c s with Ok _ => true | _ => false end.

(** The storage after the transaction: an aborted call changes nothing. *)
Definition step (s : State) (ec : Env * Call) : State :=
  match exec (fst ec) (snd ec) s with
  | Ok (s', _) => s'
  | _ => s
  end.

Definition run (s : State) (calls : list (Env * Call)) : State :=
  fold_left step calls s.

(** Ether sent to [a] by a list of effects. *)
Fixpoint paidTo (a : address) (l : list Effect) : N :=
  match l with
  | [] => 0
  | Sent to v :: l' => (if to =? a then v else 0) + paidTo a l'
  | Emitted _ :: l' => paidTo a l'
  end.

(** *** Reasoning about calls *)

Ltac tx_unfold :=
  unfold succeeds, exec, body, commitState, challengeState, resolveChallenge,
    finalizeStates, finalizeState, depositBond, withdrawBond, withdrawBondAll,
    setSequencer, setChallengePeriod, transferOwnership, renounceOwnership,
    onlyOwner, receive_value, transfer, checked_add, checked_sub, require,
    emit, modify, get, mbind, mret, Tx_bind, Tx_ret, tx_bind, tx_ret in *.

(** Split a hypothesis about a finished call along the guards it passed. *)
Ltac tx_cases H :=
  repeat (cbn in H;
          match type of H with
          | context [if ?b then _ else _] => destruct b eqn:?; try discriminate H
          end);
  cbn in H.

Lemma commitmentAt_insert s i j c :
  commitmentAt (with_stateCommitments (<[i := c]> (stateCommitments s)) s) j =
  if decide (i = j) then c else commitmentAt s j.
Proof.
  unfold commitmentAt; cbn. rewrite lookup_insert.
  destruct (decide (i = j)); reflexivity.
Qed.

Lemma proofAt_insert s i j p :
  proofAt (with_fraudProofs (<[i := p]> (fraudProofs s)) s) j =
  if decide (i = j) then p else proofAt s j.
Proof.
  unfold proofAt; cbn. rewrite lookup_insert.
  destruct (decide (i = j)); reflexivity.
Qed.

Lemma bondOf_insert s a b v :
  bondOf (with_bonds (<[a := v]> (bonds s)) s) b =
  if decide (a = b) then v else bondOf s b.
Proof.
  unfold bondOf; cbn. rewrite lookup_insert.
  destruct (decide (a = b)); reflexivity.
Qed.

(** The loop of [finalizeStates] touches nothing but the [finalized] flags,
    and only ever raises them. *)
Lemma finalizeFrom_frame e n : forall i s u s' l,
  finalizeFrom e n i s = Ok (u, s', l) ->
  s' = with_stateCommitments (stateCommitments s') s /\
  forall j, commitmentAt s' j = commitmentAt s j \/
            commitmentAt s' j = setFinalized (commitmentAt s j).
Proof.
  induction n as [|n IH]; intros i s u s' l H.
  - cbn in H. injection H as _ <- _. split; [now destruct s | now left].
  - cbn [finalizeFrom] in H. tx_unfold.
    destruct (finalized (commitmentAt s i)) eqn:Hf; cbn in H.
    + destruct (finalizeFrom e n (i + 1) s) as [[[u1 s1] l1]| |] eqn:Hn;
        try discriminate.
      injection H as _ <- _. now apply IH in Hn.
    + destruct (timestamp (commitmentAt s i) + challengePeriod s <=? MAX_UINT256)
        eqn:Hov; cbn in H; try discriminate.
      destruct (timestamp (commitmentAt s i) + challengePeriod s <? block_timestamp e)
        eqn:Hd; cbn in H.
      * match type of H with
        | context [finalizeFrom e n (i + 1) ?t] =>
            destruct (finalizeFrom e n (i + 1) t) as [[[u1 s1] l1]| |] eqn:Hn;
            try discriminate
        end.
        injection H as _ <- _. apply IH in Hn as [Hs Hc]. split.
        { rewrite Hs at 1. reflexivity. }
        intros j. destruct (Hc j) as [-> | ->]; rewrite commitmentAt_insert;
          destruct (decide (i = j)) as [->|]; auto.
      * destruct (finalizeFrom e n (i + 1) s) as [[[u1 s1] l1]| |] eqn:Hn;
          try discriminate.
        injection H as _ <- _. now apply IH in Hn.
Qed.

Lemma exec_finalizeStates e s s' l :
  exec e FinalizeStates s = Ok (s', l) ->
  s' = with_stateCommitments (stateCommitments s') s /\
  forall j, commitmentAt s' j = commitmentAt s j \/
            commitmentAt s' j = setFinalized (commitmentAt s j).
Proof.
  unfold exec, body, finalizeStates, mbind, Tx_bind, tx_bind, get. cbn.
  destruct (finalizeFrom e (N.to_nat (currentCommitmentIndex s)) 0 s)
    as [[[u1 s1] l1]| |] eqn:Hn; try discriminate.
  intros H; injection H as <- _. eapply finalizeFrom_frame; eauto.
Qed.

(** Every event of the loop announces a commitment that was not finalized
    when the loop began. *)
Lemma finalizeFrom_log e n : forall i s u s' l,
  finalizeFrom e n i s = Ok (u, s', l) ->
  forall ev, In ev l ->
  exists j, ev = Emitted (StateFinalized j (stateRoot (commitmentAt s j))) /\
            i <= j /\ finalized (commitmentAt s j) = false.
Proof.
  induction n as [|n IH]; intros i s u s' l H ev Hev.
  - cbn in H. injection H as _ _ <-. destruct Hev.
  - cbn [finalizeFrom] in H. tx_unfold.
    destruct (finalized (commitmentAt s i)) eqn:Hf; cbn in H.
    + destruct (finalizeFrom e n (i + 1) s) as [[[u1 s1] l1]| |] eqn:Hn;
        try discriminate.
      injection H as _ _ <-. destruct (IH _ _ _ _ _ Hn ev Hev) as (j & ? & ? & ?).
      exists j. repeat split; [assumption | lia | assumption].
    + destruct (timestamp (commitmentAt s i) + challengePeriod s <=? MAX_UINT256)
        eqn:Hov; cbn in H; try discriminate.
      destruct (timestamp (commitmentAt s i) + challengePeriod s <? block_timestamp e)
        eqn:Hd; cbn in H.
      * match type of H with
        | context [finalizeFrom e n (i + 1) ?t] =>
            destruct (finalizeFrom e n (i + 1) t) as [[[u1 s1] l1]| |] eqn:Hn;
            try discriminate
        end.
        injection H as _ _ <-. destruct Hev as [<-|Hev].
        { exists i. repeat split; [lia | assumption]. }
        destruct (IH _ _ _ _ _ Hn ev Hev) as (j & Hj & Hle & Hfj).
        rewrite commitmentAt_insert in Hj, Hfj.
        destruct (decide (i = j)); [lia|].
        exists j. repeat split; [assumption | lia | assumption].
      * destruct (finalizeFrom e n (i + 1) s) as [[[u1 s1] l1]| |] eqn:Hn;
          try discriminate.
        injection H as _ _ <-. destruct (IH _ _ _ _ _ Hn ev Hev) as (j & ? & ? & ?).
        exists j. repeat split; [assumption | lia | assumption].
Qed.

(** [finalizeStates] passes over a finalized commitment: no write, no
    event. *)
Lemma finalizeStates_skips_finalized e s s' l i :
  finalized (commitmentAt s i) = true ->
  exec e FinalizeStates s = Ok (s', l) ->
  commitmentAt s' i = commitmentAt s i /\
  forall root, ~ In (Emitted (StateFinalized i root)) l.
Proof.
  intros Hf Hx. split.
  - apply exec_finalizeStates in Hx as [_ Hc]. destruct (Hc i) as [-> | ->]; [reflexivity|].
    destruct (commitmentAt s i); cbn in *. now subst.
  - intros root Hin. unfold exec, body, finalizeStates, mbind, Tx_bind, tx_bind, get in Hx.
    cbn in Hx.
    destruct (finalizeFrom e (N.to_nat (currentCommitmentIndex s)) 0 s)
      as [[[u1 s1] l1]| |] eqn:Hn; try discriminate.
    injection Hx as _ <-.
    destruct (finalizeFrom_log _ _ _ _ _ _ _ Hn _ Hin) as (j & Hj & _ & Hfj).
    injection Hj as <- _. congruence.
Qed.

(** Commitments are only appended, and [finalized] is never lowered. *)
Lemma exec_finalized_mono e c s s' l :
  exec e c s = Ok (s', l) ->
  currentCommitmentIndex s <= currentCommitmentIndex s' /\
  forall i, i < currentCommitmentIndex s ->
            finalized (commitmentAt s i) = true ->
            finalized (commitmentAt s' i) = true.
Proof.
  intros H. destruct c.
  4:{ apply exec_finalizeStates in H as [Hs Hc]. rewrite Hs. cbn. split; [lia|].
      intros i _ Hf.
      change (commitmentAt (with_stateCommitments (stateCommitments s') s) i)
        with (commitmentAt s' i).
      destruct (Hc i) as [-> | ->]; auto. }
  all: tx_unfold; tx_cases H; injection H as <- _; cbn; split; try lia;
    try (intros i _ Hf; exact Hf).
  - intros i Hi Hf.
    change (finalized (commitmentAt (with_stateCommitments
       (<[currentCommitmentIndex s :=
            mkStateCommitment _stateRoot (block_number e) (block_timestamp e)
              (msg_sender e) false]> (stateCommitments s)) s) i) = true).
    rewrite commitmentAt_insert. destruct (decide _); [lia | assumption].
  - intros i Hi Hf.
    change (finalized (commitmentAt (with_stateCommitments
       (<[_index := setFinalized (commitmentAt s _index)]> (stateCommitments s)) s) i)
            = true).
    rewrite commitmentAt_insert. destruct (decide _); [reflexivity | assumption].
Qed.

Lemma run_finalized_mono calls : forall s i,
  i < currentCommitmentIndex s ->
  finalized (commitmentAt s i) = true ->
  i < currentCommitmentIndex (run s calls) /\
  finalized (commitmentAt (run s calls) i) = true.
Proof.
  induction calls as [|[e c] calls IH]; intros s i Hi Hf; [now split|].
  cbn. apply IH; unfold step; cbn;
    destruct (exec e c s) as [[s' l]| |] eqn:Hx; auto;
    apply exec_finalized_mono in Hx as [Hle Hk]; [lia | auto].
Qed.

(** Challenges are only appended, and [resolved] is never lowered. *)
Lemma exec_resolved_mono e c s s' l :
  exec e c s = Ok (s', l) ->
  currentProofIndex s <= currentProofIndex s' /\
  forall i, i < currentProofIndex s ->
            resolved (proofAt s i) = true ->
            resolved (proofAt s' i) = true.
Proof.
  intros H. destruct c.
  4:{ apply exec_finalizeStates in H as [Hs _]. rewrite Hs. cbn. split; [lia|].
      intros i _ Hf. exact Hf. }
  all: tx_unfold; tx_cases H; injection H as <- _; cbn; split; try lia;
    try (intros i _ Hf; exact Hf).
  all: intros i Hi Hf; unfold proofAt in *; cbn; rewrite lookup_insert;
    destruct (decide _); subst; cbn; try lia; auto.
Qed.

Lemma run_resolved_mono calls : forall s i,
  i < currentProofIndex s ->
  resolved (proofAt s i) = true ->
  i < currentProofIndex (run s calls) /\
  resolved (proofAt (run s calls) i) = true.
Proof.
  induction calls as [|[e c] calls IH]; intros s i Hi Hf; [now split|].
  cbn. apply IH; unfold step; cbn;
    destruct (exec e c s) as [[s' l]| |] eqn:Hx; auto;
    apply exec_resolved_mono in Hx as [Hle Hk]; [lia | auto].
Qed.

(** *** Resolving a challenge *)

(** A ledger on which the sequencer (address 1) has bonded one ether and
    committed a root at time 1000, and address 2 has challenged it at time
    1001 with a bond of one ether; address 100 deployed the contract. *)
Definition ether : N := 10 ^ 18.
Definition challenged : State :=
  run (initialize 100 1 86400 ether)
    [ (mkEnv 1 7 1000, DepositBond ether);
      (mkEnv 1 7 1000, CommitState 55);
      (mkEnv 2 8 1001, ChallengeState ether 0 54 55 []) ].

(** The same ledger after the sequencer has taken its bond out again. *)
Definition challenged_unbonded : State :=
  step challenged (mkEnv 1 9 1002, WithdrawBondAll).

Section Resolve.
Variables (e : Env) (s : State) (i : uint256).
Hypothesis by_owner : msg_sender e = owner s.
Hypothesis in_range : i < currentProofIndex s.
Hypothesis unresolved : resolved (proofAt s i) = false.

Let proof := proofAt s i.
Let commitment := commitmentAt s (commitmentIndex proof).

Lemma resolve_honest_exec :
  bondAmount s <= balance s ->
  exec e (ResolveChallenge i false) s =
    Ok (with_balance (balance s - bondAmount s)
          (with_fraudProofs (<[i := setResolved proof]> (fraudProofs s)) s),
        [Sent (proposer commitment) (bondAmount s);
         Emitted (ChallengeResolved i false)]).
Proof using by_owner in_range unresolved.
  intros Hb. subst proof commitment. tx_unfold. cbn.
  rewrite by_owner, N.eqb_refl. cbn.
  apply N.ltb_lt in in_range. rewrite in_range. cbn. rewrite unresolved. cbn.
  apply N.leb_le in Hb. rewrite Hb. cbn. reflexivity.
Qed.

Lemma resolve_fraud_exec :
  N.max (bondAmount s) (bondOf s (proposer commitment)) <= balance s ->
  exec e (ResolveChallenge i true) s =
    Ok (with_balance (balance s - N.max (bondAmount s) (bondOf s (proposer commitment)))
          (with_bonds (<[proposer commitment := 0]> (bonds s))
             (with_fraudProofs (<[i := setResolved proof]> (fraudProofs s)) s)),
        Sent (challenger proof) (bondAmount s)
          :: (if bondAmount s <? bondOf s (proposer commitment)
              then [Sent (challenger proof)
                      (bondOf s (proposer commitment) - bondAmount s)]
              else [])
          ++ [Emitted (ChallengeResolved i true)]).
Proof using by_owner in_range unresolved.
  intros Hb. subst proof commitment. tx_unfold. cbn.
  rewrite by_owner, N.eqb_refl. cbn.
  apply N.ltb_lt in in_range. rewrite in_range. cbn. rewrite unresolved. cbn.
  set (slash := bondOf s (proposer (commitmentAt s (commitmentIndex (proofAt s i))))) in *.
  assert (Hb1 : (bondAmount s <=? balance s) = true) by (apply N.leb_le; lia).
  rewrite Hb1. cbn.
  destruct (bondAmount s <? slash) eqn:Hlt; cbn.
  - apply N.ltb_lt in Hlt.
    assert (Hs : (bondAmount s <=? slash) = true) by (apply N.leb_le; lia).
    rewrite Hs. cbn.
    assert (Hb2 : (slash - bondAmount s <=? balance s - bondAmount s) = true)
      by (apply N.leb_le; lia).
    rewrite Hb2. cbn. unfold with_balance; cbn. do 3 f_equal. lia.
  - apply N.ltb_ge in Hlt. unfold with_balance; cbn. do 3 f_equal. lia.
Qed.
End Resolve.

(** C1, as the code has it: resolving an unresolved challenge as not
    fraudulent sends exactly [bondAmount] in ether to the proposer of the
    challenged commitment and nothing to anybody else, so the challenger's
    bond stays with the contract; no entry of the bond ledger changes, the
    proposer's included; and the challenge is resolved for good. *)
Theorem resolveChallenge_honest (e : Env) (s : State) (i : uint256) :
  msg_sender e = owner s ->
  i < currentProofIndex s ->
  resolved (proofAt s i) = false ->
  bondAmount s <= balance s ->
  let sequencer_ := proposer (commitmentAt s (commitmentIndex (proofAt s i))) in
  exists s',
    exec e (ResolveChallenge i false) s =
      Ok (s', [Sent sequencer_ (bondAmount s); Emitted (ChallengeResolved i false)]) /\
    bonds s' = bonds s /\
    balance s' = balance s - bondAmount s /\
    forall calls, resolved (proofAt (run s' calls) i) = true.
Proof.
  intros Ho Hi Hr Hb sequencer_. eexists. split.
  - apply resolve_honest_exec; assumption.
  - cbn. repeat split. intros calls. apply run_resolved_mono; [exact Hi|].
    unfold proofAt; cbn. now rewrite lookup_insert_eq.
Qed.

Lemma resolveChallenge_honest_witness :
  exists s',
    exec (mkEnv 100 9 2000) (ResolveChallenge 0 false) challenged =
      Ok (s', [Sent 1 ether; Emitted (ChallengeResolved 0 false)]) /\
    bonds s' = bonds challenged /\
    balance s' = balance challenged - ether /\
    forall calls, resolved (proofAt (run s' calls) 0) = true.
Proof.
  apply (resolveChallenge_honest (mkEnv 100 9 2000) challenged 0);
    vm_compute; congruence.
Defined.

(** C1 refuted as stated: after a not-fraudulent resolution the proposer's
    bond-ledger balance is what it was, not [bondAmount] more. *)
Lemma resolveChallenge_honest_no_credit :
  exists s' l,
    exec (mkEnv 100 9 2000) (ResolveChallenge 0 false) challenged = Ok (s', l) /\
    proposer (commitmentAt challenged 0) = 1 /\
    bondOf challenged 1 = ether /\
    bondOf s' 1 = ether /\
    bondOf s' 1 <> bondOf challenged 1 + bondAmount challenged.
Proof.
  do 2 eexists. split; [vm_compute; reflexivity|].
  vm_compute. repeat split; congruence.
Qed.

(** C2, as the code has it: resolving an unresolved challenge as
    fraudulent zeroes the proposer's bond-ledger balance, leaves every
    other balance alone, and sends the challenger [bondAmount] and then
    whatever the slashed balance had above [bondAmount]: the larger of the
    two amounts, which is the slashed balance exactly when that was at
    least [bondAmount]; and the challenge is resolved for good. *)
Theorem resolveChallenge_fraud (e : Env) (s : State) (i : uint256) :
  msg_sender e = owner s ->
  i < currentProofIndex s ->
  resolved (proofAt s i) = false ->
  let sequencer_ := proposer (commitmentAt s (commitmentIndex (proofAt s i))) in
  let challenger_ := challenger (proofAt s i) in
  let slashAmount := bondOf s sequencer_ in
  N.max (bondAmount s) slashAmount <= balance s ->
  exists s' l,
    exec e (ResolveChallenge i true) s = Ok (s', l) /\
    bondOf s' sequencer_ = 0 /\
    (forall a, a <> sequencer_ -> bondOf s' a = bondOf s a) /\
    l = Sent challenger_ (bondAmount s)
          :: (if bondAmount s <? slashAmount
              then [Sent challenger_ (slashAmount - bondAmount s)] else [])
          ++ [Emitted (ChallengeResolved i true)] /\
    paidTo challenger_ l = N.max (bondAmount s) slashAmount /\
    (bondAmount s <= slashAmount -> paidTo challenger_ l = slashAmount) /\
    balance s' = balance s - N.max (bondAmount s) slashAmount /\
    forall calls, resolved (proofAt (run s' calls) i) = true.
Proof.
  intros Ho Hi Hr sequencer_ challenger_ slashAmount Hb. do 2 eexists. split.
  - apply resolve_fraud_exec; assumption.
  - fold sequencer_ challenger_ slashAmount.
    assert (Hpaid : paidTo challenger_
              (Sent challenger_ (bondAmount s)
                 :: (if bondAmount s <? slashAmount
                     then [Sent challenger_ (slashAmount - bondAmount s)] else [])
                 ++ [Emitted (ChallengeResolved i true)])
            = N.max (bondAmount s) slashAmount).
    { destruct (bondAmount s <? slashAmount) eqn:Hlt; cbn; rewrite N.eqb_refl.
      - apply N.ltb_lt in Hlt. lia.
      - apply N.ltb_ge in Hlt. lia. }
    repeat split.
    + unfold bondOf; cbn. now rewrite lookup_insert_eq.
    + intros a Ha. unfold bondOf; cbn. rewrite lookup_insert_ne by congruence.
      reflexivity.
    + exact Hpaid.
    + intros Hle. rewrite Hpaid. lia.
    + intros calls. apply run_resolved_mono; [exact Hi|].
      unfold proofAt; cbn. now rewrite lookup_insert_eq.
Qed.

Lemma resolveChallenge_fraud_witness :
  exists s' l,
    exec (mkEnv 100 9 2000) (ResolveChallenge 0 true) challenged = Ok (s', l) /\
    bondOf s' 1 = 0 /\
    (forall a, a <> 1 -> bondOf s' a = bondOf challenged a) /\
    l = Sent 2 ether
          :: (if ether <? ether then [Sent 2 (ether - ether)] else [])
          ++ [Emitted (ChallengeResolved 0 true)] /\
    paidTo 2 l = N.max ether ether /\
    (ether <= ether -> paidTo 2 l = ether) /\
    balance s' = balance challenged - N.max ether ether /\
    forall calls, resolved (proofAt (run s' calls) 0) = true.
Proof.
  apply (resolveChallenge_fraud (mkEnv 100 9 2000) challenged 0);
    vm_compute; congruence.
Defined.

(** C2 refuted as stated: once the sequencer has withdrawn its bond, a
    fraudulent resolution still pays the challenger [bondAmount], which is
    not the (empty) pre-resolution bond balance of the sequencer. *)
Lemma resolveChallenge_fraud_pays_bondAmount :
  exists s' l,
    exec (mkEnv 100 9 2000) (ResolveChallenge 0 true) challenged_unbonded = Ok (s', l) /\
    proposer (commitmentAt challenged_unbonded 0) = 1 /\
    challenger (proofAt challenged_unbonded 0) = 2 /\
    bondOf challenged_unbonded 1 = 0 /\
    paidTo 2 l = ether /\
    paidTo 2 l <> bondOf challenged_unbonded 1.
Proof.
  do 2 eexists. split; [vm_compute; reflexivity|].
  vm_compute. repeat split; congruence.
Qed.

(** *** Raising a challenge *)

Section Challenge.
Variables (e : Env) (s : State) (msg_value i : uint256).
Variables (pre post : bytes32) (evidence : bytes).

Let call := ChallengeState msg_value i pre post evidence.
Let commitment := commitmentAt s i.

Lemma challenge_rejected :
  msg_value < bondAmount s \/
  timestamp commitment + challengePeriod s < block_timestamp e \/
  finalized commitment = true ->
  succeeds e call s = false.
Proof.
  subst call commitment. intros H. tx_unfold. cbn.
  change (commitmentAt (with_balance (balance s + msg_value) s) i)
    with (commitmentAt s i).
  destruct (bondAmount s <=? msg_value) eqn:Hv; cbn; [|reflexivity].
  destruct (i <? currentCommitmentIndex s) eqn:Hi; cbn; [|reflexivity].
  destruct (finalized (commitmentAt s i)) eqn:Hf; cbn; [reflexivity|].
  destruct (timestamp (commitmentAt s i) + challengePeriod s <=? MAX_UINT256)
    eqn:Hov; cbn; [|reflexivity].
  destruct (block_timestamp e <=? timestamp (commitmentAt s i) + challengePeriod s)
    eqn:Hd; cbn; [|reflexivity].
  apply N.leb_le in Hv, Hd. destruct H as [H | [H | H]]; [lia | lia | discriminate].
Qed.

Lemma challenge_exec :
  i < currentCommitmentIndex s ->
  bondAmount s <= msg_value ->
  block_timestamp e <= timestamp commitment + challengePeriod s ->
  finalized commitment = false ->
  timestamp commitment + challengePeriod s <= MAX_UINT256 ->
  currentProofIndex s < MAX_UINT256 ->
  exec e call s =
    Ok (with_currentProofIndex (currentProofIndex s + 1)
          (with_fraudProofs
             (<[currentProofIndex s :=
                  mkFraudProof i pre post evidence (msg_sender e)
                    (block_timestamp e) false]> (fraudProofs s))
             (with_balance (balance s + msg_value) s)),
        [Emitted (ChallengeSubmitted (currentProofIndex s) i (msg_sender e))]).
Proof.
  subst call commitment. intros Hi Hv Hd Hf Hov Hn. tx_unfold. cbn.
  change (commitmentAt (with_balance (balance s + msg_value) s) i)
    with (commitmentAt s i).
  apply N.leb_le in Hv, Hd, Hov. apply N.ltb_lt in Hi.
  rewrite Hv; cbn. rewrite Hi; cbn. rewrite Hf; cbn. rewrite Hov; cbn.
  rewrite Hd; cbn.
  assert (Hn' : (currentProofIndex s + 1 <=? MAX_UINT256) = true)
    by (apply N.leb_le; lia).
  rewrite Hn'. reflexivity.
Qed.

(** Whether the call goes through does not depend on the challenges
    already recorded. *)
Lemma challenge_ignores_challenges (others : gmap N FraudProof) :
  succeeds e call (with_fraudProofs others s) = succeeds e call s.
Proof.
  subst call commitment. tx_unfold. cbn.
  change (commitmentAt (with_balance (balance s + msg_value)
                          (with_fraudProofs others s)) i)
    with (commitmentAt s i).
  change (commitmentAt (with_balance (balance s + msg_value) s) i)
    with (commitmentAt s i).
  destruct (bondAmount s <=? msg_value); cbn; [|reflexivity].
  destruct (i <? currentCommitmentIndex s); cbn; [|reflexivity].
  destruct (finalized (commitmentAt s i)); cbn; [reflexivity|].
  destruct (timestamp (commitmentAt s i) + challengePeriod s <=? MAX_UINT256);
    cbn; [|reflexivity].
  destruct (block_timestamp e <=? timestamp (commitmentAt s i) + challengePeriod s);
    cbn; [|reflexivity].
  destruct (currentProofIndex s + 1 <=? MAX_UINT256); reflexivity.
Qed.
End Challenge.

Lemma step_failed e c s : succeeds e c s = false -> step s (e, c) = s.
Proof.
  unfold succeeds, step; cbn. destruct (exec e c s) as [[s' l]| |]; congruence.
Qed.

(** C3, as the code has it.  A challenge whose bond is below [bondAmount],
    or that comes after [commitTime + challengePeriod], or that names a
    finalized commitment, is rejected and leaves the ledger as it was.  A
    challenge on an existing, unfinalized commitment with a sufficient bond
    inside the window is recorded under the next challenge index, next to
    all earlier challenges, whatever challenges are already recorded for
    the same commitment, provided [commitTime + challengePeriod] and the
    challenge counter stay within [uint256]. *)
Theorem challengeState_spec (e : Env) (s : State) (msg_value i : uint256)
    (pre post : bytes32) (evidence : bytes) :
  let call := ChallengeState msg_value i pre post evidence in
  let commitment := commitmentAt s i in
  (msg_value < bondAmount s \/
   timestamp commitment + challengePeriod s < block_timestamp e \/
   finalized commitment = true ->
   succeeds e call s = false /\ step s (e, call) = s /\
   currentProofIndex (step s (e, call)) = currentProofIndex s) /\
  (i < currentCommitmentIndex s ->
   bondAmount s <= msg_value ->
   block_timestamp e <= timestamp commitment + challengePeriod s ->
   finalized commitment = false ->
   timestamp commitment + challengePeriod s <= MAX_UINT256 ->
   currentProofIndex s < MAX_UINT256 ->
   exists s',
     exec e call s =
       Ok (s', [Emitted (ChallengeSubmitted (currentProofIndex s) i (msg_sender e))]) /\
     currentProofIndex s' = currentProofIndex s + 1 /\
     proofAt s' (currentProofIndex s) =
       mkFraudProof i pre post evidence (msg_sender e) (block_timestamp e) false /\
     (forall j, j <> currentProofIndex s -> proofAt s' j = proofAt s j) /\
     stateCommitments s' = stateCommitments s /\
     bonds s' = bonds s /\
     balance s' = balance s + msg_value) /\
  (forall others : gmap N FraudProof,
     succeeds e call (with_fraudProofs others s) = succeeds e call s).
Proof.
  intros call commitment. split; [|split].
  - intros H. pose proof (challenge_rejected e s msg_value i pre post evidence H) as Hr.
    fold call in Hr. rewrite (step_failed _ _ _ Hr). auto.
  - intros Hi Hv Hd Hf Hov Hn. eexists. split.
    + apply challenge_exec; assumption.
    + cbn. repeat split.
      * unfold proofAt; cbn. now rewrite lookup_insert_eq.
      * intros j Hj. unfold proofAt; cbn. now rewrite lookup_insert_ne.
  - intros others. apply challenge_ignores_challenges.
Qed.

(** A second challenge against commitment 0 of [challenged], which already
    carries an unresolved one, is accepted; one with a short bond is not. *)
Lemma challengeState_spec_witness :
  (exists s',
     exec (mkEnv 3 8 1002) (ChallengeState ether 0 54 55 []) challenged =
       Ok (s', [Emitted (ChallengeSubmitted 1 0 3)]) /\
     currentProofIndex s' = 2 /\
     commitmentIndex (proofAt s' 0) = 0 /\ resolved (proofAt s' 0) = false /\
     commitmentIndex (proofAt s' 1) = 0 /\ resolved (proofAt s' 1) = false) /\
  step challenged (mkEnv 3 8 1002, ChallengeState (ether - 1) 0 54 55 []) = challenged.
Proof.
  split.
  - destruct (challengeState_spec (mkEnv 3 8 1002) challenged ether 0 54 55 [])
      as (_ & Hacc & _).
    destruct Hacc as (s' & Hx & Hn & Hp & Hold & _); [vm_compute; congruence ..|].
    exists s'. split; [exact Hx|]. split; [exact Hn|].
    rewrite (Hold 0) by (vm_compute; congruence).
    change (currentProofIndex challenged) with 1 in Hp. rewrite Hp.
    vm_compute. auto.
  - destruct (challengeState_spec (mkEnv 3 8 1002) challenged (ether - 1) 0 54 55 [])
      as (Hrej & _).
    apply Hrej. left. vm_compute. reflexivity.
Defined.

(** C3 refuted as stated: once the owner has set the challenge period to
    the largest [uint256], a challenge on an existing, unfinalized
    commitment with a sufficient bond and inside the window aborts on the
    overflow of [timestamp + challengePeriod], and nothing is recorded. *)
Lemma challengeState_window_overflow :
  let s := step challenged (mkEnv 100 9 1001, SetChallengePeriod MAX_UINT256) in
  let e := mkEnv 3 9 1002 in
  let call := ChallengeState ether 0 54 55 [] in
  (0 <? currentCommitmentIndex s) = true /\
  (bondAmount s <=? ether) = true /\
  (block_timestamp e <=? timestamp (commitmentAt s 0) + challengePeriod s) = true /\
  finalized (commitmentAt s 0) = false /\
  exec e call s = Panic 17 /\
  currentProofIndex (step s (e, call)) = currentProofIndex s.
Proof.
  vm_compute. repeat split.
Qed.

(** *** Finalizing a commitment *)

Section Finalize.
Variables (e : Env) (s : State) (i : uint256).
Hypothesis exists_ : i < currentCommitmentIndex s.

Let commitment := commitmentAt s i.

Lemma finalize_too_early :
  block_timestamp e <= timestamp commitment + challengePeriod s ->
  succeeds e (FinalizeState i) s = false.
Proof.
  clear exists_. subst commitment. intros Hd. tx_unfold. cbn.
  destruct (i <? currentCommitmentIndex s); cbn; [|reflexivity].
  destruct (finalized (commitmentAt s i)); cbn; [reflexivity|].
  destruct (timestamp (commitmentAt s i) + challengePeriod s <=? MAX_UINT256);
    cbn; [|reflexivity].
  destruct (timestamp (commitmentAt s i) + challengePeriod s <? block_timestamp e)
    eqn:Hlt; cbn; [|reflexivity].
  apply N.ltb_lt in Hlt. lia.
Qed.

Lemma finalize_exec :
  timestamp commitment + challengePeriod s < block_timestamp e ->
  block_timestamp e <= MAX_UINT256 ->
  finalized commitment = false ->
  exec e (FinalizeState i) s =
    Ok (with_stateCommitments
          (<[i := setFinalized commitment]> (stateCommitments s)) s,
        [Emitted (StateFinalized i (stateRoot commitment))]).
Proof using exists_.
  subst commitment. intros Hd Hnow Hf. tx_unfold. cbn.
  apply N.ltb_lt in exists_. rewrite exists_; cbn. rewrite Hf; cbn.
  assert (Hov : (timestamp (commitmentAt s i) + challengePeriod s <=? MAX_UINT256)
                = true) by (apply N.leb_le; lia).
  rewrite Hov; cbn. apply N.ltb_lt in Hd. rewrite Hd. reflexivity.
Qed.

Lemma finalize_again (e' : Env) :
  finalized commitment = true ->
  exec e' (FinalizeState i) s = Revert "State already finalized".
Proof using exists_.
  subst commitment. intros Hf. tx_unfold. cbn.
  apply N.ltb_lt in exists_. rewrite exists_; cbn. rewrite Hf. reflexivity.
Qed.

(** [finalizeState] never reads the challenges. *)
Lemma finalize_ignores_challenges (others : gmap N FraudProof) :
  exec e (FinalizeState i) (with_fraudProofs others s) =
  match exec e (FinalizeState i) s with
  | Ok (s', l) => Ok (with_fraudProofs others s', l)
  | Revert r => Revert r
  | Panic k => Panic k
  end.
Proof.
  tx_unfold. cbn.
  change (commitmentAt (with_fraudProofs others s) i) with (commitmentAt s i).
  destruct (i <? currentCommitmentIndex s); cbn; [|reflexivity].
  destruct (finalized (commitmentAt s i)); cbn; [reflexivity|].
  destruct (timestamp (commitmentAt s i) + challengePeriod s <=? MAX_UINT256);
    cbn; [|reflexivity].
  destruct (timestamp (commitmentAt s i) + challengePeriod s <? block_timestamp e);
    reflexivity.
Qed.
End Finalize.

(** C4.  For an existing commitment, [finalizeState] is rejected and changes
    nothing while [now <= commitTime + challengePeriod]; after that it
    succeeds on the unfinalized commitment, setting [finalized] and nothing
    else; from then on, whatever calls follow, [finalized] stays set, every
    further [finalizeState] on it is rejected with no effect, and
    [finalizeStates] passes over it; and the challenges recorded, resolved
    or not, have no say in any of this. *)
Theorem finalizeState_spec (e : Env) (s : State) (i : uint256) :
  i < currentCommitmentIndex s ->
  let commitment := commitmentAt s i in
  (block_timestamp e <= timestamp commitment + challengePeriod s ->
   succeeds e (FinalizeState i) s = false /\ step s (e, FinalizeState i) = s) /\
  (timestamp commitment + challengePeriod s < block_timestamp e ->
   block_timestamp e <= MAX_UINT256 ->
   finalized commitment = false ->
   exists s',
     exec e (FinalizeState i) s =
       Ok (s', [Emitted (StateFinalized i (stateRoot commitment))]) /\
     s' = with_stateCommitments
            (<[i := setFinalized commitment]> (stateCommitments s)) s /\
     finalized (commitmentAt s' i) = true /\
     (forall j, j <> i -> commitmentAt s' j = commitmentAt s j) /\
     forall calls e',
       exec e' (FinalizeState i) (run s' calls) = Revert "State already finalized") /\
  (finalized commitment = true ->
   forall calls e',
     finalized (commitmentAt (run s calls) i) = true /\
     exec e' (FinalizeState i) (run s calls) = Revert "State already finalized" /\
     step (run s calls) (e', FinalizeState i) = run s calls /\
     forall s' l,
       exec e' FinalizeStates (run s calls) = Ok (s', l) ->
       commitmentAt s' i = commitmentAt (run s calls) i /\
       forall root, ~ In (Emitted (StateFinalized i root)) l) /\
  (forall others : gmap N FraudProof,
     succeeds e (FinalizeState i) (with_fraudProofs others s) =
     succeeds e (FinalizeState i) s).
Proof.
  intros Hi commitment.
  assert (Hperm : forall t, i < currentCommitmentIndex t ->
            finalized (commitmentAt t i) = true ->
            forall calls e',
              finalized (commitmentAt (run t calls) i) = true /\
              exec e' (FinalizeState i) (run t calls) = Revert "State already finalized").
  { intros t Ht Hf calls e'.
    destruct (run_finalized_mono calls t i Ht Hf) as [Hi' Hf'].
    split; [exact Hf'|]. now apply finalize_again. }
  split; [|split; [|split]].
  - intros Hd. pose proof (finalize_too_early e s i Hd) as Hr.
    split; [exact Hr | now apply step_failed].
  - intros Hd Hnow Hf. eexists. split; [now apply finalize_exec|].
    split; [reflexivity|]. split; [|split].
    + rewrite commitmentAt_insert. now destruct (decide (i = i)).
    + intros j Hj. rewrite commitmentAt_insert.
      destruct (decide (i = j)); [congruence | reflexivity].
    + intros calls e'. apply Hperm; [exact Hi|].
      rewrite commitmentAt_insert. now destruct (decide (i = i)).
  - intros Hf calls e'. destruct (Hperm s Hi Hf calls e') as [H1 H2].
    split; [exact H1|]. split; [exact H2|]. split.
    + unfold step; cbn. now rewrite H2.
    + intros s' l. now apply finalizeStates_skips_finalized.
  - intros others. unfold succeeds. rewrite finalize_ignores_challenges.
    destruct (exec e (FinalizeState i) s) as [[s' l]| |]; reflexivity.
Qed.

(** On [challenged], whose only commitment carries an unresolved challenge:
    too early at time 1000 + 86400, finalized one second later, and then
    rejected even after further traffic. *)
Lemma finalizeState_spec_witness :
  step challenged (mkEnv 3 9 87400, FinalizeState 0) = challenged /\
  exists s',
    exec (mkEnv 3 9 87401) (FinalizeState 0) challenged =
      Ok (s', [Emitted (StateFinalized 0 55)]) /\
    resolved (proofAt s' 0) = false /\
    finalized (commitmentAt s' 0) = true /\
    exec (mkEnv 3 9 90000) (FinalizeState 0)
      (run s' [(mkEnv 1 9 87500, CommitState 56); (mkEnv 3 9 87600, FinalizeStates)])
    = Revert "State already finalized".
Proof.
  destruct (finalizeState_spec (mkEnv 3 9 87400) challenged 0) as (Hearly & _);
    [vm_compute; reflexivity|].
  destruct (finalizeState_spec (mkEnv 3 9 87401) challenged 0) as (_ & Hdue & _);
    [vm_compute; reflexivity|].
  split.
  - apply Hearly. vm_compute. congruence.
  - destruct Hdue as (s' & Hx & Hs & Hf & _ & Hlater); [vm_compute; congruence ..|].
    exists s'. split; [exact Hx|]. split; [rewrite Hs; vm_compute; reflexivity|].
    split; [exact Hf|]. apply Hlater.
Defined.

(** *** Bond accounting *)

(** The calls that are meant to lower the bond of [a]: a withdrawal by [a]
    itself, or a fraudulent resolution of a challenge against a commitment
    proposed by [a]. *)
Definition debits (a : address) (s : State) (ec : Env * Call) : bool :=
  match snd ec with
  | WithdrawBond _ | WithdrawBondAll => msg_sender (fst ec) =? a
  | ResolveChallenge i true =>
      proposer (commitmentAt s (commitmentIndex (proofAt s i))) =? a
  | _ => false
  end.

(** No call of the trace, taken in the state it runs in, debits [a]. *)
Fixpoint never_debited (a : address) (s : State) (calls : list (Env * Call)) : bool :=
  match calls with
  | [] => true
  | ec :: rest => negb (debits a s ec) && never_debited a (step s ec) rest
  end.

Lemma exec_bond_lowered e c s s' l a :
  exec e c s = Ok (s', l) ->
  bondOf s' a < bondOf s a ->
  debits a s (e, c) = true.
Proof.
  intros H Hlt. destruct c.
  4:{ apply exec_finalizeStates in H as [Hs _]. rewrite Hs in Hlt.
      unfold bondOf in Hlt; cbn in Hlt. lia. }
  all: tx_unfold; tx_cases H; injection H as <- _;
    unfold debits, bondOf in *; cbn in *; try lia.
  all: try (rewrite lookup_insert in Hlt; destruct (decide _) as [->|]; cbn in Hlt;
            try lia; try apply N.eqb_refl).
  all: match goal with
       | H : (_ <=? _) = true |- _ => apply N.leb_le in H; lia
       end.
Qed.

Lemma run_never_debited a calls : forall s,
  never_debited a s calls = true -> bondOf s a <= bondOf (run s calls) a.
Proof.
  induction calls as [|[e c] calls IH]; intros s H; cbn in *; [lia|].
  apply andb_prop in H as [Hd Hrest]. apply IH in Hrest.
  etransitivity; [|exact Hrest]. unfold step; cbn.
  destruct (exec e c s) as [[s' l]| |] eqn:Hx; try lia.
  destruct (N.lt_ge_cases (bondOf s' a) (bondOf s a)) as [Hlt|]; [|assumption].
  apply (exec_bond_lowered e c s s' l a Hx) in Hlt. now rewrite Hlt in Hd.
Qed.

(** C5.  Whenever a call leaves the bond of an address lower than it found
    it, the call is a [withdrawBond] by that address or a fraudulent
    [resolveChallenge] against a commitment that address proposed; so along
    any sequence of calls without such a call the bond never drops; and a
    [withdrawBond] of more than the caller's bond is rejected and changes
    nothing. *)
Theorem bond_decreases_only_by_withdraw_or_slash (a : address) (s : State) :
  (forall e c s' l,
     exec e c s = Ok (s', l) -> bondOf s' a < bondOf s a -> debits a s (e, c) = true) /\
  (forall calls,
     never_debited a s calls = true -> bondOf s a <= bondOf (run s calls) a) /\
  (forall e amount,
     bondOf s (msg_sender e) < amount ->
     exec e (WithdrawBond amount) s = Revert "Insufficient bond balance" /\
     step s (e, WithdrawBond amount) = s /\
     bondOf (step s (e, WithdrawBond amount)) (msg_sender e) = bondOf s (msg_sender e)).
Proof.
  split; [|split].
  - intros e c s' l. apply exec_bond_lowered.
  - intros calls. apply run_never_debited.
  - intros e amount Hlt.
    assert (Hx : exec e (WithdrawBond amount) s = Revert "Insufficient bond balance").
    { tx_unfold. cbn. apply N.leb_gt in Hlt. now rewrite Hlt. }
    split; [exact Hx|]. unfold step; cbn. rewrite Hx. auto.
Qed.

(** On [challenged]: an honest resolution, a deposit by somebody else and a
    finalization leave the sequencer's bond where it was, and taking out
    more than the bond is refused. *)
Lemma bond_decreases_only_by_withdraw_or_slash_witness :
  bondOf challenged 1 <=
    bondOf (run challenged
              [ (mkEnv 100 9 2000, ResolveChallenge 0 false);
                (mkEnv 2 9 2001, DepositBond 5);
                (mkEnv 3 9 90000, FinalizeStates) ]) 1 /\
  step challenged (mkEnv 1 9 2000, WithdrawBond (ether + 1)) = challenged.
Proof.
  destruct (bond_decreases_only_by_withdraw_or_slash 1 challenged) as (_ & Hrun & Hover).
  split.
  - apply Hrun. vm_compute. reflexivity.
  - apply (Hover (mkEnv 1 9 2000) (ether + 1)). vm_compute. reflexivity.
Defined.

(** *** Committing a state root *)

Lemma commit_exec e s root :
  msg_sender e = sequencer s ->
  bondAmount s <= bondOf s (msg_sender e) ->
  currentCommitmentIndex s < MAX_UINT256 ->
  exec e (CommitState root) s =
    Ok (with_currentCommitmentIndex (currentCommitmentIndex s + 1)
          (with_stateCommitments
             (<[currentCommitmentIndex s :=
                  mkStateCommitment root (block_number e) (block_timestamp e)
                    (msg_sender e) false]> (stateCommitments s)) s),
        [Emitted (StateCommitted (currentCommitmentIndex s) root (msg_sender e))]).
Proof.
  intros Hs Hb Hn. tx_unfold. cbn.
  rewrite Hs, N.eqb_refl. cbn. rewrite <- Hs.
  apply N.leb_le in Hb. rewrite Hb. cbn.
  assert (Hn' : (currentCommitmentIndex s + 1 <=? MAX_UINT256) = true)
    by (apply N.leb_le; lia).
  rewrite Hn'. reflexivity.
Qed.

(** X1.  [commitState] is rejected for anybody but the sequencer and for a
    sequencer whose bond is below [bondAmount]; otherwise, while the
    counter has room, it records the root with the block number, the time
    and the sender under the next index, unfinalized, next to all earlier
    commitments, and takes nothing from the bond. *)
Theorem commitState_spec (e : Env) (s : State) (root : bytes32) :
  (msg_sender e <> sequencer s ->
   exec e (CommitState root) s = Revert "Only sequencer can commit states") /\
  (msg_sender e = sequencer s -> bondOf s (msg_sender e) < bondAmount s ->
   exec e (CommitState root) s = Revert "Insufficient bond") /\
  (msg_sender e = sequencer s -> bondAmount s <= bondOf s (msg_sender e) ->
   currentCommitmentIndex s < MAX_UINT256 ->
   exists s',
     exec e (CommitState root) s =
       Ok (s', [Emitted (StateCommitted (currentCommitmentIndex s) root (msg_sender e))]) /\
     currentCommitmentIndex s' = currentCommitmentIndex s + 1 /\
     commitmentAt s' (currentCommitmentIndex s) =
       mkStateCommitment root (block_number e) (block_timestamp e) (msg_sender e) false /\
     (forall j, j <> currentCommitmentIndex s -> commitmentAt s' j = commitmentAt s j) /\
     fraudProofs s' = fraudProofs s /\ bonds s' = bonds s /\ balance s' = balance s).
Proof.
  split; [|split].
  - intros Hs. tx_unfold. cbn. apply N.eqb_neq in Hs. now rewrite Hs.
  - intros Hs Hb. tx_unfold. cbn. rewrite Hs, N.eqb_refl. cbn. rewrite <- Hs.
    apply N.leb_gt in Hb. now rewrite Hb.
  - intros Hs Hb Hn. eexists. split; [now apply commit_exec|].
    cbn. repeat split.
    + unfold commitmentAt; cbn. now rewrite lookup_insert_eq.
    + intros j Hj. unfold commitmentAt; cbn. now rewrite lookup_insert_ne.
Qed.

(** Two records that differ at most in their flag. *)
Definition same_commitment (c c' : StateCommitment) : Prop :=
  stateRoot c' = stateRoot c /\ blockNumber c' = blockNumber c /\
  timestamp c' = timestamp c /\ proposer c' = proposer c /\
  (finalized c = true -> finalized c' = true).

Definition same_challenge (p p' : FraudProof) : Prop :=
  commitmentIndex p' = commitmentIndex p /\ preStateRoot p' = preStateRoot p /\
  postStateRoot p' = postStateRoot p /\ transitionProof p' = transitionProof p /\
  challenger p' = challenger p /\ challengeTime p' = challengeTime p /\
  (resolved p = true -> resolved p' = true).

Lemma exec_append_only e c s s' l :
  exec e c s = Ok (s', l) ->
  currentCommitmentIndex s <= currentCommitmentIndex s' /\
  currentProofIndex s <= currentProofIndex s' /\
  (forall i, i < currentCommitmentIndex s ->
     same_commitment (commitmentAt s i) (commitmentAt s' i)) /\
  (forall i, i < currentProofIndex s -> same_challenge (proofAt s i) (proofAt s' i)).
Proof.
  intros H. destruct c.
  4:{ apply exec_finalizeStates in H as [Hs Hc]. rewrite Hs. cbn.
      split; [lia|]. split; [lia|]. split.
      - intros i _.
        change (commitmentAt (with_stateCommitments (stateCommitments s') s) i)
          with (commitmentAt s' i).
        destruct (Hc i) as [-> | ->]; repeat split; auto.
      - intros i _. repeat split; auto. }
  all: tx_unfold; tx_cases H; injection H as <- _; cbn.
  all: (split; [lia|]; split; [lia|]; split; intros i Hi).
  all: unfold commitmentAt, proofAt in *; cbn.
  all: try (repeat split; auto; fail).
  all: rewrite lookup_insert; destruct (decide _) as [<-|]; cbn;
    try lia; repeat split; auto.
Qed.

Lemma same_commitment_trans c1 c2 c3 :
  same_commitment c1 c2 -> same_commitment c2 c3 -> same_commitment c1 c3.
Proof. unfold same_commitment. intuition congruence. Qed.

Lemma same_challenge_trans p1 p2 p3 :
  same_challenge p1 p2 -> same_challenge p2 p3 -> same_challenge p1 p3.
Proof. unfold same_challenge. intuition congruence. Qed.

(** X2.  Whatever calls are made, the two counters never go down, and a
    commitment or challenge once recorded keeps every field; only its
    [finalized] or [resolved] flag may change, from unset to set. *)
Theorem ledger_append_only (s : State) (calls : list (Env * Call)) :
  currentCommitmentIndex s <= currentCommitmentIndex (run s calls) /\
  currentProofIndex s <= currentProofIndex (run s calls) /\
  (forall i, i < currentCommitmentIndex s ->
     same_commitment (commitmentAt s i) (commitmentAt (run s calls) i)) /\
  (forall i, i < currentProofIndex s ->
     same_challenge (proofAt s i) (proofAt (run s calls) i)).
Proof.
  revert s. induction calls as [|[e c] calls IH]; intros s.
  - cbn. split; [lia|]. split; [lia|]. split; intros i _; repeat split; auto.
  - change (run s ((e, c) :: calls)) with (run (step s (e, c)) calls).
    destruct (IH (step s (e, c))) as (H1 & H2 & H3 & H4).
    assert (Hstep : currentCommitmentIndex s <= currentCommitmentIndex (step s (e, c)) /\
      currentProofIndex s <= currentProofIndex (step s (e, c)) /\
      (forall i, i < currentCommitmentIndex s ->
         same_commitment (commitmentAt s i) (commitmentAt (step s (e, c)) i)) /\
      (forall i, i < currentProofIndex s ->
         same_challenge (proofAt s i) (proofAt (step s (e, c)) i))).
    { unfold step; cbn [fst snd]. destruct (exec e c s) as [[s' l]| |] eqn:Hx.
      - eapply exec_append_only; eauto.
      - split; [lia|]. split; [lia|]. split; intros i _; repeat split; auto.
      - split; [lia|]. split; [lia|]. split; intros i _; repeat split; auto. }
    destruct Hstep as (G1 & G2 & G3 & G4).
    split; [lia|]. split; [lia|]. split; intros i Hi.
    + eapply same_commitment_trans; [apply G3; exact Hi | apply H3; lia].
    + eapply same_challenge_trans; [apply G4; exact Hi | apply H4; lia].
Qed.

(** *** Solvency *)

(** The bonds the ledger owes, all addresses together. *)
Definition sumBonds (m : gmap N N) : N := map_fold (fun _ v acc => v + acc) 0 m.
Definition totalBonds (s : State) : N := sumBonds (bonds s).

(** The number of unresolved challenges among the first [n]. *)
Fixpoint openBelow (m : gmap N FraudProof) (n : nat) : N :=
  match n with
  | O => 0
  | S k =>
      (if resolved (default zeroProof (m !! N.of_nat k)) then 0 else 1) + openBelow m k
  end.
Definition openChallenges (s : State) : N :=
  openBelow (fraudProofs s) (N.to_nat (currentProofIndex s)).

(** The contract holds the bonds it owes and one [bondAmount] for each
    unresolved challenge. *)
Definition solvent (s : State) : Prop :=
  totalBonds s + bondAmount s * openChallenges s <= balance s.

Lemma sumBonds_insert (m : gmap N N) a v :
  sumBonds (<[a := v]> m) + default 0 (m !! a) = sumBonds m + v.
Proof.
  unfold sumBonds.
  assert (Hcomm : forall (m' : gmap N N) (j1 j2 z1 z2 y : N),
            j1 <> j2 -> m' !! j1 = Some z1 -> m' !! j2 = Some z2 ->
            z1 + (z2 + y) = z2 + (z1 + y)) by (intros; lia).
  destruct (m !! a) as [w|] eqn:Ha; cbn.
  - rewrite <- insert_delete_eq.
    rewrite map_fold_insert_L; [|apply Hcomm|apply lookup_delete_eq].
    rewrite (map_fold_delete_L _ _ a w m); [lia|apply Hcomm|exact Ha].
  - rewrite map_fold_insert_L; [lia|apply Hcomm|exact Ha].
Qed.

Lemma bond_le_sumBonds (m : gmap N N) a : default 0 (m !! a) <= sumBonds m.
Proof.
  pose proof (sumBonds_insert m a 0) as H.
  destruct (m !! a) as [w|] eqn:Ha; cbn in *; [|lia].
  assert (sumBonds (<[a:=0]> m) + w = sumBonds m) by lia. lia.
Qed.

Lemma openBelow_insert_above (m : gmap N FraudProof) i p n :
  N.of_nat n <= i -> openBelow (<[i := p]> m) n = openBelow m n.
Proof.
  induction n as [|k IH]; intros Hi; [reflexivity|].
  cbn [openBelow]. rewrite lookup_insert_ne by lia. rewrite IH by lia. reflexivity.
Qed.

Lemma openBelow_resolve (m : gmap N FraudProof) i p n :
  i < N.of_nat n ->
  resolved (default zeroProof (m !! i)) = false ->
  resolved p = true ->
  openBelow (<[i := p]> m) n + 1 = openBelow m n.
Proof.
  induction n as [|k IH]; intros Hi Hopen Hp; [lia|].
  cbn [openBelow]. destruct (decide (i = N.of_nat k)) as [->|Hne].
  - rewrite lookup_insert_eq. cbn. rewrite Hp, Hopen.
    rewrite openBelow_insert_above by lia. lia.
  - rewrite lookup_insert_ne by exact Hne. rewrite <- IH by (auto; lia). lia.
Qed.

Lemma openChallenges_pos s i :
  i < currentProofIndex s -> resolved (proofAt s i) = false -> 1 <= openChallenges s.
Proof.
  unfold openChallenges, proofAt. intros Hi Hr.
  assert (Hi' : i < N.of_nat (N.to_nat (currentProofIndex s))) by lia.
  revert Hi'. generalize (N.to_nat (currentProofIndex s)) as n.
  induction n as [|k IH]; intros Hk; [lia|].
  cbn [openBelow]. destruct (decide (i = N.of_nat k)) as [->|Hne].
  - rewrite Hr. lia.
  - assert (1 <= openBelow (fraudProofs s) k) by (apply IH; lia). lia.
Qed.

Lemma exec_solvent e c s s' l :
  exec e c s = Ok (s', l) -> solvent s -> solvent s' /\ bondAmount s' = bondAmount s.
Proof.
  intros H Hs. destruct c.
  4:{ apply exec_finalizeStates in H as [Hs' _]. rewrite Hs'. split; [exact Hs | reflexivity]. }
  all: tx_unfold; tx_cases H; injection H as <- _; (split; [|reflexivity]).
  all: unfold solvent, totalBonds, openChallenges, bondOf, proofAt in *; cbn in *.
  all: try assumption.
  all: repeat match goal with
       | H : (_ <=? _) = true |- _ => apply N.leb_le in H
       | H : (_ <? _) = true |- _ => apply N.ltb_lt in H
       | H : (_ <=? _) = false |- _ => apply N.leb_gt in H
       | H : (_ <? _) = false |- _ => apply N.ltb_ge in H
       | H : negb _ = true |- _ => apply negb_true_iff in H
       end.
  1:{ replace (N.to_nat (currentProofIndex s + 1)) with (S (N.to_nat (currentProofIndex s)))
      by lia.
    cbn [openBelow]. rewrite N2Nat.id, lookup_insert_eq. cbn.
    rewrite openBelow_insert_above by lia. nia. }
  all: repeat match goal with
       | |- context [sumBonds (<[?a := ?v]> ?m)] =>
           let Hb := fresh "Hb" in
           pose proof (sumBonds_insert m a v) as Hb;
           generalize dependent (sumBonds (<[a := v]> m)); intros
       | |- context [openBelow (<[?i := ?p]> ?m) ?n] =>
           let Ho := fresh "Ho" in
           pose proof (openBelow_resolve m i p n) as Ho;
           generalize dependent (openBelow (<[i := p]> m) n); intros
       end.
  all: try match goal with
       | Ho : _ -> _ -> _ -> _ |- _ => specialize (Ho ltac:(lia) ltac:(assumption) eq_refl)
       end.
  all: try nia.
Qed.

Lemma run_solvent calls : forall s, solvent s -> solvent (run s calls).
Proof.
  induction calls as [|[e c] calls IH]; intros s Hs; [exact Hs|].
  change (run s ((e, c) :: calls)) with (run (step s (e, c)) calls).
  apply IH. unfold step; cbn [fst snd].
  destruct (exec e c s) as [[s' l]| |] eqn:Hx; try exact Hs.
  now apply (exec_solvent e c s s' l).
Qed.

Lemma run_bondAmount calls : forall s, bondAmount (run s calls) = bondAmount s.
Proof.
  induction calls as [|[e c] calls IH]; intros s; [reflexivity|].
  change (run s ((e, c) :: calls)) with (run (step s (e, c)) calls).
  rewrite IH. unfold step; cbn [fst snd].
  destruct (exec e c s) as [[s' l]| |] eqn:Hx; try reflexivity.
  destruct c.
  4:{ apply exec_finalizeStates in Hx as [-> _]. reflexivity. }
  all: tx_unfold; tx_cases Hx; injection Hx as <- _; reflexivity.
Qed.

(** X3.  Whatever calls are made after deployment, [bondAmount] is what it was
    set to, and the contract holds at least the sum of all bonds plus
    [bondAmount] for each unresolved challenge; in particular it holds
    every single bond. *)
Theorem solvency_invariant (deployer sequencer_ : address) (period bond : uint256)
    (calls : list (Env * Call)) :
  let s := run (initialize deployer sequencer_ period bond) calls in
  bondAmount s = bond /\
  totalBonds s + bond * openChallenges s <= balance s /\
  forall a, bondOf s a <= balance s.
Proof.
  intros s.
  assert (Hb : bondAmount s = bond) by (unfold s; now rewrite run_bondAmount).
  assert (Hs : solvent s).
  { apply run_solvent. unfold solvent, totalBonds, openChallenges, sumBonds, initialize.
    cbn [bonds fraudProofs currentProofIndex bondAmount balance].
    rewrite map_fold_empty. change (N.to_nat 0) with O. cbn [openBelow]. lia. }
  unfold solvent in Hs. rewrite Hb in Hs. split; [exact Hb|]. split; [exact Hs|].
  intros a. pose proof (bond_le_sumBonds (bonds s) a) as Hle.
  unfold totalBonds in Hs. unfold bondOf. lia.
Qed.

(** *** Recipients that refuse ether

    [payable(a).transfer(v)] hands [a] the ether with 2300 gas.  An
    externally owned account takes it; a contract takes it if its
    [receive] or [fallback] function runs through on that gas, and
    otherwise the transfer fails with the recipient's revert data, and
    the whole call with it.  [exec] is the call among recipients that
    take the ether.  [exec_with receives] is the call when [receives a v]
    is what [a] answers to a transfer of [v]: a call that [exec] takes to
    the end is undone by the first payout that is refused.  A call that
    [exec] aborts is aborted here too, with the failure [exec] reports;
    that is the failure the contract reports unless a payout came before
    it, which is so only when a ruling of fraud finds too little ether
    for its second payout, both payouts going to the challenger. *)
Definition refusal (receives : address -> uint256 -> Result unit) (effect : Effect)
  : option (Result (State * list Effect)) :=
  match effect with
  | Sent to amount =>
      match receives to amount with
      | Ok _ => None
      | Revert reason => Some (Revert reason)
      | Panic code => Some (Panic code)
      end
  | Emitted _ => None
  end.

Fixpoint firstRefusal (receives : address -> uint256 -> Result unit)
    (effects : list Effect) : option (Result (State * list Effect)) :=
  match effects with
  | [] => None
  | effect :: rest =>
      match refusal receives effect with
      | Some failure => Some failure
      | None => firstRefusal receives rest
      end
  end.

Definition exec_with (receives : address -> uint256 -> Result unit)
    (e : Env) (c : Call) (s : State) : Result (State * list Effect) :=
  match exec e c s with
  | Ok (s', effects) =>
      match firstRefusal receives effects with
      | Some failure => failure
      | None => Ok (s', effects)
      end
  | failure => failure
  end.

(** A call that makes one payout and nothing else to announce. *)
Lemma exec_with_payout receives e c s s' to amount :
  exec e c s = Ok (s', [Sent to amount]) ->
  exec_with receives e c s =
    match receives to amount with
    | Ok _ => Ok (s', [Sent to amount])
    | Revert reason => Revert reason
    | Panic code => Panic code
    end.
Proof.
  intros Hx. unfold exec_with. rewrite Hx. cbn.
  destruct (receives to amount); reflexivity.
Qed.

Lemma withdrawBond_exec e s amount :
  amount <= bondOf s (msg_sender e) -> amount <= balance s ->
  exec e (WithdrawBond amount) s =
    Ok (with_balance (balance s - amount)
          (with_bonds (<[msg_sender e := bondOf s (msg_sender e) - amount]> (bonds s)) s),
        [Sent (msg_sender e) amount]).
Proof.
  intros Ha Hb. tx_unfold. cbn. apply N.leb_le in Ha, Hb. rewrite Ha. cbn. rewrite Hb.
  reflexivity.
Qed.

(** X4.  On a solvent ledger a withdrawal within the caller's bond is paid
    whenever the caller takes the ether: the bond and the contract's
    holdings go down by the amount, no other bond moves, and the ledger
    stays solvent.  If the caller refuses the ether the call fails as the
    caller made the transfer fail, and nothing has changed. *)
Theorem withdrawBond_pays (receives : address -> uint256 -> Result unit)
    (e : Env) (s : State) (amount : uint256) :
  solvent s ->
  amount <= bondOf s (msg_sender e) ->
  (receives (msg_sender e) amount = Ok tt ->
   exists s',
     exec_with receives e (WithdrawBond amount) s = Ok (s', [Sent (msg_sender e) amount]) /\
     bondOf s' (msg_sender e) = bondOf s (msg_sender e) - amount /\
     (forall a, a <> msg_sender e -> bondOf s' a = bondOf s a) /\
     balance s' = balance s - amount /\
     solvent s') /\
  (forall reason, receives (msg_sender e) amount = Revert reason ->
     exec_with receives e (WithdrawBond amount) s = Revert reason) /\
  (forall code, receives (msg_sender e) amount = Panic code ->
     exec_with receives e (WithdrawBond amount) s = Panic code).
Proof.
  intros Hs Ha.
  assert (Hb : amount <= balance s).
  { pose proof (bond_le_sumBonds (bonds s) (msg_sender e)) as Hle.
    unfold solvent, totalBonds in Hs. unfold bondOf in Ha. lia. }
  pose proof (withdrawBond_exec e s amount Ha Hb) as Hx.
  rewrite (exec_with_payout receives _ _ _ _ _ _ Hx).
  split; [|split; intros ? ->; reflexivity].
  intros ->. eexists. split; [reflexivity|]. split; [|split; [|split]].
  - unfold bondOf; cbn. now rewrite lookup_insert_eq.
  - intros a Hne. unfold bondOf; cbn. now rewrite lookup_insert_ne.
  - reflexivity.
  - now apply (exec_solvent _ _ _ _ _ Hx).
Qed.

(** Every account takes ether but the contract at address 8, which has no
    [receive] function. *)
Definition unpayable8 (a : address) (v : uint256) : Result unit :=
  if a =? 8 then Revert "" else Ok tt.

Lemma withdrawBond_pays_witness :
  (exists s',
     exec_with unpayable8 (mkEnv 1 9 2000) (WithdrawBond (ether - 5)) challenged =
       Ok (s', [Sent 1 (ether - 5)]) /\
     bondOf s' 1 = bondOf challenged 1 - (ether - 5) /\
     balance s' = balance challenged - (ether - 5) /\
     solvent s').
Proof.
  destruct (withdrawBond_pays unpayable8 (mkEnv 1 9 2000) challenged (ether - 5))
    as [Hpays _]; [vm_compute; congruence..|].
  destruct (Hpays eq_refl) as (s' & Hx & Hbond & _ & Hbal & Hs).
  exists s'. auto.
Defined.

(** X5.  On a solvent ledger the owner's ruling on an unresolved challenge is
    never held up by a lack of funds, whichever way it goes. *)
Theorem resolveChallenge_funded (e : Env) (s : State) (i : uint256) (fraudulent : bool) :
  solvent s ->
  msg_sender e = owner s ->
  i < currentProofIndex s ->
  resolved (proofAt s i) = false ->
  exists s' l,
    exec e (ResolveChallenge i fraudulent) s = Ok (s', l) /\
    resolved (proofAt s' i) = true /\
    solvent s'.
Proof.
  intros Hs Ho Hi Hr.
  pose proof (openChallenges_pos s i Hi Hr) as Hopen.
  set (a := proposer (commitmentAt s (commitmentIndex (proofAt s i)))).
  pose proof (bond_le_sumBonds (bonds s) a) as Hle.
  assert (Hx : exists s' l, exec e (ResolveChallenge i fraudulent) s = Ok (s', l) /\
                 resolved (proofAt s' i) = true).
  { unfold solvent, totalBonds in Hs. destruct fraudulent.
    - do 2 eexists. split.
      + apply resolve_fraud_exec; auto. fold a. unfold bondOf. nia.
      + unfold proofAt; cbn. now rewrite lookup_insert_eq.
    - do 2 eexists. split.
      + apply resolve_honest_exec; auto. nia.
      + unfold proofAt; cbn. now rewrite lookup_insert_eq. }
  destruct Hx as (s' & l & Hx & Hres). exists s', l. split; [exact Hx|].
  split; [exact Hres|]. now apply (exec_solvent _ _ _ _ _ Hx).
Qed.

Lemma resolveChallenge_funded_witness :
  exists s' l,
    exec (mkEnv 100 9 2000) (ResolveChallenge 0 true) challenged_unbonded = Ok (s', l) /\
    resolved (proofAt s' 0) = true /\
    solvent s'.
Proof.
  apply (resolveChallenge_funded (mkEnv 100 9 2000) challenged_unbonded 0 true);
    vm_compute; congruence.
Defined.

(** *** Depositing and withdrawing *)

(** X6.  A deposit of [v] goes through whenever the bond stays within
    [uint256].  A withdrawal of [v] by the same sender right after it is
    paid if the sender takes the ether: it returns the ether, and leaves
    every bond and the contract's holdings as they were before the
    deposit.  If the sender refuses the ether the withdrawal fails as the
    sender made the transfer fail. *)
Theorem deposit_withdraw_round_trip (receives : address -> uint256 -> Result unit)
    (e e' : Env) (s : State) (v : uint256) :
  msg_sender e' = msg_sender e ->
  bondOf s (msg_sender e) + v <= MAX_UINT256 ->
  exists s1,
    exec_with receives e (DepositBond v) s = Ok (s1, []) /\
    bondOf s1 (msg_sender e) = bondOf s (msg_sender e) + v /\
    balance s1 = balance s + v /\
    (receives (msg_sender e) v = Ok tt ->
     exists s2,
       exec_with receives e' (WithdrawBond v) s1 = Ok (s2, [Sent (msg_sender e) v]) /\
       (forall a, bondOf s2 a = bondOf s a) /\
       balance s2 = balance s /\
       s2 = with_bonds (bonds s2) s) /\
    (forall reason, receives (msg_sender e) v = Revert reason ->
       exec_with receives e' (WithdrawBond v) s1 = Revert reason) /\
    (forall code, receives (msg_sender e) v = Panic code ->
       exec_with receives e' (WithdrawBond v) s1 = Panic code).
Proof.
  intros He Hv.
  assert (H1 : exec e (DepositBond v) s =
    Ok (with_bonds (<[msg_sender e := bondOf s (msg_sender e) + v]> (bonds s))
          (with_balance (balance s + v) s), [])).
  { tx_unfold. cbn.
    change (bondOf (with_balance (balance s + v) s) (msg_sender e))
      with (bondOf s (msg_sender e)).
    apply N.leb_le in Hv. rewrite Hv. reflexivity. }
  eexists. split; [unfold exec_with; rewrite H1; reflexivity|].
  split; [unfold bondOf; cbn; now rewrite lookup_insert_eq|].
  split; [reflexivity|].
  match goal with
  | |- context [exec_with receives e' (WithdrawBond v) ?t] => set (s1 := t)
  end.
  assert (Hbond : bondOf s1 (msg_sender e') = bondOf s (msg_sender e) + v).
  { rewrite He. unfold s1, bondOf. cbn. now rewrite lookup_insert_eq. }
  assert (H2 : exec e' (WithdrawBond v) s1 = _)
    by (apply withdrawBond_exec; [rewrite Hbond | unfold s1; cbn]; lia).
  rewrite (exec_with_payout receives _ _ _ _ _ _ H2), Hbond, He.
  split; [|split; intros ? ->; reflexivity].
  intros ->. eexists. split; [reflexivity|]. cbn. split; [|split].
  - intros a. unfold bondOf; cbn. rewrite lookup_insert.
    destruct (decide _) as [<-|]; cbn.
    + fold (bondOf s (msg_sender e)). lia.
    + rewrite lookup_insert_ne by assumption. reflexivity.
  - lia.
  - unfold with_bonds, with_balance; cbn. f_equal. lia.
Qed.

Lemma deposit_withdraw_round_trip_witness :
  exists s1 s2,
    exec_with unpayable8 (mkEnv 7 9 2000) (DepositBond 5) challenged = Ok (s1, []) /\
    exec_with unpayable8 (mkEnv 7 10 2001) (WithdrawBond 5) s1 = Ok (s2, [Sent 7 5]) /\
    balance s2 = balance challenged /\
    s2 = with_bonds (bonds s2) challenged.
Proof.
  destruct (deposit_withdraw_round_trip unpayable8 (mkEnv 7 9 2000) (mkEnv 7 10 2001)
              challenged 5) as (s1 & H1 & _ & _ & Hpays & _); [vm_compute; congruence..|].
  destruct (Hpays eq_refl) as (s2 & H2 & _ & Hbal & Hrest).
  exists s1, s2. auto.
Defined.

(** X7.  The two [withdrawBond] overloads: with a bond, withdrawing all is
    withdrawing the whole bond by amount, whatever the caller does with
    the ether; without one, withdrawing all is rejected, while
    withdrawing the amount 0 makes a transfer of no ether, which goes
    through and changes no balance if the caller takes it, and fails as
    the caller made the transfer fail otherwise. *)
Theorem withdrawBond_overloads (receives : address -> uint256 -> Result unit)
    (e : Env) (s : State) :
  (0 < bondOf s (msg_sender e) ->
   exec_with receives e WithdrawBondAll s =
   exec_with receives e (WithdrawBond (bondOf s (msg_sender e))) s) /\
  (bondOf s (msg_sender e) = 0 ->
   exec_with receives e WithdrawBondAll s = Revert "No bond to withdraw" /\
   (receives (msg_sender e) 0 = Ok tt ->
    exists s',
      exec_with receives e (WithdrawBond 0) s = Ok (s', [Sent (msg_sender e) 0]) /\
      balance s' = balance s /\ forall a, bondOf s' a = bondOf s a) /\
   (forall reason, receives (msg_sender e) 0 = Revert reason ->
      exec_with receives e (WithdrawBond 0) s = Revert reason) /\
   (forall code, receives (msg_sender e) 0 = Panic code ->
      exec_with receives e (WithdrawBond 0) s = Panic code)).
Proof.
  split.
  - intros Hpos. unfold exec_with.
    assert (Hx : exec e WithdrawBondAll s = exec e (WithdrawBond (bondOf s (msg_sender e))) s);
      [|now rewrite Hx].
    tx_unfold. cbn. apply N.ltb_lt in Hpos. rewrite Hpos. cbn.
    rewrite N.leb_refl. cbn. rewrite N.sub_diag.
    destruct (bondOf s (msg_sender e) <=? balance s); reflexivity.
  - intros Hz. split.
    + unfold exec_with. tx_unfold. cbn. now rewrite Hz.
    + assert (Hx : exec e (WithdrawBond 0) s = _)
        by (apply withdrawBond_exec; lia).
      rewrite (exec_with_payout receives _ _ _ _ _ _ Hx).
      split; [|split; intros ? ->; reflexivity].
      intros ->. eexists. split; [reflexivity|].
      cbn. split; [lia|]. intros a. unfold bondOf in *; cbn. rewrite lookup_insert.
      destruct (decide _) as [<-|]; cbn; [lia | reflexivity].
Qed.

Lemma withdrawBond_overloads_witness :
  exec_with unpayable8 (mkEnv 7 9 2000) WithdrawBondAll challenged
    = Revert "No bond to withdraw" /\
  (exists s',
     exec_with unpayable8 (mkEnv 7 9 2000) (WithdrawBond 0) challenged = Ok (s', [Sent 7 0])) /\
  exec_with unpayable8 (mkEnv 8 9 2000) (WithdrawBond 0) challenged = Revert "".
Proof.
  destruct (withdrawBond_overloads unpayable8 (mkEnv 7 9 2000) challenged)
    as [_ Hnone].
  destruct Hnone as (Hall & Hpays & _); [vm_compute; reflexivity|].
  destruct (Hpays eq_refl) as (s' & Hx & _).
  destruct (withdrawBond_overloads unpayable8 (mkEnv 8 9 2000) challenged)
    as [_ Hrefused].
  destruct Hrefused as (_ & _ & Hreverts & _); [vm_compute; reflexivity|].
  split; [exact Hall|]. split; [now exists s' | now apply Hreverts].
Defined.

(** *** Sweeping the ledger: [finalizeStates] *)

(** The commitments the sweep at time [block_timestamp e] finalizes: the
    unfinalized ones whose window has closed. *)
Definition eligible (e : Env) (s : State) (i : uint256) : bool :=
  negb (finalized (commitmentAt s i)) &&
  (timestamp (commitmentAt s i) + challengePeriod s <? block_timestamp e).

(** The indices [i], [i + 1], ..., [i + n - 1]. *)
Fixpoint indicesFrom (i : N) (n : nat) : list N :=
  match n with
  | O => []
  | S n' => i :: indicesFrom (i + 1) n'
  end.

Definition announce (s : State) (i : uint256) : Effect :=
  Emitted (StateFinalized i (stateRoot (commitmentAt s i))).

Definition sweep (e : Env) (s : State) (l : list N) : list Effect :=
  map (announce s) (filter (fun j => eligible e s j = true) l).

Lemma indicesFrom_spec n : forall i j, j ∈ indicesFrom i n <-> i <= j < i + N.of_nat n.
Proof.
  induction n as [|n IH]; intros i j; cbn [indicesFrom].
  - rewrite elem_of_nil. lia.
  - rewrite elem_of_cons, IH. lia.
Qed.

Lemma finalizeFrom_S e n i s :
  finalizeFrom e (S n) i s =
  if finalized (commitmentAt s i) then finalizeFrom e n (i + 1) s
  else if timestamp (commitmentAt s i) + challengePeriod s <=? MAX_UINT256 then
    if timestamp (commitmentAt s i) + challengePeriod s <? block_timestamp e then
      match finalizeFrom e n (i + 1)
              (with_stateCommitments
                 (<[i := setFinalized (commitmentAt s i)]> (stateCommitments s)) s) with
      | Ok (u, s', l) => Ok (u, s', announce s i :: l)
      | Revert r => Revert r
      | Panic k => Panic k
      end
    else finalizeFrom e n (i + 1) s
  else Panic 17.
Proof.
  cbn [finalizeFrom]. tx_unfold.
  destruct (finalized (commitmentAt s i)); cbn.
  - destruct (finalizeFrom e n (i + 1) s) as [[[u1 s1] l1]| |]; reflexivity.
  - destruct (timestamp (commitmentAt s i) + challengePeriod s <=? MAX_UINT256); cbn;
      [|reflexivity].
    destruct (timestamp (commitmentAt s i) + challengePeriod s <? block_timestamp e); cbn.
    + match goal with
      | |- context [finalizeFrom e n (i + 1) ?t] =>
          destruct (finalizeFrom e n (i + 1) t) as [[[u1 s1] l1]| |]; reflexivity
      end.
    + destruct (finalizeFrom e n (i + 1) s) as [[[u1 s1] l1]| |]; reflexivity.
Qed.

Lemma sweep_ext e s t l :
  challengePeriod t = challengePeriod s ->
  (forall j, j ∈ l -> commitmentAt t j = commitmentAt s j) ->
  sweep e t l = sweep e s l.
Proof.
  intros Hp. unfold sweep. induction l as [|j l IH]; intros Hl; [reflexivity|].
  rewrite !filter_cons.
  assert (Hj : commitmentAt t j = commitmentAt s j) by (apply Hl; left).
  assert (He : eligible e t j = eligible e s j) by (unfold eligible; now rewrite Hj, Hp).
  assert (Hrest : map (announce t) (filter (fun j => eligible e t j = true) l) =
                  map (announce s) (filter (fun j => eligible e s j = true) l)).
  { apply IH. intros k Hk. apply Hl. now right. }
  rewrite He. destruct (decide (eligible e s j = true)); cbn; rewrite Hrest; [|reflexivity].
  unfold announce. now rewrite Hj.
Qed.

(** What a loop that ran to its end did. *)
Lemma finalizeFrom_Ok e n : forall i s u s' l,
  finalizeFrom e n i s = Ok (u, s', l) ->
  l = sweep e s (indicesFrom i n) /\
  (forall j, commitmentAt s' j =
     if (i <=? j) && (j <? i + N.of_nat n) && eligible e s j
     then setFinalized (commitmentAt s j) else commitmentAt s j) /\
  (forall j, i <= j < i + N.of_nat n -> finalized (commitmentAt s j) = false ->
     timestamp (commitmentAt s j) + challengePeriod s <= MAX_UINT256).
Proof.
  induction n as [|n IH]; intros i s u s' l H.
  - cbn in H. injection H as _ <- <-. split; [reflexivity|]. split.
    + intros j. destruct (i <=? j) eqn:H1; cbn; [|reflexivity].
      destruct (j <? i + N.of_nat 0) eqn:H2; cbn; [|reflexivity].
      apply N.leb_le in H1. apply N.ltb_lt in H2. lia.
    + intros j Hj. lia.
  - rewrite finalizeFrom_S in H.
    assert (Hskip : eligible e s i = false ->
              finalized (commitmentAt s i) = true \/
              timestamp (commitmentAt s i) + challengePeriod s <= MAX_UINT256 ->
              finalizeFrom e n (i + 1) s = Ok (u, s', l) ->
              l = sweep e s (indicesFrom i (S n)) /\
              (forall j, commitmentAt s' j =
                 if (i <=? j) && (j <? i + N.of_nat (S n)) && eligible e s j
                 then setFinalized (commitmentAt s j) else commitmentAt s j) /\
              (forall j, i <= j < i + N.of_nat (S n) ->
                 finalized (commitmentAt s j) = false ->
                 timestamp (commitmentAt s j) + challengePeriod s <= MAX_UINT256)).
    { intros Hne Hov Hn. apply IH in Hn as (Hl & Hc & Ho). split; [|split].
      - cbn [indicesFrom]. unfold sweep. rewrite filter_cons.
        rewrite decide_False by congruence. exact Hl.
      - intros j. rewrite Hc. destruct (decide (j = i)) as [->|Hne'].
        + rewrite Hne. rewrite !andb_false_r.
          replace (i + 1 <=? i) with false by (symmetry; apply N.leb_gt; lia).
          reflexivity.
        + replace (i + 1 <=? j) with (i <=? j).
          2:{ destruct (i <=? j) eqn:H1; symmetry;
                [apply N.leb_le in H1; apply N.leb_le | apply N.leb_gt in H1; apply N.leb_gt];
                lia. }
          replace (i + 1 + N.of_nat n) with (i + N.of_nat (S n)) by lia. reflexivity.
      - intros j Hj Hf. destruct (decide (j = i)) as [->|Hne'].
        + destruct Hov as [Hov|Hov]; [congruence | exact Hov].
        + apply Ho; [lia | exact Hf]. }
    destruct (finalized (commitmentAt s i)) eqn:Hf.
    { apply Hskip; auto. unfold eligible. now rewrite Hf. }
    destruct (timestamp (commitmentAt s i) + challengePeriod s <=? MAX_UINT256) eqn:Hov;
      [|discriminate].
    apply N.leb_le in Hov.
    destruct (timestamp (commitmentAt s i) + challengePeriod s <? block_timestamp e) eqn:Hd.
    2:{ apply Hskip; auto. unfold eligible. now rewrite Hf, Hd. }
    set (s1 := with_stateCommitments
                 (<[i := setFinalized (commitmentAt s i)]> (stateCommitments s)) s) in *.
    destruct (finalizeFrom e n (i + 1) s1) as [[[u1 s2] l1]| |] eqn:Hn; try discriminate.
    injection H as _ <- <-. apply IH in Hn as (Hl & Hc & Ho).
    assert (Hel : eligible e s i = true) by (unfold eligible; now rewrite Hf, Hd).
    assert (Hs1 : forall j, j <> i -> commitmentAt s1 j = commitmentAt s j).
    { intros j Hj. unfold s1. rewrite commitmentAt_insert.
      destruct (decide (i = j)); [congruence | reflexivity]. }
    assert (Hs1i : commitmentAt s1 i = setFinalized (commitmentAt s i)).
    { unfold s1. rewrite commitmentAt_insert. now destruct (decide (i = i)). }
    split; [|split].
    + cbn [indicesFrom]. unfold sweep. rewrite filter_cons.
      rewrite decide_True by exact Hel. cbn [map]. f_equal.
      rewrite Hl. apply sweep_ext; [reflexivity|].
      intros j Hj. apply indicesFrom_spec in Hj. apply Hs1. lia.
    + intros j. rewrite Hc. destruct (decide (j = i)) as [->|Hne'].
      * replace (i + 1 <=? i) with false by (symmetry; apply N.leb_gt; lia).
        cbn. rewrite Hs1i, Hel, N.leb_refl.
        replace (i <? i + N.of_nat (S n)) with true by (symmetry; apply N.ltb_lt; lia).
        reflexivity.
      * replace (i + 1 <=? j) with (i <=? j).
        2:{ destruct (i <=? j) eqn:H1; symmetry;
              [apply N.leb_le in H1; apply N.leb_le | apply N.leb_gt in H1; apply N.leb_gt];
              lia. }
        replace (i + 1 + N.of_nat n) with (i + N.of_nat (S n)) by lia.
        rewrite (Hs1 j Hne').
        replace (eligible e s1 j) with (eligible e s j);
          [reflexivity | unfold eligible; now rewrite (Hs1 j Hne')].
    + intros j Hj Hfj. destruct (decide (j = i)) as [->|Hne']; [exact Hov|].
      specialize (Ho j). rewrite (Hs1 j Hne') in Ho. apply Ho; [lia | exact Hfj].
Qed.

(** The loop runs to its end unless a deadline overflows. *)
Lemma finalizeFrom_total e n : forall i s,
  (forall j, i <= j < i + N.of_nat n -> finalized (commitmentAt s j) = false ->
     timestamp (commitmentAt s j) + challengePeriod s <= MAX_UINT256) ->
  exists s' l, finalizeFrom e n i s = Ok (tt, s', l).
Proof.
  induction n as [|n IH]; intros i s Hov; [do 2 eexists; reflexivity|].
  rewrite finalizeFrom_S.
  assert (Hrest : forall j, i + 1 <= j < i + 1 + N.of_nat n ->
            finalized (commitmentAt s j) = false ->
            timestamp (commitmentAt s j) + challengePeriod s <= MAX_UINT256).
  { intros j Hj. apply Hov. lia. }
  destruct (finalized (commitmentAt s i)) eqn:Hf; [now apply IH|].
  assert (Hi : timestamp (commitmentAt s i) + challengePeriod s <= MAX_UINT256)
    by (apply Hov; [lia | exact Hf]).
  apply N.leb_le in Hi. rewrite Hi.
  destruct (timestamp (commitmentAt s i) + challengePeriod s <? block_timestamp e);
    [|now apply IH].
  match goal with
  | |- context [finalizeFrom e n (i + 1) ?t] => destruct (IH (i + 1) t) as (s' & l & ->)
  end.
  - intros j Hj. rewrite commitmentAt_insert. destruct (decide (i = j)); [lia|].
    apply Hrest. exact Hj.
  - do 2 eexists; reflexivity.
Qed.

(** X8.  [finalizeStates] at time [block_timestamp e] sets the flag of exactly
    the commitments whose window has closed, announces them in index
    order, and touches nothing else, provided no deadline of an unfinalized
    commitment overflows. *)
Theorem finalizeStates_spec (e : Env) (s : State) :
  (forall j, j < currentCommitmentIndex s -> finalized (commitmentAt s j) = false ->
     timestamp (commitmentAt s j) + challengePeriod s <= MAX_UINT256) ->
  exists s',
    exec e FinalizeStates s =
      Ok (s', sweep e s (indicesFrom 0 (N.to_nat (currentCommitmentIndex s)))) /\
    s' = with_stateCommitments (stateCommitments s') s /\
    forall j, commitmentAt s' j =
      if (j <? currentCommitmentIndex s) && eligible e s j
      then setFinalized (commitmentAt s j) else commitmentAt s j.
Proof.
  intros Hov.
  destruct (finalizeFrom_total e (N.to_nat (currentCommitmentIndex s)) 0 s)
    as (s' & l & Hn).
  { intros j Hj. apply Hov. lia. }
  pose proof (finalizeFrom_frame _ _ _ _ _ _ _ Hn) as [Hframe _].
  pose proof (finalizeFrom_Ok _ _ _ _ _ _ _ Hn) as (Hl & Hc & _).
  exists s'. split; [|split].
  - unfold exec, body, finalizeStates, mbind, Tx_bind, tx_bind, get. cbn.
    rewrite Hn. cbn. now rewrite Hl.
  - exact Hframe.
  - intros j. rewrite Hc. rewrite N2Nat.id, N.add_0_l.
    replace (0 <=? j) with true by (symmetry; apply N.leb_le; lia). reflexivity.
Qed.

Lemma finalizeStates_spec_witness :
  exists s',
    exec (mkEnv 3 9 87401) FinalizeStates challenged =
      Ok (s', sweep (mkEnv 3 9 87401) challenged
                (indicesFrom 0 (N.to_nat (currentCommitmentIndex challenged)))) /\
    s' = with_stateCommitments (stateCommitments s') challenged /\
    forall j, commitmentAt s' j =
      if (j <? currentCommitmentIndex challenged) && eligible (mkEnv 3 9 87401) challenged j
      then setFinalized (commitmentAt challenged j) else commitmentAt challenged j.
Proof.
  apply (finalizeStates_spec (mkEnv 3 9 87401) challenged).
  intros j Hj _. change (currentCommitmentIndex challenged) with 1 in Hj.
  assert (j = 0) as -> by lia. vm_compute. congruence.
Defined.

(** Nothing eligible is left behind by the loop. *)
Lemma finalizeFrom_idle e n : forall i s,
  (forall j, i <= j < i + N.of_nat n -> eligible e s j = false) ->
  (forall j, i <= j < i + N.of_nat n -> finalized (commitmentAt s j) = false ->
     timestamp (commitmentAt s j) + challengePeriod s <= MAX_UINT256) ->
  finalizeFrom e n i s = Ok (tt, s, []).
Proof.
  induction n as [|n IH]; intros i s Hne Hov; [reflexivity|].
  rewrite finalizeFrom_S.
  assert (Hrest : finalizeFrom e n (i + 1) s = Ok (tt, s, [])).
  { apply IH; intros j Hj; [apply Hne | apply Hov]; lia. }
  destruct (finalized (commitmentAt s i)) eqn:Hf; [exact Hrest|].
  assert (Hi : timestamp (commitmentAt s i) + challengePeriod s <= MAX_UINT256)
    by (apply Hov; [lia | exact Hf]).
  apply N.leb_le in Hi. rewrite Hi.
  specialize (Hne i ltac:(lia)). unfold eligible in Hne. rewrite Hf in Hne. cbn in Hne.
  rewrite Hne. exact Hrest.
Qed.

(** X9.  After a sweep, a second sweep in the same block finds nothing to do,
    and no single [finalizeState] goes through either. *)
Theorem finalizeStates_complete (e : Env) (s s' : State) (l : list Effect) :
  exec e FinalizeStates s = Ok (s', l) ->
  exec e FinalizeStates s' = Ok (s', []) /\
  forall j, succeeds e (FinalizeState j) s' = false.
Proof.
  intros Hx.
  assert (Hn : finalizeFrom e (N.to_nat (currentCommitmentIndex s)) 0 s = Ok (tt, s', l)).
  { unfold exec, body, finalizeStates, mbind, Tx_bind, tx_bind, get in Hx. cbn in Hx.
    destruct (finalizeFrom e (N.to_nat (currentCommitmentIndex s)) 0 s)
      as [[[[] s1] l1]| |]; try discriminate.
    now injection Hx as <- <-. }
  pose proof (finalizeFrom_frame _ _ _ _ _ _ _ Hn) as [Hframe _].
  pose proof (finalizeFrom_Ok _ _ _ _ _ _ _ Hn) as (_ & Hc & Hov).
  assert (Hidx : currentCommitmentIndex s' = currentCommitmentIndex s)
    by (rewrite Hframe; reflexivity).
  assert (Hper : challengePeriod s' = challengePeriod s) by (rewrite Hframe; reflexivity).
  rewrite N2Nat.id, N.add_0_l in Hc, Hov.
  assert (Hdone : forall j, j < currentCommitmentIndex s -> eligible e s' j = false).
  { intros j Hj. unfold eligible. rewrite Hc, Hper.
    replace (0 <=? j) with true by (symmetry; apply N.leb_le; lia).
    apply N.ltb_lt in Hj. rewrite Hj. cbn [andb].
    destruct (eligible e s j) eqn:Hel; [reflexivity|]. exact Hel. }
  assert (Hsafe : forall j, j < currentCommitmentIndex s ->
            finalized (commitmentAt s' j) = false ->
            timestamp (commitmentAt s' j) + challengePeriod s' <= MAX_UINT256).
  { intros j Hj Hf. rewrite Hper. rewrite Hc in Hf |- *.
    destruct ((0 <=? j) && (j <? currentCommitmentIndex s) && eligible e s j);
      [discriminate|]. apply Hov; [lia | exact Hf]. }
  split.
  - unfold exec, body, finalizeStates, mbind, Tx_bind, tx_bind, get. cbn.
    rewrite Hidx, (finalizeFrom_idle e _ 0 s'); [reflexivity| |].
    + intros j Hj. apply Hdone. lia.
    + intros j Hj. apply Hsafe. lia.
  - intros j. tx_unfold. cbn. rewrite Hidx.
    destruct (j <? currentCommitmentIndex s) eqn:Hj; cbn; [|reflexivity].
    apply N.ltb_lt in Hj.
    destruct (finalized (commitmentAt s' j)) eqn:Hf; cbn; [reflexivity|].
    pose proof (Hsafe j Hj Hf) as Hle. apply N.leb_le in Hle. rewrite Hle. cbn.
    pose proof (Hdone j Hj) as Hel. unfold eligible in Hel. rewrite Hf in Hel.
    cbn in Hel. rewrite Hel. reflexivity.
Qed.

Lemma finalizeStates_complete_witness :
  exists s' l,
    exec (mkEnv 3 9 87401) FinalizeStates challenged = Ok (s', l) /\
    finalized (commitmentAt s' 0) = true /\
    exec (mkEnv 3 9 87401) FinalizeStates s' = Ok (s', []) /\
    forall j, succeeds (mkEnv 3 9 87401) (FinalizeState j) s' = false.
Proof.
  destruct (exec (mkEnv 3 9 87401) FinalizeStates challenged) as [[s' l]| |] eqn:Hx;
    [|vm_compute in Hx; discriminate ..].
  exists s', l. split; [reflexivity|]. split.
  - vm_compute in Hx. injection Hx as <- _. vm_compute. reflexivity.
  - apply (finalizeStates_complete (mkEnv 3 9 87401) challenged s' l Hx).
Defined.

(** *** Who may change what *)

Lemma exec_by_other e c s s' l :
  exec e c s = Ok (s', l) ->
  bondAmount s' = bondAmount s /\
  (msg_sender e <> owner s ->
   owner s' = owner s /\ sequencer s' = sequencer s /\
   challengePeriod s' = challengePeriod s /\
   forall i, resolved (proofAt s' i) = true -> resolved (proofAt s i) = true).
Proof.
  intros H. destruct c.
  4:{ apply exec_finalizeStates in H as [Hs _]. rewrite Hs. cbn. auto. }
  all: tx_unfold; tx_cases H; injection H as <- _; cbn; (split; [reflexivity|]).
  all: intros Hne; try (repeat split; auto; fail).
  all: try (exfalso; match goal with
            | Ho : (msg_sender _ =? owner _) = true |- _ => apply N.eqb_eq in Ho
            end; congruence).
  repeat split. intros i. unfold proofAt; cbn. rewrite lookup_insert.
  destruct (decide _); cbn; [discriminate | auto].
Qed.

(** X10.  Calls sent by anybody but the owner leave the owner, the sequencer and
    the challenge period as they are and resolve no challenge; no call at
    all changes [bondAmount]. *)
Theorem only_owner_rules (s : State) (calls : list (Env * Call)) :
  bondAmount (run s calls) = bondAmount s /\
  (Forall (fun ec => msg_sender (fst ec) <> owner s) calls ->
   owner (run s calls) = owner s /\
   sequencer (run s calls) = sequencer s /\
   challengePeriod (run s calls) = challengePeriod s /\
   forall i, resolved (proofAt (run s calls) i) = true -> resolved (proofAt s i) = true).
Proof.
  revert s. induction calls as [|[e c] calls IH]; intros s; [cbn; auto|].
  change (run s ((e, c) :: calls)) with (run (step s (e, c)) calls).
  destruct (IH (step s (e, c))) as [Hb Hrest].
  assert (Hstep : bondAmount (step s (e, c)) = bondAmount s /\
            (msg_sender e <> owner s ->
             owner (step s (e, c)) = owner s /\ sequencer (step s (e, c)) = sequencer s /\
             challengePeriod (step s (e, c)) = challengePeriod s /\
             forall i, resolved (proofAt (step s (e, c)) i) = true ->
                       resolved (proofAt s i) = true)).
  { unfold step; cbn [fst snd]. destruct (exec e c s) as [[s' l]| |] eqn:Hx; auto.
    eapply exec_by_other; eauto. }
  destruct Hstep as [Hb1 Hstep]. split; [congruence|].
  intros Hall. inversion Hall as [|? ? He Hcalls]; subst. cbn [fst] in He.
  destruct (Hstep He) as (Ho & Hq & Hp & Hr).
  destruct Hrest as (Ho' & Hq' & Hp' & Hr'); [now rewrite Ho|].
  repeat split; try congruence. auto.
Qed.

Lemma only_owner_rules_witness :
  let calls := [ (mkEnv 1 9 2000, SetSequencer 9);
                 (mkEnv 2 9 2001, ResolveChallenge 0 true);
                 (mkEnv 3 9 2002, TransferOwnership 3);
                 (mkEnv 3 9 2003, SetChallengePeriod 0) ] in
  owner (run challenged calls) = owner challenged /\
  sequencer (run challenged calls) = sequencer challenged /\
  challengePeriod (run challenged calls) = challengePeriod challenged /\
  forall i, resolved (proofAt (run challenged calls) i) = true ->
            resolved (proofAt challenged i) = true.
Proof.
  intros calls. apply (only_owner_rules challenged calls).
  repeat constructor; vm_compute; congruence.
Defined.

(** *** Ether in, ether out *)

Definition msg_value_of (c : Call) : uint256 :=
  match c with
  | ChallengeState v _ _ _ _ | DepositBond v => v
  | _ => 0
  end.

Fixpoint sent (l : list Effect) : N :=
  match l with
  | [] => 0
  | Sent _ v :: l' => v + sent l'
  | Emitted _ :: l' => sent l'
  end.

Lemma sent_sweep e s l : sent (sweep e s l) = 0.
Proof.
  unfold sweep. induction l as [|j l IH]; [reflexivity|].
  rewrite filter_cons. destruct (decide _); cbn; exact IH.
Qed.

(** X11.  A call that goes through changes the contract's holdings by the ether
    that came with it less the ether it sent out; an aborted one by
    nothing. *)
Theorem ether_accounting (e : Env) (c : Call) (s : State) :
  match exec e c s with
  | Ok (s', l) => balance s' + sent l = balance s + msg_value_of c
  | _ => balance (step s (e, c)) = balance s
  end.
Proof.
  destruct (exec e c s) as [[s' l]| |] eqn:H.
  2,3: unfold step; cbn [fst snd]; now rewrite H.
  destruct c.
  4:{ unfold exec, body, finalizeStates, mbind, Tx_bind, tx_bind, get in H. cbn in H.
      destruct (finalizeFrom e (N.to_nat (currentCommitmentIndex s)) 0 s)
        as [[[u1 s1] l1]| |] eqn:Hn; try discriminate.
      injection H as <- <-.
      pose proof (finalizeFrom_frame _ _ _ _ _ _ _ Hn) as [Hframe _].
      pose proof (finalizeFrom_Ok _ _ _ _ _ _ _ Hn) as (-> & _).
      rewrite sent_sweep, Hframe. cbn. lia. }
  all: tx_unfold; tx_cases H; injection H as <- <-; cbn.
  all: repeat match goal with
       | H : (_ <=? _) = true |- _ => apply N.leb_le in H
       | H : (_ <? _) = true |- _ => apply N.ltb_lt in H
       | H : (_ <? _) = false |- _ => apply N.ltb_ge in H
       end.
  all: lia.
Qed.

End Rollup.


(** ** The settlement router *)

Module Settlement.

Set Warnings "-inexact-float".

Local Open Scope Z_scope.

(** *** JavaScript numbers and bigints *)

(** [Number(z)] for a bigint [z]: the nearest binary64 value, ties to
    even, infinite from 2^1024 - 2^970 on. *)
Definition Number (z : Z) : float :=
  SF2Prim (binary_normalize prec emax z 0 false).

(** [Math.min] and [Math.max] on two arguments: NaN if either is NaN, and
    -0 below +0. *)
Definition Math_min (a b : float) : float :=
  if is_nan a || is_nan b then nan
  else if (a <? b)%float then a
  else if (b <? a)%float then b
  else if get_sign a then a else b.

Definition Math_max (a b : float) : float :=
  if is_nan a || is_nan b then nan
  else if (a <? b)%float then b
  else if (b <? a)%float then a
  else if get_sign a then b else a.

(** The outcome of awaiting a promise: its value, or the error thrown. *)
Inductive Outcome (E A : Type) : Type :=
| Resolved (a : A)
| Rejected (error : E).
Arguments Resolved {E A} a.
Arguments Rejected {E A} error.

(** *** [IChainAdapter.ts] *)

Inductive ChainId := ETHEREUM | BSC | POLYGON | ARBITRUM | OPTIMISM | BASE.

Definition ChainId_value (c : ChainId) : Z :=
  match c with
  | ETHEREUM => 1
  | BSC => 56
  | POLYGON => 137
  | ARBITRUM => 42161
  | OPTIMISM => 10
  | BASE => 8453
  end.

#[export] Instance ChainId_eq_dec : EqDecision ChainId.
Proof. solve_decision. Defined.

Record ChainConfig := mkChainConfig {
  config_chainId : ChainId;
  name : string;
  rpcUrl : string;
  config_settlementContract : string;
  config_bridgeContract : string;
  gasLimit : float;
  requiredConfirmations : float
}.

Record BatchSubmission := mkBatchSubmission {
  batchIndex : float;
  batchRoot : string;
  transactions : list string;
  stateRoot : string;
  timestamp : float
}.

Record SettlementResult := mkSettlementResult {
  success : bool;
  txHash : string;
  blockNumber : float;
  gasUsed : Z;
  cost : Z;
  result_finalizationTime : float
}.

Record ChainMetrics := mkChainMetrics {
  gasPrice : Z;
  blockTime : float;
  finalizationTime : float;
  chainLoad : float;
  lastUpdated : float
}.

(** Errors are kept apart by constructor rather than by message text:
    - [Thrown m]: an error raised inside an adapter, with its message;
    - [NoAdapterFound c]: "No adapter found for chain c";
    - [NotConnected n]: "n is not connected" / "n adapter not connected";
    - [SubmitFailed k last]: "Failed to submit batch after k attempts: last";
    - [NoAvailableChains]: "No available chains for settlement";
    - [AllChainsFailed]: "All chains failed to settle batch". *)
Inductive Error :=
| Thrown (message : string)
| NoAdapterFound (c : ChainId)
| NotConnected (adapterName : string)
| SubmitFailed (attempts : nat) (last : Error)
| NoAvailableChains
| AllChainsFailed.

Abbreviation Promise := (Outcome Error).

(** The [ChainAdapter] interface, as far as the router uses it.  An
    adapter is an external party: what it answers is given, not computed.
    [submitBatch k batch] is its answer to the call made after [k] earlier
    [submitBatch] calls on it. *)
Record ChainAdapter := mkChainAdapter {
  chainId : ChainId;
  config : ChainConfig;
  isConnected : bool;
  estimateGasCost : BatchSubmission -> Promise Z;
  getMetrics : Promise ChainMetrics;
  getFinalizationTime : Promise float;
  submitBatch : nat -> BatchSubmission -> Promise SettlementResult
}.

(** *** A JavaScript [Map] keyed by chain id: entries in insertion order,
    [set] on a present key replaces the value in place. *)
Abbreviation JsMap V := (list (ChainId * V)).

Fixpoint Map_set {V} (k : ChainId) (v : V) (m : JsMap V) : JsMap V :=
  match m with
  | [] => [(k, v)]
  | (k', v') :: rest =>
      if decide (k = k') then (k, v) :: rest else (k', v') :: Map_set k v rest
  end.

Fixpoint Map_get {V} (k : ChainId) (m : JsMap V) : option V :=
  match m with
  | [] => None
  | (k', v') :: rest => if decide (k = k') then Some v' else Map_get k rest
  end.

(** *** [Array.prototype.sort] with a comparator

    The sort of the engine the sequencer runs on (V8), for an array of
    fewer than 64 elements, written step by step as the engine does it:
    [CountAndMakeRun] takes the longest run the array begins with, either
    non-descending, or strictly descending and then reversed, and
    [BinaryInsertionSort] inserts the elements after the run one at a
    time from the left, each at the point a binary search of the sorted
    part finds.  A comparator result that is NaN counts as 0.  From 64
    elements on the engine merges such runs; for a consistent comparator
    that gives the same array, since every stable sort does.  The
    registry of the router holds at most one adapter for each of the six
    chain ids. *)
Section Sort.
Context {A : Type} (compareFn : A -> A -> float).

(** [order < 0] for [order = sortState.Compare(x, y)]: the comparator
    puts [x] before [y]. *)
Definition sortsBefore (x y : A) : bool := (compareFn x y <? 0)%float.

(** The loop of [CountAndMakeRun]: the elements that continue the run
    after [previousElement], and the elements after the run. *)
Fixpoint runFrom (isDescending : bool) (previousElement : A) (rest : list A)
  : list A * list A :=
  match rest with
  | [] => ([], [])
  | currentElement :: rest' =>
      if Bool.eqb (sortsBefore currentElement previousElement) isDescending then
        let '(run, others) := runFrom isDescending currentElement rest' in
        (currentElement :: run, others)
      else ([], rest)
  end.

(** The run the array begins with, made ascending, and the elements
    after it. *)
Definition CountAndMakeRun (workArray : list A) : list A * list A :=
  match workArray with
  | elementHigh :: elementLow :: rest =>
      let isDescending := sortsBefore elementLow elementHigh in
      let '(run, others) := runFrom isDescending elementLow rest in
      let whole := elementHigh :: elementLow :: run in
      (if isDescending then rev whole else whole, others)
  | _ => (workArray, [])
  end.

(** The binary search of [BinaryInsertionSort]; it halves [right - left]
    at each turn, so [fuel = right - left] turns are enough. *)
Fixpoint findInsertionPoint (fuel : nat) (pivot : A) (workArray : list A)
    (left right : nat) : nat :=
  match fuel with
  | O => left
  | S fuel' =>
      if (left <? right)%nat then
        let mid := (left + (right - left) / 2)%nat in
        match workArray !! mid with
        | Some midElement =>
            if sortsBefore pivot midElement
            then findInsertionPoint fuel' pivot workArray left mid
            else findInsertionPoint fuel' pivot workArray (mid + 1) right
        | None => left
        end
      else left
  end.

Definition insertPivot (sorted : list A) (pivot : A) : list A :=
  let left := findInsertionPoint (length sorted) pivot sorted 0 (length sorted) in
  take left sorted ++ pivot :: drop left sorted.

Definition BinaryInsertionSort (run others : list A) : list A :=
  fold_left insertPivot others run.

Definition Array_sort (l : list A) : list A :=
  let '(run, others) := CountAndMakeRun l in BinaryInsertionSort run others.
End Sort.

(** *** [SettlementRouter.ts] *)

Record RoutingStrategy := mkRoutingStrategy {
  strategy_name : string;
  selectChain : BatchSubmission -> JsMap ChainAdapter -> Promise ChainId
}.

Record SettlementDecision := mkSettlementDecision {
  decision_chainId : ChainId;
  chainName : string;
  estimatedCost : Z;
  estimatedTime : float;
  score : float;
  reason : string
}.

(** [totalBatches] counts calls; as a JavaScript number it is exact below
    2^53, and it is kept here as the integer it stands for. *)
Record SettlementStats := mkSettlementStats {
  totalBatches : Z;
  chainUsage : JsMap Z;
  totalCost : Z;
  averageCost : Z;
  averageTime : float
}.

(** The router object, with the history of [submitBatch] calls it has made
    on its adapters (oldest first). *)
Record SettlementRouter := mkSettlementRouter {
  adapters : JsMap ChainAdapter;
  strategy : RoutingStrategy;
  stats : SettlementStats;
  submitLog : list ChainId
}.

Definition with_adapters (m : JsMap ChainAdapter) (r : SettlementRouter) :=
  mkSettlementRouter m (strategy r) (stats r) (submitLog r).
Definition with_stats (st : SettlementStats) (r : SettlementRouter) :=
  mkSettlementRouter (adapters r) (strategy r) st (submitLog r).
Definition with_submitLog (l : list ChainId) (r : SettlementRouter) :=
  mkSettlementRouter (adapters r) (strategy r) (stats r) l.

Definition new_SettlementRouter (strategy : RoutingStrategy) : SettlementRouter :=
  mkSettlementRouter [] strategy (mkSettlementStats 0 [] 0 0 0%float) [].

Definition registerAdapter (adapter : ChainAdapter) (r : SettlementRouter)
  : SettlementRouter :=
  let st := stats r in
  with_stats
    (mkSettlementStats (totalBatches st) (Map_set (chainId adapter) 0 (chainUsage st))
       (totalCost st) (averageCost st) (averageTime st))
    (with_adapters (Map_set (chainId adapter) adapter (adapters r)) r).

Definition maxCost : Z := 10 ^ 18.
Definition maxTime : float := 300%float.

Definition normalizeCostScore (cost : Z) : float :=
  let normalized := (100 - Number (Z.quot (cost * 100) maxCost))%float in
  Math_max 0 (Math_min 100 normalized).

Definition normalizeTimeScore (time : float) : float :=
  let normalized := (100 - (time / maxTime * 100))%float in
  Math_max 0 (Math_min 100 normalized).

Definition join (sep : string) (l : list string) : string := String.concat sep l.

Definition generateReason (costScore timeScore loadScore : float) : string :=
  let factors :=
    (if (70 <? costScore)%float then ["low cost"%string] else []) ++
    (if (70 <? timeScore)%float then ["fast finality"%string] else []) ++
    (if (70 <? loadScore)%float then ["low congestion"%string] else []) in
  match join ", " factors with
  | EmptyString => "balanced"%string
  | joined => joined
  end.

(** One turn of the loop of [analyzeBatch]: the decision pushed for this
    entry, if any. *)
Definition analyzeEntry (batch : BatchSubmission) (entry : ChainId * ChainAdapter)
  : option SettlementDecision :=
  let '(chainId, adapter) := entry in
  if negb (isConnected adapter) then None
  else
    match estimateGasCost adapter batch, getMetrics adapter with
    | Resolved cost, Resolved metrics =>
        let costScore := normalizeCostScore cost in
        let timeScore := normalizeTimeScore (finalizationTime metrics) in
        let loadScore := (100 - chainLoad metrics)%float in
        let score := ((costScore * 0.5) + (timeScore * 0.3) + (loadScore * 0.2))%float in
        Some (mkSettlementDecision chainId (name (config adapter)) cost
                (finalizationTime metrics) score
                (generateReason costScore timeScore loadScore))
    | _, _ => None
    end.

Fixpoint analyzeLoop (batch : BatchSubmission) (entries : JsMap ChainAdapter)
    (decisions : list SettlementDecision) : list SettlementDecision :=
  match entries with
  | [] => decisions
  | entry :: rest =>
      match analyzeEntry batch entry with
      | Some d => analyzeLoop batch rest (decisions ++ [d])
      | None => analyzeLoop batch rest decisions
      end
  end.

Definition byScoreDescending (a b : SettlementDecision) : float :=
  (score b - score a)%float.

Definition analyzeBatch (r : SettlementRouter) (batch : BatchSubmission)
  : list SettlementDecision :=
  Array_sort byScoreDescending (analyzeLoop batch (adapters r) []).

(** Router methods that call out and update the router: the outcome and
    the router afterwards.  A throw does not undo what was done before. *)
Definition Async (A : Type) : Type := SettlementRouter -> Promise A * SettlementRouter.

Definition updateStats (chainId : ChainId) (result : SettlementResult)
    (st : SettlementStats) : SettlementStats :=
  let total := totalBatches st + 1 in
  let currentCount := default 0 (Map_get chainId (chainUsage st)) in
  let usage := Map_set chainId (currentCount + 1) (chainUsage st) in
  let totalCost' := totalCost st + cost result in
  mkSettlementStats total usage totalCost' (Z.quot totalCost' total)
    ((averageTime st * Number (total - 1) + result_finalizationTime result)
       / Number total)%float.

(** The retry loop of [submitToChain] with [fuel] attempts still to make.
    [lastError] starts out as [null], written [Thrown ""]; the loop makes
    at least one attempt, so that value is never reported. *)
Fixpoint submitAttempts (adapter : ChainAdapter) (chain : ChainId)
    (batch : BatchSubmission) (maxRetries : nat) (fuel : nat)
    (lastError : Error) : Async SettlementResult := fun r =>
  match fuel with
  | O => (Rejected (SubmitFailed (S maxRetries) lastError), r)
  | S fuel' =>
      let earlier := count_occ ChainId_eq_dec (submitLog r) chain in
      let r1 := with_submitLog (submitLog r ++ [chain]) r in
      match submitBatch adapter earlier batch with
      | Resolved result => (Resolved result, with_stats (updateStats chain result (stats r1)) r1)
      | Rejected error =>
          submitAttempts adapter chain batch maxRetries fuel' error r1
      end
  end.

Definition submitToChain (batch : BatchSubmission) (chain : ChainId)
    (maxRetries : nat) : Async SettlementResult := fun r =>
  match Map_get chain (adapters r) with
  | None => (Rejected (NoAdapterFound chain), r)
  | Some adapter =>
      if negb (isConnected adapter)
      then (Rejected (NotConnected (name (config adapter))), r)
      else submitAttempts adapter chain batch maxRetries (S maxRetries)
             (Thrown "") r
  end.

Definition Router_submitBatch (batch : BatchSubmission) (maxRetries : nat)
  : Async SettlementResult := fun r =>
  match selectChain (strategy r) batch (adapters r) with
  | Rejected error => (Rejected error, r)
  | Resolved selectedChainId => submitToChain batch selectedChainId maxRetries r
  end.

(** The loop of [submitBatchWithFailover] over the ranked decisions. *)
Fixpoint failoverLoop (batch : BatchSubmission) (decisions : list SettlementDecision)
  : Async SettlementResult := fun r =>
  match decisions with
  | [] => (Rejected AllChainsFailed, r)
  | decision :: rest =>
      match submitToChain batch (decision_chainId decision) 0 r with
      | (Resolved result, r') => (Resolved result, r')
      | (Rejected _, r') => failoverLoop batch rest r'
      end
  end.

Definition submitBatchWithFailover (batch : BatchSubmission)
  : Async SettlementResult := fun r =>
  let decisions := analyzeBatch r batch in
  match decisions with
  | [] => (Rejected NoAvailableChains, r)
  | _ => failoverLoop batch decisions r
  end.

(** *** The routing strategies *)

Definition MAX_SAFE_INTEGER : Z := 2 ^ 53 - 1.

(** [!chain] for a variable of type [ChainId | null]. *)
Definition falsy (chain : option ChainId) : bool :=
  match chain with
  | None => true
  | Some c => ChainId_value c =? 0
  end.

Definition orThrowNoChains (chain : option ChainId) : Promise ChainId :=
  match chain with
  | Some c => if falsy chain then Rejected NoAvailableChains else Resolved c
  | None => Rejected NoAvailableChains
  end.

Fixpoint cheapestLoop (batch : BatchSubmission) (entries : JsMap ChainAdapter)
    (cheapestChain : option ChainId) (lowestCost : Z) : option ChainId :=
  match entries with
  | [] => cheapestChain
  | (chainId, adapter) :: rest =>
      if negb (isConnected adapter) then cheapestLoop batch rest cheapestChain lowestCost
      else
        match estimateGasCost adapter batch with
        | Resolved cost =>
            if cost <? lowestCost
            then cheapestLoop batch rest (Some chainId) cost
            else cheapestLoop batch rest cheapestChain lowestCost
        | Rejected _ => cheapestLoop batch rest cheapestChain lowestCost
        end
  end.

Definition CostOptimizedStrategy : RoutingStrategy :=
  mkRoutingStrategy "cost-optimized" (fun batch adapters =>
    orThrowNoChains (cheapestLoop batch adapters None MAX_SAFE_INTEGER)).

Fixpoint fastestLoop (entries : JsMap ChainAdapter)
    (fastestChain : option ChainId) (shortestTime : float) : option ChainId :=
  match entries with
  | [] => fastestChain
  | (chainId, adapter) :: rest =>
      if negb (isConnected adapter) then fastestLoop rest fastestChain shortestTime
      else
        match getFinalizationTime adapter with
        | Resolved time =>
            if (time <? shortestTime)%float
            then fastestLoop rest (Some chainId) time
            else fastestLoop rest fastestChain shortestTime
        | Rejected _ => fastestLoop rest fastestChain shortestTime
        end
  end.

Definition SpeedOptimizedStrategy : RoutingStrategy :=
  mkRoutingStrategy "speed-optimized" (fun batch adapters =>
    orThrowNoChains (fastestLoop adapters None (Number MAX_SAFE_INTEGER))).

(** The score [BalancedStrategy] gives a chain. *)
Definition balancedScore (cost : Z) (metrics : ChainMetrics) : float :=
  let costScore := normalizeCostScore cost in
  let timeScore := normalizeTimeScore (finalizationTime metrics) in
  let loadScore := (100 - chainLoad metrics)%float in
  ((costScore * 0.4) + (timeScore * 0.4) + (loadScore * 0.2))%float.

Fixpoint bestLoop (batch : BatchSubmission) (entries : JsMap ChainAdapter)
    (bestChain : option ChainId) (bestScore : float) : option ChainId :=
  match entries with
  | [] => bestChain
  | (chainId, adapter) :: rest =>
      if negb (isConnected adapter) then bestLoop batch rest bestChain bestScore
      else
        match estimateGasCost adapter batch, getMetrics adapter with
        | Resolved cost, Resolved metrics =>
            let score := balancedScore cost metrics in
            if (bestScore <? score)%float
            then bestLoop batch rest (Some chainId) score
            else bestLoop batch rest bestChain bestScore
        | _, _ => bestLoop batch rest bestChain bestScore
        end
  end.

Definition BalancedStrategy : RoutingStrategy :=
  mkRoutingStrategy "balanced" (fun batch adapters =>
    orThrowNoChains (bestLoop batch adapters None (-1)%float)).

(** *** [EthereumAdapter.ts]: estimating the cost of a batch *)

(** What the adapter holds of the outside world: the JSON-RPC provider,
    the contract handle, and the ABI encoder of the [ethers] library, each
    by the answers it gives. *)
Record Provider := mkProvider {
  getFeeData : Promise (option Z)
}.

Record Contract := mkContract {
  submitBatch_estimateGas : float -> string -> string -> Promise Z
}.

Record EthereumAdapter := mkEthereumAdapter {
  adapter_config : ChainConfig;
  connected : bool;
  provider : option Provider;
  settlementContract : option Contract;
  encode : BatchSubmission -> Promise string
}.

Definition notConnected (a : EthereumAdapter) : Error :=
  NotConnected (name (adapter_config a)).

Definition getCurrentGasPrice (a : EthereumAdapter) : Promise Z :=
  match provider a with
  | None => Rejected (notConnected a)
  | Some p =>
      match getFeeData p with
      | Resolved feeData =>
          Resolved (match feeData with
                    | Some gasPrice => if gasPrice =? 0 then 0 else gasPrice
                    | None => 0
                    end)
      | Rejected error => Rejected error
      end
  end.

(** The [try] block of [estimateGasCost]. *)
Definition estimateGasCost_try (a : EthereumAdapter) (c : Contract)
    (batch : BatchSubmission) : Promise Z :=
  match encode a batch with
  | Rejected error => Rejected error
  | Resolved batchData =>
      match submitBatch_estimateGas c (batchIndex batch) (batchRoot batch) batchData with
      | Rejected error => Rejected error
      | Resolved gasEstimate =>
          match getCurrentGasPrice a with
          | Rejected error => Rejected error
          | Resolved gasPrice => Resolved (gasEstimate * gasPrice)
          end
      end
  end.

Definition pessimisticCost : Z := 10 ^ 18.

Definition EthereumAdapter_estimateGasCost (a : EthereumAdapter)
    (batch : BatchSubmission) : Promise Z :=
  match settlementContract a with
  | None => Rejected (notConnected a)
  | Some c =>
      match estimateGasCost_try a c batch with
      | Resolved cost => Resolved cost
      | Rejected _ => Resolved pessimisticCost
      end
  end.

(** *** Signs of binary64 differences

    The comparator of [analyzeBatch] tests the sign of a difference of
    scores.  This part shows, from the specification of binary64
    subtraction, that [b - a] is positive exactly when [a < b]. *)

Definition sf_positive (z : spec_float) : bool := SFltb (S754_zero false) z.

Lemma digits2_pos_bounds (m : positive) :
  2 ^ (Zpos (digits2_pos m) - 1) <= Zpos m < 2 ^ Zpos (digits2_pos m).
Proof.
  induction m as [m IH|m IH|]; cbn [digits2_pos]; [| |cbn; lia].
  all: rewrite Pos2Z.inj_succ;
    replace (Z.succ (Zpos (digits2_pos m)) - 1) with (Z.succ (Zpos (digits2_pos m) - 1)) by lia;
    rewrite !Z.pow_succ_r by lia; lia.
Qed.

Lemma shr_1_m mrs : 0 <= shr_m mrs -> shr_m (shr_1 mrs) = shr_m mrs / 2.
Proof.
  destruct mrs as [m r s]. cbn [shr_m]. intros H.
  destruct m as [|p|p]; [reflexivity | | lia].
  destruct p as [p|p|]; cbn [shr_1 shr_m].
  - apply (Z.div_unique (Zpos p~1) 2 (Zpos p) 1); lia.
  - apply (Z.div_unique (Zpos p~0) 2 (Zpos p) 0); lia.
  - reflexivity.
Qed.

Lemma shr_1_nonneg mrs : 0 <= shr_m mrs -> 0 <= shr_m (shr_1 mrs).
Proof.
  intros H. rewrite shr_1_m by assumption. apply Z.div_pos; lia.
Qed.

Lemma pow2_double n : 2 ^ Zpos n~0 = 2 ^ Zpos n * 2 ^ Zpos n.
Proof.
  rewrite Pos2Z.inj_xO, <- Z.pow_add_r by lia. f_equal. lia.
Qed.

Lemma pow2_double_succ n : 2 ^ Zpos n~1 = 2 * (2 ^ Zpos n * 2 ^ Zpos n).
Proof.
  rewrite Pos2Z.inj_xI. replace (2 * Zpos n + 1) with (1 + Zpos n + Zpos n) by lia.
  rewrite !Z.pow_add_r by lia. rewrite Z.pow_1_r. ring.
Qed.

Lemma iter_shr_1_m n : forall mrs,
  0 <= shr_m mrs ->
  shr_m (SpecFloat.iter_pos shr_1 n mrs) = shr_m mrs / 2 ^ Zpos n /\
  0 <= shr_m (SpecFloat.iter_pos shr_1 n mrs).
Proof.
  assert (Hpow : forall k, 0 < 2 ^ Zpos k) by (intros; apply Z.pow_pos_nonneg; lia).
  induction n as [n IH|n IH|]; intros mrs H; cbn [SpecFloat.iter_pos].
  - pose proof (shr_1_m mrs H) as E1. pose proof (shr_1_nonneg mrs H) as N1.
    destruct (IH _ N1) as [E2 N2]. destruct (IH _ N2) as [E3 N3].
    split; [|exact N3]. rewrite E3, E2, E1.
    pose proof (Hpow n) as Hp.
    rewrite (Z.div_div _ 2) by lia.
    rewrite Z.div_div by lia.
    f_equal. rewrite pow2_double_succ. ring.
  - destruct (IH _ H) as [E2 N2]. destruct (IH _ N2) as [E3 N3].
    split; [|exact N3]. rewrite E3, E2.
    pose proof (Hpow n) as Hp.
    rewrite Z.div_div by lia.
    f_equal. now rewrite pow2_double.
  - split; [|now apply shr_1_nonneg]. rewrite shr_1_m by assumption.
    now rewrite Z.pow_1_r.
Qed.

(** The least exponent of binary64. *)
Definition emin64 : Z := -1074.

Lemma fexp_ge_emin e : emin64 <= fexp prec emax e.
Proof. unfold fexp, SpecFloat.emin, emin64, prec, emax. lia. Qed.

(** Shifting a positive mantissa to its format exponent, from an exponent
    that is not below the least one, leaves it positive. *)
Lemma shr_fexp_positive p e l :
  emin64 <= e ->
  let '(mrs, e') := shr_fexp prec emax (Zpos p) e l in
  0 < shr_m mrs /\ emin64 <= e'.
Proof.
  intros He. unfold shr_fexp, shr. cbn [Zdigits2].
  pose proof (digits2_pos_bounds p) as Hd.
  set (d := Zpos (digits2_pos p)) in *.
  assert (Hm : shr_m (shr_record_of_loc (Zpos p) l) = Zpos p)
    by (destruct l as [|[]]; reflexivity).
  destruct (fexp prec emax (d + e) - e) as [|n|n] eqn:Hn.
  - rewrite Hm. lia.
  - assert (Hn' : Zpos n = d - 53).
    { unfold fexp, SpecFloat.emin, prec, emax in Hn. unfold emin64 in He. lia. }
    destruct (iter_shr_1_m n (shr_record_of_loc (Zpos p) l)) as [E _];
      [rewrite Hm; lia|].
    rewrite E, Hm, Hn'. split; [|lia].
    apply Z.div_str_pos. split; [apply Z.pow_pos_nonneg; lia|].
    etransitivity; [|apply Hd]. apply Z.pow_le_mono_r; lia.
  - rewrite Hm. lia.
Qed.

Lemma round_nearest_even_ge m l : m <= round_nearest_even m l.
Proof.
  destruct l as [|[]]; cbn; try lia. destruct (Z.even m); lia.
Qed.

Lemma round_aux_positive p e l :
  emin64 <= e ->
  sf_positive (binary_round_aux prec emax false (Zpos p) e l) = true.
Proof.
  intros He. unfold binary_round_aux.
  pose proof (shr_fexp_positive p e l He) as H1.
  destruct (shr_fexp prec emax (Zpos p) e l) as [mrs' e']. destruct H1 as [Hm' He'].
  pose proof (round_nearest_even_ge (shr_m mrs') (loc_of_shr_record mrs')) as Hr.
  destruct (round_nearest_even (shr_m mrs') (loc_of_shr_record mrs')) as [|p2|p2];
    try lia.
  pose proof (shr_fexp_positive p2 e' loc_Exact He') as H2.
  destruct (shr_fexp prec emax (Zpos p2) e' loc_Exact) as [mrs'' e''].
  destruct H2 as [Hm'' _].
  destruct (shr_m mrs'') as [|p3|p3]; try lia.
  destruct (e'' <=? emax - prec); reflexivity.
Qed.

Lemma normalize_positive m e :
  0 < m -> emin64 <= e ->
  sf_positive (binary_normalize prec emax m e false) = true.
Proof.
  intros Hm He. destruct m as [|p|p]; try lia.
  unfold binary_normalize, binary_round, shl_align.
  destruct (fexp prec emax (Zpos (digits2_pos p) + e) - e) eqn:Hs;
    apply round_aux_positive; try assumption.
  apply fexp_ge_emin.
Qed.

Lemma pos_iter_xO m d : Zpos (Pos.iter xO m d) = Zpos m * 2 ^ Zpos d.
Proof.
  induction d as [|d IH] using Pos.peano_ind.
  - cbn. lia.
  - rewrite Pos.iter_succ, Pos2Z.inj_xO, IH, Pos2Z.inj_succ, Z.pow_succ_r by lia. ring.
Qed.

Lemma shl_align_value m e ez :
  ez <= e -> Zpos (fst (shl_align m e ez)) = Zpos m * 2 ^ (e - ez).
Proof.
  intros H. unfold shl_align. destruct (ez - e) as [|d|d] eqn:Hd; cbn [fst]; try lia.
  - replace (e - ez) with 0 by lia. lia.
  - rewrite pos_iter_xO. f_equal. f_equal. lia.
Qed.

Lemma valid_finite s m e :
  valid_binary (S754_finite s m e) = true ->
  emin64 <= e /\ Zpos (digits2_pos m) <= 53 /\
  (emin64 < e -> Zpos (digits2_pos m) = 53).
Proof.
  cbn. unfold bounded, canonical_mantissa, fexp, SpecFloat.emin, prec, emax, emin64.
  intros H. apply andb_prop in H as [H _]. apply Z.eqb_eq in H. lia.
Qed.

(** Of two valid finite numbers of the same sign, the one with the larger
    exponent has the larger aligned mantissa. *)
Lemma aligned_lt m1 e1 m2 e2 s1 s2 :
  valid_binary (S754_finite s1 m1 e1) = true ->
  valid_binary (S754_finite s2 m2 e2) = true ->
  e1 < e2 ->
  Zpos (fst (shl_align m1 e1 (Z.min e1 e2))) < Zpos (fst (shl_align m2 e2 (Z.min e1 e2))).
Proof.
  intros V1 V2 Hlt.
  apply valid_finite in V1 as (He1 & Hd1 & _). apply valid_finite in V2 as (_ & _ & Hd2).
  rewrite !shl_align_value by lia. rewrite Z.min_l by lia.
  replace (e1 - e1) with 0 by lia. rewrite Z.pow_0_r, Z.mul_1_r.
  pose proof (digits2_pos_bounds m1) as B1. pose proof (digits2_pos_bounds m2) as B2.
  rewrite Hd2 in B2 by lia.
  assert (H53 : Zpos m1 < 2 ^ 53).
  { eapply Z.lt_le_trans; [apply B1|]. apply Z.pow_le_mono_r; lia. }
  assert (Hp : 2 ^ 1 <= 2 ^ (e2 - e1)) by (apply Z.pow_le_mono_r; lia).
  change (2 ^ (53 - 1)) with 4503599627370496 in B2.
  change (2 ^ 53) with 9007199254740992 in H53. change (2 ^ 1) with 2 in Hp. nia.
Qed.

Lemma SFsub_lt_positive x y :
  valid_binary x = true -> valid_binary y = true ->
  SFltb x y = true -> sf_positive (SF64sub y x) = true.
Proof.
  intros Vx Vy. unfold SFltb, SF64sub, SFsub.
  destruct x as [sx|sx| |sx mx ex], y as [sy|sy| |sy my ey];
    try (destruct sx); try (destruct sy); cbn [SFcompare negb];
    try discriminate; try reflexivity.
  all: intros Hlt; apply normalize_positive;
    [| apply valid_finite in Vx as (? & _); apply valid_finite in Vy as (? & _); lia].
  all: unfold cond_Zopp.
  - (* both negative *)
    destruct (ex ?= ey) eqn:Hc; try discriminate.
    + apply Z.compare_eq in Hc. subst ey. rewrite Z.min_id.
      rewrite !shl_align_value by lia. replace (ex - ex) with 0 by lia.
      rewrite Z.pow_0_r, !Z.mul_1_r.
      change (Pos.compare_cont Eq mx my) with (Pos.compare mx my) in Hlt.
      destruct (Pos.compare mx my) eqn:Hm; try discriminate.
      apply Pos.compare_gt_iff in Hm. lia.
    + apply Z.compare_gt_iff in Hc.
      pose proof (aligned_lt my ey mx ex true true Vy Vx Hc). lia.
  - (* x negative, y positive *) lia.
  - (* both positive *)
    destruct (ex ?= ey) eqn:Hc; try discriminate.
    + apply Z.compare_eq in Hc. subst ey. rewrite Z.min_id.
      rewrite !shl_align_value by lia. replace (ex - ex) with 0 by lia.
      rewrite Z.pow_0_r, !Z.mul_1_r.
      change (Pos.compare_cont Eq mx my) with (Pos.compare mx my) in Hlt.
      destruct (Pos.compare mx my) eqn:Hm; try discriminate.
      change (mx < my)%positive in Hm. lia.
    + apply Z.compare_lt_iff in Hc.
      pose proof (aligned_lt mx ex my ey false false Vx Vy Hc) as H.
      rewrite (Z.min_comm ey ex). lia.
Qed.

Lemma round_aux_negative mx ex lx :
  sf_positive (binary_round_aux prec emax true mx ex lx) = false.
Proof.
  unfold binary_round_aux.
  destruct (shr_fexp prec emax mx ex lx) as [mrs' e'].
  destruct (shr_fexp prec emax _ e' loc_Exact) as [mrs'' e''].
  destruct (shr_m mrs''); [reflexivity | | reflexivity].
  destruct (e'' <=? emax - prec); reflexivity.
Qed.

Lemma normalize_nonpositive m e :
  m <= 0 -> sf_positive (binary_normalize prec emax m e false) = false.
Proof.
  destruct m as [|p|p]; intros H; [reflexivity | lia |].
  unfold binary_normalize, binary_round.
  destruct (shl_align _ _ _) as [mz ez]. apply round_aux_negative.
Qed.

Lemma SFsub_positive_asym x y :
  sf_positive (SF64sub x y) = true -> sf_positive (SF64sub y x) = false.
Proof.
  unfold SF64sub, SFsub.
  destruct x as [sx|sx| |sx mx ex], y as [sy|sy| |sy my ey];
    try (destruct sx); try (destruct sy); try discriminate; try reflexivity.
  all: rewrite (Z.min_comm ey ex); set (ez := Z.min ex ey);
    intros H; apply normalize_nonpositive;
    match type of H with
    | sf_positive (binary_normalize _ _ ?m _ _) = true =>
        destruct (Z_le_gt_dec m 0) as [Hle|Hgt];
        [rewrite (normalize_nonpositive m ez Hle) in H; discriminate | cbn in *; lia]
    end.
Qed.

Lemma SFcompare_Gt x y : SFcompare x y = Some Gt -> SFcompare y x = Some Lt.
Proof.
  destruct x as [sx|sx| |sx mx ex], y as [sy|sy| |sy my ey];
    try (destruct sx); try (destruct sy); cbn [SFcompare];
    try discriminate; try reflexivity.
  all: rewrite (Z.compare_antisym ex ey);
    change (Pos.compare_cont Eq my mx) with (Pos.compare my mx);
    change (Pos.compare_cont Eq mx my) with (Pos.compare mx my);
    rewrite (Pos.compare_antisym mx my);
    destruct (ex ?= ey); cbn; try discriminate; try reflexivity;
    destruct (mx ?= my)%positive; cbn; try discriminate; reflexivity.
Qed.

Lemma SFsub_eq_not_positive x y :
  SFcompare x y = Some Eq -> sf_positive (SF64sub y x) = false.
Proof.
  unfold SF64sub, SFsub.
  destruct x as [sx|sx| |sx mx ex], y as [sy|sy| |sy my ey];
    try (destruct sx); try (destruct sy); cbn [SFcompare];
    try discriminate; try reflexivity.
  all: intros H; apply normalize_nonpositive;
    destruct (ex ?= ey) eqn:Hc; try discriminate;
    apply Z.compare_eq in Hc; subst ey;
    change (Pos.compare_cont Eq mx my) with (Pos.compare mx my) in H;
    destruct (mx ?= my)%positive eqn:Hm; try discriminate;
    apply Pos.compare_eq in Hm; subst my; cbn; lia.
Qed.

Lemma SFsub_nan_not_positive x y :
  SFcompare x y = None -> sf_positive (SF64sub y x) = false.
Proof.
  unfold SF64sub, SFsub.
  destruct x as [sx|sx| |sx mx ex], y as [sy|sy| |sy my ey];
    try (destruct sx); try (destruct sy); cbn [SFcompare];
    try discriminate; try reflexivity.
Qed.

(** If [a - b] is positive then [b - a] is not. *)
Lemma sub_positive_asym (a b : float) :
  (0 <? a - b)%float = true -> (0 <? b - a)%float = false.
Proof.
  rewrite !FloatAxioms.ltb_spec, !FloatAxioms.sub_spec. apply SFsub_positive_asym.
Qed.

(** The sign test of the comparator is the order of the numbers. *)
Lemma sub_positive_ltb (a b : float) : (0 <? b - a)%float = (a <? b)%float.
Proof.
  rewrite !FloatAxioms.ltb_spec, FloatAxioms.sub_spec.
  change (Prim2SF 0) with (S754_zero false).
  fold (sf_positive (SF64sub (Prim2SF b) (Prim2SF a))).
  destruct (SFltb (Prim2SF a) (Prim2SF b)) eqn:Hlt.
  - apply SFsub_lt_positive; auto using Prim2SF_valid.
  - unfold SFltb in Hlt.
    destruct (SFcompare (Prim2SF a) (Prim2SF b)) as [[| |]|] eqn:Hc; try discriminate.
    + now apply SFsub_eq_not_positive.
    + apply SFsub_positive_asym. apply SFcompare_Gt in Hc.
      apply SFsub_lt_positive; auto using Prim2SF_valid.
      unfold SFltb. now rewrite Hc.
    + now apply SFsub_nan_not_positive.
Qed.

(** Numbers that are not NaN are comparable. *)
Lemma ltb_false_leb (a b : float) :
  is_nan a = false -> is_nan b = false -> (a <? b)%float = false -> (b <=? a)%float = true.
Proof.
  unfold is_nan. rewrite !FloatAxioms.eqb_spec, FloatAxioms.ltb_spec, FloatAxioms.leb_spec.
  unfold SFeqb, SFltb, SFleb. intros Ha Hb Hlt.
  destruct (SFcompare (Prim2SF a) (Prim2SF b)) as [[| |]|] eqn:Hc; try discriminate.
  - assert (Hba : SFcompare (Prim2SF b) (Prim2SF a) = Some Eq); [|now rewrite Hba].
    revert Hc. destruct (Prim2SF a) as [sx|sx| |sx mx ex], (Prim2SF b) as [sy|sy| |sy my ey];
      try (destruct sx); try (destruct sy); cbn [SFcompare];
      try discriminate; try reflexivity.
    all: rewrite (Z.compare_antisym ex ey);
      change (Pos.compare_cont Eq my mx) with (Pos.compare my mx);
      change (Pos.compare_cont Eq mx my) with (Pos.compare mx my);
      rewrite (Pos.compare_antisym mx my);
      destruct (ex ?= ey); cbn; try discriminate; try reflexivity;
      destruct (mx ?= my)%positive; cbn; try discriminate; reflexivity.
  - apply SFcompare_Gt in Hc. now rewrite Hc.
  - exfalso. revert Ha Hb Hc.
    destruct (Prim2SF a) as [sx|sx| |sx mx ex], (Prim2SF b) as [sy|sy| |sy my ey];
      cbn; try discriminate; destruct sx, sy; discriminate.
Qed.

(** *** The order of binary64 numbers *)

Lemma SFcompare_Lt_trans x y z :
  SFcompare x y = Some Lt -> SFcompare y z = Some Lt -> SFcompare x z = Some Lt.
Proof.
  destruct x as [sx|sx| |sx mx ex], y as [sy|sy| |sy my ey], z as [sz|sz| |sz mz ez];
    try (destruct sx); try (destruct sy); try (destruct sz); cbn [SFcompare];
    try discriminate; try reflexivity.
  all: change (Pos.compare_cont Eq) with Pos.compare.
  all: destruct (Z.compare_spec ex ey), (Z.compare_spec ey ez), (Z.compare_spec ex ez);
    try lia; try discriminate; try reflexivity; subst.
  all: destruct (Pos.compare_spec mx my), (Pos.compare_spec my mz),
         (Pos.compare_spec mx mz); cbn; try lia; try discriminate; try reflexivity.
Qed.

Lemma SFcompare_Eq_l x y z c :
  SFcompare x y = Some Eq -> SFcompare y z = Some c -> SFcompare x z = Some c.
Proof.
  destruct x as [sx|sx| |sx mx ex], y as [sy|sy| |sy my ey], z as [sz|sz| |sz mz ez];
    try (destruct sx); try (destruct sy); try (destruct sz); cbn [SFcompare];
    try discriminate; try (intros _ H; exact H).
  all: change (Pos.compare_cont Eq) with Pos.compare.
  all: destruct (Z.compare_spec ex ey); try discriminate; subst.
  all: destruct (Pos.compare_spec mx my); cbn; try discriminate; subst.
  all: intros _ H; exact H.
Qed.

Lemma SFcompare_Eq_r x y z c :
  SFcompare x y = Some c -> SFcompare y z = Some Eq -> SFcompare x z = Some c.
Proof.
  destruct x as [sx|sx| |sx mx ex], y as [sy|sy| |sy my ey], z as [sz|sz| |sz mz ez];
    try (destruct sx); try (destruct sy); try (destruct sz); cbn [SFcompare];
    try discriminate; try (intros H _; exact H).
  all: change (Pos.compare_cont Eq) with Pos.compare.
  all: destruct (Z.compare_spec ey ez); try discriminate; subst.
  all: destruct (Pos.compare_spec my mz); cbn; try discriminate; subst.
  all: intros H _; exact H.
Qed.

Lemma SFcompare_Lt_Gt x y : SFcompare x y = Some Lt -> SFcompare y x = Some Gt.
Proof.
  destruct x as [sx|sx| |sx mx ex], y as [sy|sy| |sy my ey];
    try (destruct sx); try (destruct sy); cbn [SFcompare];
    try discriminate; try reflexivity.
  all: change (Pos.compare_cont Eq) with Pos.compare.
  all: rewrite (Z.compare_antisym ex ey), (Pos.compare_antisym mx my).
  all: destruct (ex ?= ey); cbn; try discriminate; try reflexivity;
    destruct (mx ?= my)%positive; cbn; try discriminate; reflexivity.
Qed.

Lemma ltb_trans (a b c : float) :
  (a <? b)%float = true -> (b <? c)%float = true -> (a <? c)%float = true.
Proof.
  rewrite !FloatAxioms.ltb_spec. unfold SFltb. intros Hab Hbc.
  destruct (SFcompare (Prim2SF a) (Prim2SF b)) as [[| |]|] eqn:H1; try discriminate.
  destruct (SFcompare (Prim2SF b) (Prim2SF c)) as [[| |]|] eqn:H2; try discriminate.
  now rewrite (SFcompare_Lt_trans _ _ _ H1 H2).
Qed.

Lemma leb_ltb_trans (a b c : float) :
  (a <=? b)%float = true -> (b <? c)%float = true -> (a <? c)%float = true.
Proof.
  rewrite FloatAxioms.leb_spec, !FloatAxioms.ltb_spec. unfold SFltb, SFleb. intros Hab Hbc.
  destruct (SFcompare (Prim2SF b) (Prim2SF c)) as [[| |]|] eqn:H2; try discriminate.
  destruct (SFcompare (Prim2SF a) (Prim2SF b)) as [[| |]|] eqn:H1; try discriminate.
  - now rewrite (SFcompare_Eq_l _ _ _ _ H1 H2).
  - now rewrite (SFcompare_Lt_trans _ _ _ H1 H2).
Qed.

Lemma ltb_leb_trans (a b c : float) :
  (a <? b)%float = true -> (b <=? c)%float = true -> (a <? c)%float = true.
Proof.
  rewrite FloatAxioms.leb_spec, !FloatAxioms.ltb_spec. unfold SFltb, SFleb. intros Hab Hbc.
  destruct (SFcompare (Prim2SF a) (Prim2SF b)) as [[| |]|] eqn:H1; try discriminate.
  destruct (SFcompare (Prim2SF b) (Prim2SF c)) as [[| |]|] eqn:H2; try discriminate.
  - now rewrite (SFcompare_Eq_r _ _ _ _ H1 H2).
  - now rewrite (SFcompare_Lt_trans _ _ _ H1 H2).
Qed.

Lemma ltb_not_leb (a b : float) : (a <? b)%float = true -> (b <=? a)%float = false.
Proof.
  rewrite FloatAxioms.leb_spec, FloatAxioms.ltb_spec. unfold SFltb, SFleb. intros Hab.
  destruct (SFcompare (Prim2SF a) (Prim2SF b)) as [[| |]|] eqn:H1; try discriminate.
  now rewrite (SFcompare_Lt_Gt _ _ H1).
Qed.

(** *** The sign of the comparator *)

Definition sf_negative (x : spec_float) : bool := SFltb x (S754_zero false).

Lemma round_aux_opp mx ex lx :
  sf_negative (binary_round_aux prec emax true mx ex lx) =
  sf_positive (binary_round_aux prec emax false mx ex lx) /\
  sf_negative (binary_round_aux prec emax false mx ex lx) = false.
Proof.
  unfold binary_round_aux.
  destruct (shr_fexp prec emax mx ex lx) as [mrs' e'].
  destruct (shr_fexp prec emax _ e' loc_Exact) as [mrs'' e''].
  destruct (shr_m mrs''); [split; reflexivity | | split; reflexivity].
  destruct (e'' <=? emax - prec); split; reflexivity.
Qed.

Lemma normalize_opp m e :
  sf_negative (binary_normalize prec emax (- m) e false) =
  sf_positive (binary_normalize prec emax m e false).
Proof.
  destruct m as [|p|p]; [reflexivity | |];
    change (- Z.pos p) with (Z.neg p); change (- Z.neg p) with (Z.pos p);
    unfold binary_normalize, binary_round;
    destruct (shl_align _ _ _) as [mz ez].
  - apply round_aux_opp.
  - rewrite round_aux_negative. apply round_aux_opp.
Qed.

Lemma SFsub_negative x y : sf_negative (SF64sub x y) = sf_positive (SF64sub y x).
Proof.
  unfold SF64sub, SFsub.
  destruct x as [sx|sx| |sx mx ex], y as [sy|sy| |sy my ey];
    try (destruct sx); try (destruct sy); try reflexivity.
  all: rewrite (Z.min_comm ey ex); set (ez := Z.min ex ey);
    rewrite <- normalize_opp; f_equal; f_equal; cbn; lia.
Qed.

(** The comparator result is negative exactly when the first number is
    the smaller. *)
Lemma sub_negative_ltb (a b : float) : (a - b <? 0)%float = (a <? b)%float.
Proof.
  rewrite <- (sub_positive_ltb a b).
  rewrite !FloatAxioms.ltb_spec, !FloatAxioms.sub_spec. apply SFsub_negative.
Qed.

Lemma ltb_asym (a b : float) : (a <? b)%float = true -> (b <? a)%float = false.
Proof.
  rewrite <- (sub_positive_ltb a b), <- (sub_positive_ltb b a). apply sub_positive_asym.
Qed.

Lemma ltb_false_trans (a b c : float) :
  is_nan a = false -> is_nan b = false -> is_nan c = false ->
  (a <? b)%float = false -> (b <? c)%float = false -> (a <? c)%float = false.
Proof.
  intros Ha Hb Hc Hab Hbc. destruct (a <? c)%float eqn:Hac; [|reflexivity].
  apply ltb_false_leb in Hbc; [|assumption..].
  pose proof (ltb_leb_trans a c b Hac Hbc). congruence.
Qed.

(** *** The sort *)

(** [x] stands somewhere before [y] in [l]. *)
Definition precedes {A} (x y : A) (l : list A) : Prop :=
  exists l1 l2 l3, l = l1 ++ x :: l2 ++ y :: l3.

(** Whatever the comparator, the sort only rearranges the array. *)
Section SortFacts.
Context {A : Type} (compareFn : A -> A -> float).

Local Abbreviation sortsBefore := (sortsBefore compareFn).

Lemma runFrom_app isDescending : forall previous rest,
  rest = fst (runFrom compareFn isDescending previous rest)
         ++ snd (runFrom compareFn isDescending previous rest).
Proof.
  intros previous rest. revert previous.
  induction rest as [|current rest IH]; intros previous; cbn; [reflexivity|].
  destruct (Bool.eqb _ _); [|reflexivity].
  specialize (IH current). destruct (runFrom _ _ _ _) as [run others]. cbn in *.
  now rewrite <- IH.
Qed.

Lemma CountAndMakeRun_Permutation l :
  fst (CountAndMakeRun compareFn l) ++ snd (CountAndMakeRun compareFn l) ≡ₚ l.
Proof.
  destruct l as [|high [|low rest]]; [reflexivity..|].
  unfold CountAndMakeRun.
  pose proof (runFrom_app (sortsBefore low high) low rest) as Hrest.
  destruct (runFrom _ _ _ _) as [run others]. cbn [fst snd] in *. subst rest.
  change (high :: low :: run ++ others) with ((high :: low :: run) ++ others).
  apply Permutation_app_tail.
  destruct (sortsBefore low high); [|reflexivity].
  symmetry. apply Permutation_rev.
Qed.

Lemma insertPivot_Permutation sorted pivot :
  insertPivot compareFn sorted pivot ≡ₚ pivot :: sorted.
Proof.
  unfold insertPivot. rewrite <- Permutation_middle. now rewrite take_drop.
Qed.

Lemma BinaryInsertionSort_Permutation others : forall run,
  BinaryInsertionSort compareFn run others ≡ₚ run ++ others.
Proof.
  unfold BinaryInsertionSort.
  induction others as [|pivot others IH]; intros run; cbn.
  - now rewrite app_nil_r.
  - rewrite IH, insertPivot_Permutation. now rewrite <- Permutation_middle.
Qed.

Lemma Array_sort_Permutation l : Array_sort compareFn l ≡ₚ l.
Proof.
  unfold Array_sort. pose proof (CountAndMakeRun_Permutation l) as H.
  destruct (CountAndMakeRun compareFn l) as [run others]. cbn in H.
  now rewrite BinaryInsertionSort_Permutation.
Qed.
End SortFacts.

Lemma StronglySorted_middle {A} (R : A -> A -> Prop) b a p :
  StronglySorted R (b ++ a) -> Forall (fun e => R e p) b -> Forall (R p) a ->
  StronglySorted R (b ++ p :: a).
Proof.
  induction b as [|e b IH]; cbn; intros Hs Hb Ha.
  - now constructor.
  - inversion Hs as [|? ? Hs' He]; subst. inversion Hb as [|? ? Hep Hb']; subst.
    constructor; [now apply IH|].
    apply Forall_app in He as [He1 He2]. apply Forall_app. split; [assumption|].
    now constructor.
Qed.

Lemma StronglySorted_precedes {A} (R : A -> A -> Prop) l x y :
  StronglySorted R l -> precedes x y l -> R x y.
Proof.
  intros Hs (l1 & l2 & l3 & ->).
  induction l1 as [|e l1 IH]; cbn in Hs; inversion Hs as [|? ? Hs' He]; subst.
  - apply Forall_app in He as [_ He]. now inversion He.
  - now apply IH.
Qed.

Lemma precedes_middle {A} (x y p : A) b a :
  precedes x y (b ++ a) -> precedes x y (b ++ p :: a).
Proof.
  intros (m1 & m2 & m3 & Hl).
  revert m1 Hl. induction b as [|z b IH]; intros m1 Hl; cbn in *.
  - subst a. now exists (p :: m1), m2, m3.
  - destruct m1 as [|w m1]; cbn in Hl; injection Hl as <- Hl.
    + assert (Hin : y ∈ b ++ a) by (rewrite Hl; set_solver).
      apply elem_of_app in Hin as [Hin|Hin];
        apply list_elem_of_split in Hin as (k1 & k2 & ->).
      * exists [], k1, (k2 ++ p :: a). cbn. now rewrite <- app_assoc.
      * exists [], (b ++ p :: k1), k2. cbn. now rewrite <- app_assoc.
    + destruct (IH m1 Hl) as (k1 & k2 & k3 & ->). now exists (z :: k1), k2, k3.
Qed.

Lemma precedes_snoc {A} (x y p : A) l :
  precedes x y (l ++ [p]) -> precedes x y l \/ (y = p /\ x ∈ l).
Proof.
  intros (l1 & l2 & l3 & Hl).
  destruct l3 as [|z l3 _] using rev_ind.
  - right. change (l1 ++ x :: l2 ++ [y]) with (l1 ++ (x :: l2) ++ [y]) in Hl.
    rewrite app_assoc in Hl. apply app_inj_tail in Hl as [-> ->].
    split; [reflexivity | set_solver].
  - left. change (l1 ++ x :: l2 ++ y :: l3 ++ [z])
      with (l1 ++ (x :: l2) ++ (y :: l3) ++ [z]) in Hl.
    rewrite !app_assoc in Hl. apply app_inj_tail in Hl as [-> _].
    exists l1, l2, l3. now rewrite <- !app_assoc.
Qed.

(** With a consistent comparator the binary search finds the place of the
    pivot among the elements sorted so far, each step keeps them sorted
    and keeps the order of elements the comparator does not tell apart. *)
Section Consistent.
Context {A : Type} (compareFn : A -> A -> float).

Local Abbreviation before := (sortsBefore compareFn).

(** [x] may stand before [y]: the comparator does not put [y] first. *)
Definition in_order (x y : A) : Prop := before y x = false.

(** The comparator is consistent on the elements that are [good]. *)
Variable good : A -> Prop.
Hypothesis before_asym : forall x y,
  good x -> good y -> before x y = true -> before y x = false.
Hypothesis before_trans : forall x y z,
  good x -> good y -> good z ->
  before x y = true -> before y z = true -> before x z = true.
Hypothesis in_order_trans : forall x y z,
  good x -> good y -> good z -> in_order x y -> in_order y z -> in_order x z.

(** Two neighbours of a run: in order, or strictly out of order. *)
Definition link (isDescending : bool) (x y : A) : Prop := before y x = isDescending.

Lemma link_trans d x y z :
  good x -> good y -> good z -> link d x y -> link d y z -> link d x z.
Proof using before_trans in_order_trans.
  destruct d; unfold link; intros Hx Hy Hz Hxy Hyz.
  - now apply (before_trans z y x).
  - now apply (in_order_trans x y z).
Qed.

Lemma before_later p m e :
  good p -> good m -> good e ->
  before p m = true -> in_order m e -> before p e = true.
Proof using in_order_trans.
  intros Hp Hm He Hpm Hme. destruct (before p e) eqn:Hpe; [reflexivity|].
  pose proof (in_order_trans m e p Hm He Hp Hme Hpe) as H. unfold in_order in H. congruence.
Qed.

Lemma boundary pivot sorted :
  good pivot -> Forall good sorted -> StronglySorted in_order sorted ->
  exists k, (k <= length sorted)%nat /\
    Forall (fun e => before pivot e = false) (take k sorted) /\
    Forall (fun e => before pivot e = true) (drop k sorted).
Proof using in_order_trans.
  intros Hp. induction sorted as [|e l IH]; intros Hg Hs.
  - exists 0%nat. cbn. repeat split; constructor.
  - inversion Hg as [|? ? He Hl]; subst. inversion Hs as [|? ? Hs' Hel]; subst.
    destruct (before pivot e) eqn:Hpe.
    + exists 0%nat. cbn. split; [lia|]. split; [constructor|].
      constructor; [assumption|]. rewrite Forall_forall in Hel, Hl |- *.
      intros e' He'. apply (before_later pivot e e'); auto.
    + destruct (IH Hl Hs') as (k & Hk & Hb & Ha). exists (S k). cbn.
      split; [lia|]. split; [now constructor | assumption].
Qed.

Lemma findInsertionPoint_boundary pivot sorted k :
  (k <= length sorted)%nat ->
  Forall (fun e => before pivot e = false) (take k sorted) ->
  Forall (fun e => before pivot e = true) (drop k sorted) ->
  forall fuel left right,
    (left <= k <= right)%nat -> (right <= length sorted)%nat ->
    (right - left <= fuel)%nat ->
    findInsertionPoint compareFn fuel pivot sorted left right = k.
Proof.
  intros Hk Hb Ha. induction fuel as [|fuel IH]; intros left right Hlr Hr Hf;
    cbn [findInsertionPoint].
  - lia.
  - destruct (Nat.ltb_spec left right) as [Hlt|Hge]; [|lia].
    assert (Hhalf : ((right - left) / 2 < right - left)%nat)
      by (apply Nat.div_lt; lia).
    set (mid := (left + (right - left) / 2)%nat) in *.
    assert (Hmid : (left <= mid < right)%nat) by (unfold mid; lia).
    destruct (lookup_lt_is_Some_2 sorted mid) as [m Hm]; [lia|]. rewrite Hm.
    destruct (Nat.lt_ge_cases mid k) as [Hlow|Hhigh].
    + assert (Hpm : before pivot m = false).
      { apply (Forall_lookup_1 _ _ mid m Hb). now rewrite lookup_take_lt. }
      rewrite Hpm. apply IH; lia.
    + assert (Hpm : before pivot m = true).
      { apply (Forall_lookup_1 _ _ (mid - k) m Ha). rewrite lookup_drop.
        now replace (k + (mid - k))%nat with mid by lia. }
      rewrite Hpm. apply IH; lia.
Qed.

Lemma insertPivot_split pivot sorted :
  good pivot -> Forall good sorted -> StronglySorted in_order sorted ->
  exists b a, sorted = b ++ a /\ insertPivot compareFn sorted pivot = b ++ pivot :: a /\
    Forall (fun e => before pivot e = false) b /\
    Forall (fun e => before pivot e = true) a.
Proof using in_order_trans.
  intros Hp Hg Hs. destruct (boundary pivot sorted Hp Hg Hs) as (k & Hk & Hb & Ha).
  exists (take k sorted), (drop k sorted). unfold insertPivot.
  rewrite (findInsertionPoint_boundary pivot sorted k Hk Hb Ha) by lia.
  now rewrite take_drop.
Qed.

Lemma insertPivot_StronglySorted pivot sorted :
  good pivot -> Forall good sorted -> StronglySorted in_order sorted ->
  StronglySorted in_order (insertPivot compareFn sorted pivot).
Proof using before_asym in_order_trans.
  intros Hp Hg Hs.
  destruct (insertPivot_split pivot sorted Hp Hg Hs) as (b & a & -> & -> & Hb & Ha).
  apply StronglySorted_middle; [assumption | exact Hb |].
  apply Forall_app in Hg as [_ Hga]. rewrite Forall_forall in Ha, Hga |- *.
  intros e He. apply before_asym; auto.
Qed.

(** The elements of [input] that the comparator does not swap stand in
    [output] as they do in [input]. *)
Definition keeps (input output : list A) : Prop :=
  forall x y, precedes x y input -> in_order x y -> precedes x y output.

Lemma BinaryInsertionSort_sorts others : forall done run,
  run ≡ₚ done -> Forall good (done ++ others) ->
  StronglySorted in_order run -> keeps done run ->
  StronglySorted in_order (BinaryInsertionSort compareFn run others) /\
  keeps (done ++ others) (BinaryInsertionSort compareFn run others).
Proof using before_asym in_order_trans.
  unfold BinaryInsertionSort.
  induction others as [|pivot others IH]; intros done run Hperm Hg Hs Hkeeps; cbn.
  - now rewrite app_nil_r.
  - assert (Hgd : Forall good done /\ good pivot /\ Forall good others).
    { apply Forall_app in Hg as [? Hg]. now inversion Hg. }
    destruct Hgd as (Hgd & Hp & Hgo).
    assert (Hgr : Forall good run) by now rewrite Hperm.
    replace (done ++ pivot :: others) with ((done ++ [pivot]) ++ others)
      by now rewrite <- app_assoc.
    apply IH.
    + rewrite insertPivot_Permutation, Hperm. apply Permutation_cons_append.
    + rewrite <- app_assoc. exact Hg.
    + now apply insertPivot_StronglySorted.
    + destruct (insertPivot_split pivot run Hp Hgr Hs) as (b & a & Hrun & -> & Hb & Ha).
      intros x y Hxy Hord. apply precedes_snoc in Hxy as [Hxy|[-> Hx]].
      * apply precedes_middle. rewrite <- Hrun. now apply Hkeeps.
      * rewrite <- Hperm, Hrun in Hx. apply elem_of_app in Hx as [Hx|Hx].
        -- apply list_elem_of_split in Hx as (k1 & k2 & ->).
           exists k1, k2, a. now rewrite <- app_assoc.
        -- rewrite Forall_forall in Ha. apply Ha in Hx.
           unfold in_order in Hord. congruence.
Qed.

Lemma runFrom_chain d : forall previous rest,
  Forall good (previous :: rest) ->
  StronglySorted (link d) (previous :: fst (runFrom compareFn d previous rest)).
Proof using before_trans in_order_trans.
  intros previous rest. revert previous.
  induction rest as [|current rest IH]; intros previous Hg; cbn.
  - repeat constructor.
  - inversion Hg as [|? ? Hp Hg']; subst.
    destruct (Bool.eqb _ _) eqn:Hd; [|repeat constructor].
    apply Bool.eqb_prop in Hd. specialize (IH current Hg').
    pose proof (runFrom_app compareFn d current rest) as Happ.
    destruct (runFrom _ _ _ _) as [run others]. cbn [fst snd] in *.
    constructor; [assumption|].
    inversion IH as [|? ? _ Hrun]. inversion Hg' as [|? ? Hc Hgr].
    constructor; [exact Hd|].
    rewrite Happ in Hgr. apply Forall_app in Hgr as [Hgr _].
    rewrite Forall_forall in Hrun, Hgr |- *. intros e He.
    apply (link_trans d previous current e); auto.
Qed.

Lemma rev_descending l :
  Forall good l -> StronglySorted (link true) l -> StronglySorted in_order (rev l).
Proof using before_asym.
  induction l as [|e l IH]; intros Hg Hs; cbn; [constructor|].
  inversion Hg as [|? ? He Hl]; subst. inversion Hs as [|? ? Hs' Hel]; subst.
  apply StronglySorted_middle; [rewrite app_nil_r; now apply IH | | constructor].
  rewrite Forall_forall in Hel, Hl |- *. intros e' He'.
  assert (Hin : e' ∈ l) by (apply list_elem_of_In, in_rev, list_elem_of_In; exact He').
  apply before_asym; auto. now apply Hel.
Qed.

Lemma CountAndMakeRun_sorts l :
  Forall good l ->
  exists whole,
    l = whole ++ snd (CountAndMakeRun compareFn l) /\
    fst (CountAndMakeRun compareFn l) ≡ₚ whole /\
    StronglySorted in_order (fst (CountAndMakeRun compareFn l)) /\
    keeps whole (fst (CountAndMakeRun compareFn l)).
Proof using before_asym before_trans in_order_trans.
  intros Hg. destruct l as [|high [|low rest]].
  - exists []. cbn. split; [reflexivity|]. split; [reflexivity|].
    split; [constructor | now intros x y Hxy].
  - exists [high]. cbn. split; [reflexivity|]. split; [reflexivity|].
    split; [repeat constructor | now intros x y Hxy].
  - unfold CountAndMakeRun. set (d := before low high).
    apply Forall_cons in Hg as [Hh Hg'].
    pose proof (runFrom_chain d low rest Hg') as Hchain.
    pose proof (runFrom_app compareFn d low rest) as Happ.
    destruct (runFrom _ _ _ _) as [run others]. cbn [fst snd] in *.
    exists (high :: low :: run).
    apply Forall_cons in Hg' as [Hl Hgr].
    rewrite Happ in Hgr. apply Forall_app in Hgr as [Hgr _].
    assert (Hwhole : StronglySorted (link d) (high :: low :: run)).
    { constructor; [assumption|]. apply StronglySorted_inv in Hchain as [_ Hrun].
      constructor; [reflexivity|].
      rewrite Forall_forall in Hrun, Hgr |- *. intros e He.
      apply (link_trans d high low e); auto. reflexivity. }
    split; [rewrite Happ at 1; reflexivity|].
    destruct d eqn:Hd.
    + split; [symmetry; apply Permutation_rev|].
      split; [apply rev_descending; [repeat constructor|]; assumption|].
      intros x y Hxy Hord.
      pose proof (StronglySorted_precedes _ _ _ _ Hwhole Hxy) as Hlink.
      unfold link, in_order in *. congruence.
    + split; [reflexivity|]. split; [exact Hwhole | now intros x y Hxy].
Qed.

(** On elements the comparator is consistent on, the array comes back
    sorted and the sort is stable. *)
Lemma Array_sort_sorts l :
  Forall good l ->
  StronglySorted in_order (Array_sort compareFn l) /\ keeps l (Array_sort compareFn l).
Proof using before_asym before_trans in_order_trans.
  intros Hg. unfold Array_sort.
  destruct (CountAndMakeRun_sorts l Hg) as (whole & Hl & Hperm & Hs & Hkeeps).
  destruct (CountAndMakeRun compareFn l) as [run others]. cbn [fst snd] in *.
  rewrite Hl. apply BinaryInsertionSort_sorts; auto. now rewrite <- Hl.
Qed.
End Consistent.

(** *** The comparator of [analyzeBatch] *)

(** Decisions whose score is a number. *)
Definition numbered (d : SettlementDecision) : Prop := is_nan (score d) = false.

(** The comparator puts [a] before [b] exactly when [a]'s score is the
    greater. *)
Lemma sortsBefore_byScore a b :
  sortsBefore byScoreDescending a b = (score b <? score a)%float.
Proof. apply sub_negative_ltb. Qed.

Lemma byScoreDescending_sorts l :
  Forall numbered l ->
  StronglySorted (in_order byScoreDescending) (Array_sort byScoreDescending l) /\
  keeps byScoreDescending l (Array_sort byScoreDescending l).
Proof.
  apply Array_sort_sorts; unfold in_order, numbered; intros x y.
  - intros _ _. rewrite !sortsBefore_byScore. apply ltb_asym.
  - intros z _ _ _. rewrite !sortsBefore_byScore. intros Hyx Hzy.
    exact (ltb_trans _ _ _ Hzy Hyx).
  - intros z Hx Hy Hz. rewrite !sortsBefore_byScore. intros Hxy Hyz.
    exact (ltb_false_trans _ _ _ Hx Hy Hz Hxy Hyz).
Qed.

(** *** Stand-ins for adapters, used in the examples *)

Definition stubConfig (c : ChainId) : ChainConfig :=
  mkChainConfig c "stub" "" "" "" 500000%float 1%float.

Definition stubMetrics (time load : float) : ChainMetrics :=
  mkChainMetrics 0 12%float time load 0%float.

Definition stubResult (tx : string) : SettlementResult :=
  mkSettlementResult true tx 1%float 21000 42 1500%float.

(** A connected or disconnected adapter that always gives the same
    answers. *)
Definition stubAdapter (c : ChainId) (isConnected : bool) (cost : Promise Z)
    (metrics : Promise ChainMetrics) (submit : Promise SettlementResult)
  : ChainAdapter :=
  mkChainAdapter c (stubConfig c) isConnected (fun _ => cost) metrics
    (Resolved 12%float) (fun _ _ => submit).

Definition stubBatch : BatchSubmission :=
  mkBatchSubmission 1%float "0x11" ["0xaa"; "0xbb"]%string "0x22" 0%float.

Definition routerOf (l : list ChainAdapter) : SettlementRouter :=
  fold_left (fun r a => registerAdapter a r) l
    (new_SettlementRouter (mkRoutingStrategy "none" (fun _ _ => Rejected NoAvailableChains))).

(** A connected adapter whose first [submitBatch] times out and whose later
    ones settle. *)
Definition flakyAdapter : ChainAdapter :=
  mkChainAdapter BSC (stubConfig BSC) true (fun _ => Resolved 5)
    (Resolved (stubMetrics 3 50)) (Resolved 3%float)
    (fun earlier _ =>
       match earlier with
       | O => Rejected (Thrown "timeout")
       | S _ => Resolved (stubResult "0xb")
       end).

(** With the default two retries the second attempt settles the batch;
    with none the first failure is final. *)
Example submitToChain_retries :
  let r := routerOf [flakyAdapter] in
  fst (submitToChain stubBatch BSC 2 r) = Resolved (stubResult "0xb") /\
  submitLog (snd (submitToChain stubBatch BSC 2 r)) = [BSC; BSC] /\
  totalBatches (stats (snd (submitToChain stubBatch BSC 2 r))) = 1 /\
  fst (submitToChain stubBatch BSC 0 r) = Rejected (SubmitFailed 1 (Thrown "timeout")) /\
  fst (submitToChain stubBatch POLYGON 2 r) = Rejected (NoAdapterFound POLYGON).
Proof.
  vm_compute. repeat split.
Qed.

(** The speed-optimized strategy takes the chain with the least
    finalization time among the connected ones. *)
Example SpeedOptimized_selects_fastest :
  selectChain SpeedOptimizedStrategy stubBatch
    (adapters (routerOf
       [ stubAdapter ETHEREUM true (Resolved 100) (Resolved (stubMetrics 24 50))
           (Resolved (stubResult "0xe"));
         flakyAdapter ]))
  = Resolved BSC.
Proof.
  vm_compute. reflexivity.
Qed.

(** *** [analyzeBatch] *)

Definition is_resolved {A} (p : Promise A) : bool :=
  match p with Resolved _ => true | Rejected _ => false end.

(** The adapters [analyzeBatch] pushes a decision for. *)
Definition scorable (batch : BatchSubmission) (adapter : ChainAdapter) : bool :=
  isConnected adapter && is_resolved (estimateGasCost adapter batch)
  && is_resolved (getMetrics adapter).

Lemma analyzeLoop_omap batch entries : forall decisions,
  analyzeLoop batch entries decisions = decisions ++ omap (analyzeEntry batch) entries.
Proof.
  induction entries as [|entry rest IH]; intros decisions; cbn.
  - now rewrite app_nil_r.
  - destruct (analyzeEntry batch entry) as [d|]; rewrite IH; [|reflexivity].
    now rewrite <- app_assoc.
Qed.

Lemma analyzeEntry_Some batch c a d :
  analyzeEntry batch (c, a) = Some d ->
  scorable batch a = true /\ decision_chainId d = c /\
  exists cost metrics,
    estimateGasCost a batch = Resolved cost /\ getMetrics a = Resolved metrics /\
    estimatedCost d = cost /\ estimatedTime d = finalizationTime metrics /\
    score d = (normalizeCostScore cost * 0.5
               + normalizeTimeScore (finalizationTime metrics) * 0.3
               + (100 - chainLoad metrics) * 0.2)%float.
Proof.
  unfold analyzeEntry, scorable.
  destruct (isConnected a); cbn; [|discriminate].
  destruct (estimateGasCost a batch) as [cost|]; cbn; [|discriminate].
  destruct (getMetrics a) as [metrics|]; cbn; [|discriminate].
  intros [= <-]. cbn. repeat split. exists cost, metrics. repeat split.
Qed.

Lemma analyzeEntry_None batch c a :
  analyzeEntry batch (c, a) = None -> scorable batch a = false.
Proof.
  unfold analyzeEntry, scorable.
  destruct (isConnected a); cbn; [|reflexivity].
  destruct (estimateGasCost a batch) as [cost|]; cbn; [|reflexivity].
  destruct (getMetrics a) as [metrics|]; cbn; [discriminate | reflexivity].
Qed.

Lemma scored_chainIds batch entries :
  map decision_chainId (omap (analyzeEntry batch) entries) =
  map fst (filter (fun entry => scorable batch (snd entry) = true) entries).
Proof.
  induction entries as [|[c a] rest IH]; [reflexivity|].
  cbn [omap list_omap]. rewrite filter_cons. cbn [snd].
  destruct (analyzeEntry batch (c, a)) as [d|] eqn:Hd.
  - apply analyzeEntry_Some in Hd as (Hs & Hc & _).
    rewrite decide_True by exact Hs. cbn. now rewrite Hc, IH.
  - apply analyzeEntry_None in Hd.
    rewrite decide_False by congruence. exact IH.
Qed.

Lemma analyzeBatch_unfold r batch :
  analyzeBatch r batch =
  Array_sort byScoreDescending (omap (analyzeEntry batch) (adapters r)).
Proof.
  unfold analyzeBatch. now rewrite analyzeLoop_omap.
Qed.

(** When no score is NaN the ranking is in descending order of score. *)
Lemma ranking_descending r batch :
  Forall numbered (analyzeBatch r batch) ->
  forall d1 d2,
    precedes d1 d2 (analyzeBatch r batch) -> (score d2 <=? score d1)%float = true.
Proof.
  rewrite analyzeBatch_unfold. set (pushed := omap (analyzeEntry batch) (adapters r)).
  intros Hnum d1 d2 Hp.
  assert (Hpushed : Forall numbered pushed) by now rewrite <- (Array_sort_Permutation byScoreDescending).
  destruct (byScoreDescending_sorts pushed Hpushed) as [Hsorted _].
  pose proof (StronglySorted_precedes _ _ _ _ Hsorted Hp) as Hord.
  unfold in_order in Hord. rewrite sortsBefore_byScore in Hord.
  rewrite Forall_forall in Hnum. destruct Hp as (l1 & l2 & l3 & Hl).
  apply ltb_false_leb; [apply Hnum | apply Hnum | exact Hord]; rewrite Hl; set_solver.
Qed.

(** C6, as the code has it: [analyzeBatch] returns the decisions pushed for
    the adapters, one for each adapter that is connected and whose cost
    and metrics queries both resolve, none for any other adapter.  When
    no score is NaN the decisions come back in descending order of score,
    every decision scoring at most what each decision before it scores,
    and of two pushed decisions the one pushed first, that is the one
    whose adapter was registered first, stays first unless its score is
    less than the other's, in particular when the scores are equal. *)
Theorem analyzeBatch_spec (r : SettlementRouter) (batch : BatchSubmission) :
  let ranked := analyzeBatch r batch in
  let pushed := omap (analyzeEntry batch) (adapters r) in
  ranked ≡ₚ pushed /\
  map decision_chainId pushed =
    map fst (filter (fun entry => scorable batch (snd entry) = true) (adapters r)) /\
  length ranked =
    length (filter (fun entry => scorable batch (snd entry) = true) (adapters r)) /\
  (Forall numbered pushed ->
   (forall d1 d2,
      precedes d1 d2 ranked -> (score d2 <=? score d1)%float = true) /\
   (forall d1 d2,
      precedes d1 d2 pushed ->
      (score d1 <? score d2)%float = false ->
      precedes d1 d2 ranked) /\
   (forall d1 d2,
      precedes d1 d2 pushed -> score d1 = score d2 -> precedes d1 d2 ranked)).
Proof.
  intros ranked pushed. subst ranked. rewrite analyzeBatch_unfold. fold pushed.
  split; [apply Array_sort_Permutation|].
  split; [apply scored_chainIds|].
  split.
  - rewrite Array_sort_Permutation. unfold pushed.
    rewrite <- (length_map decision_chainId), scored_chainIds. apply length_map.
  - intros Hnum. destruct (byScoreDescending_sorts pushed Hnum) as [Hsorted Hkeeps].
    assert (Hstable : forall d1 d2,
              precedes d1 d2 pushed ->
              (score d1 <? score d2)%float = false ->
              precedes d1 d2 (Array_sort byScoreDescending pushed)).
    { intros d1 d2 Hp Hs. apply Hkeeps; [exact Hp|].
      unfold in_order. now rewrite sortsBefore_byScore. }
    split; [|split; [exact Hstable|]].
    + intros d1 d2 Hp. apply (ranking_descending r batch).
      * rewrite analyzeBatch_unfold. fold pushed. now rewrite Array_sort_Permutation.
      * rewrite analyzeBatch_unfold. exact Hp.
    + intros d1 d2 Hp Heq. apply Hstable; [exact Hp|]. rewrite Heq.
      destruct (score d2 <? score d2)%float eqn:Hlt; [|reflexivity].
      now rewrite (ltb_asym _ _ Hlt) in Hlt.
Qed.

(** C6 refuted as stated: of two connected adapters, the one whose metrics
    query fails gets no decision. *)
Lemma analyzeBatch_omits_failed_adapter :
  let r := routerOf
    [ stubAdapter ETHEREUM true (Resolved 100) (Resolved (stubMetrics 24 50))
        (Resolved (stubResult "0xe"));
      stubAdapter BSC true (Resolved 5) (Rejected (Thrown "getFeeData failed"))
        (Resolved (stubResult "0xb")) ] in
  map (fun entry => (fst entry, isConnected (snd entry))) (adapters r) =
    [(ETHEREUM, true); (BSC, true)] /\
  map decision_chainId (analyzeBatch r stubBatch) = [ETHEREUM].
Proof.
  vm_compute. split; reflexivity.
Qed.

(** Three connected chains with the same metrics, registered as Ethereum,
    BSC, Polygon, quoting the given costs. *)
Definition threeChains (costEth costBsc costPolygon : Z) : SettlementRouter :=
  routerOf
    [ stubAdapter ETHEREUM true (Resolved costEth) (Resolved (stubMetrics 24 50))
        (Resolved (stubResult "0xe"));
      stubAdapter BSC true (Resolved costBsc) (Resolved (stubMetrics 24 50))
        (Resolved (stubResult "0xb"));
      stubAdapter POLYGON true (Resolved costPolygon) (Resolved (stubMetrics 24 50))
        (Resolved (stubResult "0xp")) ].

(** Three scorable chains give three decisions; none of the scores is
    NaN, they are equal, and the decision for Ethereum, registered
    first, stays ahead of Polygon's. *)
Lemma analyzeBatch_spec_witness :
  length (analyzeBatch (threeChains 100 5 2) stubBatch) = 3%nat /\
  exists d1 d2,
    decision_chainId d1 = ETHEREUM /\ decision_chainId d2 = POLYGON /\
    precedes d1 d2 (analyzeBatch (threeChains 100 5 2) stubBatch) /\
    (score d2 <=? score d1)%float = true.
Proof.
  destruct (analyzeBatch_spec (threeChains 100 5 2) stubBatch)
    as (_ & _ & Hlen & Hranked).
  split; [rewrite Hlen; vm_compute; reflexivity|].
  set (pushed := omap (analyzeEntry stubBatch) (adapters (threeChains 100 5 2)))
    in Hranked.
  assert (Hp : exists d1 d2 d3, pushed = [d1; d2; d3] /\
            decision_chainId d1 = ETHEREUM /\ decision_chainId d3 = POLYGON /\
            score d1 = score d3 /\ Forall numbered pushed).
  { vm_compute. do 3 eexists. repeat split. repeat constructor. }
  destruct Hp as (d1 & d2 & d3 & Hp & H1 & H3 & Hs & Hnum).
  destruct (Hranked Hnum) as (Hsorted & _ & Hties).
  exists d1, d3. split; [exact H1|]. split; [exact H3|].
  assert (Hprec : precedes d1 d3 (analyzeBatch (threeChains 100 5 2) stubBatch)).
  { apply Hties; [|exact Hs]. exists [], [d2], []. exact Hp. }
  split; [exact Hprec | now apply Hsorted].
Defined.

(** A connected chain that quotes 16 hundredths of an ether, finalizes in
    24 seconds and reports the given load. *)
Definition loaded (c : ChainId) (load : float) : ChainAdapter :=
  stubAdapter c true (Resolved (16 * 10 ^ 16)) (Resolved (stubMetrics 24 load))
    (Resolved (stubResult "0x")).

(** With a score that is NaN the comparator is not consistent and the
    order is the one the steps of the sort happen to give: chains with
    loads 50, 40, NaN, 30 and 55, registered in this order, score 79.6,
    81.6, NaN, 83.6 and 78.6 and are ranked Arbitrum, BSC, Ethereum,
    Polygon, Optimism; with loads 50, NaN and 30 the ranking is the order
    of registration, the highest score last. *)
Example analyzeBatch_NaN_score :
  map decision_chainId
    (analyzeBatch
       (routerOf [loaded ETHEREUM 50; loaded BSC 40; loaded POLYGON nan;
                  loaded ARBITRUM 30; loaded OPTIMISM 55]) stubBatch)
  = [ARBITRUM; BSC; ETHEREUM; POLYGON; OPTIMISM] /\
  map decision_chainId
    (analyzeBatch
       (routerOf [loaded ETHEREUM 50; loaded BSC nan; loaded POLYGON 30]) stubBatch)
  = [ETHEREUM; BSC; POLYGON].
Proof.
  vm_compute. split; reflexivity.
Qed.

(** *** [CostOptimizedStrategy] *)

(** The cost an entry of the registry quotes, if it is connected and its
    estimate resolves. *)
Definition quoted (batch : BatchSubmission) (entry : ChainId * ChainAdapter)
  : option (ChainId * Z) :=
  if isConnected (snd entry) then
    match estimateGasCost (snd entry) batch with
    | Resolved cost => Some (fst entry, cost)
    | Rejected _ => None
    end
  else None.

Definition pick (best : option ChainId * Z) (quote : ChainId * Z) : option ChainId * Z :=
  if snd quote <? snd best then (Some (fst quote), snd quote) else best.

Lemma cheapestLoop_fold batch entries : forall cheapestChain lowestCost,
  cheapestLoop batch entries cheapestChain lowestCost =
  fst (fold_left pick (omap (quoted batch) entries) (cheapestChain, lowestCost)).
Proof.
  induction entries as [|[c a] rest IH]; intros best low; [reflexivity|].
  cbn [cheapestLoop omap list_omap]. unfold quoted at 1. cbn [fst snd].
  destruct (isConnected a); cbn [negb]; [|apply IH].
  destruct (estimateGasCost a batch) as [cost|]; [|apply IH].
  cbn [fold_left]. unfold pick at 2. cbn [fst snd].
  destruct (cost <? low); apply IH.
Qed.

Lemma pick_none quotes : forall best low,
  Forall (fun q => low <= snd q) quotes ->
  fold_left pick quotes (best, low) = (best, low).
Proof.
  induction quotes as [|[c k] quotes IH]; intros best low Hall; [reflexivity|].
  inversion Hall as [|? ? Hk Hrest]; subst. cbn in *. unfold pick at 2. cbn.
  destruct (k <? low) eqn:Hlt; [apply Z.ltb_lt in Hlt; lia | now apply IH].
Qed.

Lemma pick_first_minimum c cost before after : forall best low,
  cost < low ->
  Forall (fun q => cost < snd q) before ->
  Forall (fun q => cost <= snd q) after ->
  fold_left pick (before ++ (c, cost) :: after) (best, low) = (Some c, cost).
Proof.
  induction before as [|[c' k] before IH]; intros best low Hlow Hb Ha.
  - cbn. unfold pick at 2. cbn. apply Z.ltb_lt in Hlow. rewrite Hlow.
    now apply pick_none.
  - inversion Hb as [|? ? Hk Hrest]; subst. cbn in Hk. cbn [app fold_left].
    unfold pick at 2. cbn [fst snd].
    destruct (k <? low); apply IH; auto.
Qed.

(** Where some quote lies below the starting value 2^53 - 1, the strategy
    returns the first-registered chain among those quoting the least. *)
Lemma CostOptimized_below_sentinel batch entries c cost before after :
  omap (quoted batch) entries = before ++ (c, cost) :: after ->
  cost < MAX_SAFE_INTEGER ->
  Forall (fun q => cost < snd q) before ->
  Forall (fun q => cost <= snd q) after ->
  selectChain CostOptimizedStrategy batch entries =
    if ChainId_value c =? 0 then Rejected NoAvailableChains else Resolved c.
Proof.
  intros Hq Hlow Hb Ha. cbn. rewrite cheapestLoop_fold, Hq.
  rewrite (pick_first_minimum c cost before after); auto.
Qed.

(** Where no quote lies below 2^53 - 1, it raises [NoAvailableChains]. *)
Lemma CostOptimized_at_sentinel batch entries :
  Forall (fun q => MAX_SAFE_INTEGER <= snd q) (omap (quoted batch) entries) ->
  selectChain CostOptimizedStrategy batch entries = Rejected NoAvailableChains.
Proof.
  intros Hall. cbn. rewrite cheapestLoop_fold.
  now rewrite (pick_none _ None MAX_SAFE_INTEGER Hall).
Qed.

(** C7, the code at the failing inputs: a single connected chain quoting
    the adapters' fallback cost of 10^18 wei, and two connected chains
    quoting 0.02 and 0.01 ether, are each answered with
    [NoAvailableChains] instead of the cheapest chain. *)
Theorem CostOptimized_ignores_costs_from_sentinel :
  selectChain CostOptimizedStrategy stubBatch
    (adapters (routerOf
       [ stubAdapter ETHEREUM true (Resolved pessimisticCost)
           (Resolved (stubMetrics 24 50)) (Resolved (stubResult "0xe")) ]))
  = Rejected NoAvailableChains /\
  selectChain CostOptimizedStrategy stubBatch
    (adapters (routerOf
       [ stubAdapter ETHEREUM true (Resolved (2 * 10 ^ 16))
           (Resolved (stubMetrics 24 50)) (Resolved (stubResult "0xe"));
         stubAdapter BSC true (Resolved (10 ^ 16))
           (Resolved (stubMetrics 3 50)) (Resolved (stubResult "0xb")) ]))
  = Rejected NoAvailableChains.
Proof.
  split; apply CostOptimized_at_sentinel; vm_compute;
    repeat constructor; discriminate.
Qed.

(** *** The sub-scores *)

Lemma ltb_leb (a b : float) : (a <? b)%float = true -> (a <=? b)%float = true.
Proof.
  rewrite FloatAxioms.ltb_spec, FloatAxioms.leb_spec. unfold SFltb, SFleb.
  now destruct (SFcompare (Prim2SF a) (Prim2SF b)) as [[| |]|].
Qed.

(** [Math.max(0, Math.min(100, x))], the clamp both normalizers end with. *)
Definition clamp (x : float) : float := Math_max 0 (Math_min 100 x).

Lemma clamp_range x :
  is_nan x = false ->
  (0 <=? clamp x)%float = true /\ (clamp x <=? 100)%float = true.
Proof.
  intros Hx. unfold clamp, Math_min.
  change (is_nan 100) with false. rewrite Hx. cbn [orb].
  assert (Hm : exists m, (if (100 <? x)%float then 100%float
                          else if (x <? 100)%float then x
                          else if get_sign 100 then 100%float else x) = m /\
                         is_nan m = false /\ (m <=? 100)%float = true).
  { destruct (100 <? x)%float eqn:H1; [eexists; repeat split|].
    destruct (x <? 100)%float eqn:H2.
    - eexists; repeat split; [assumption | now apply ltb_leb].
    - change (get_sign 100) with false. cbn iota.
      eexists; repeat split; [assumption | now apply ltb_false_leb]. }
  destruct Hm as (m & -> & Hn & Hle). unfold Math_max.
  change (is_nan 0) with false. rewrite Hn. cbn [orb].
  destruct (0 <? m)%float eqn:H1; [split; [now apply ltb_leb | assumption]|].
  destruct (m <? 0)%float eqn:H2; [split; reflexivity|].
  change (get_sign 0) with false. cbn iota. split; reflexivity.
Qed.

(** The clamp of [normalizeCostScore] as a function of the quotient. *)
Definition clampedCostScore (q : Z) : float := clamp (100 - Number q)%float.

Lemma normalizeCostScore_quot cost :
  normalizeCostScore cost = clampedCostScore (Z.quot (cost * 100) maxCost).
Proof. reflexivity. Qed.

Definition percents : list Z := map Z.of_nat (seq 0 101).

Lemma percents_spec q : 0 <= q <= 100 -> In q percents.
Proof.
  intros H. unfold percents. rewrite <- (Z2Nat.id q) by lia.
  apply in_map, in_seq. lia.
Qed.

(** On the quotients 0, 1, ..., 100 the clamp is idle, the score is the
    whole number 100 - q, and it is not negative. *)
Lemma clampedCostScore_table q :
  0 <= q <= 100 ->
  clampedCostScore q = Number (100 - q) /\ (0 <=? clampedCostScore q)%float = true.
Proof.
  intros H. apply percents_spec in H.
  assert (Hall : forallb (fun q => PrimFloat.Leibniz.eqb (clampedCostScore q) (Number (100 - q))
                                   && (0 <=? clampedCostScore q)%float) percents = true)
    by (vm_compute; reflexivity).
  rewrite forallb_forall in Hall. apply Hall in H.
  apply andb_prop in H as [H1 H2]. split; [|exact H2].
  now apply FloatAxioms.Leibniz.eqb_spec.
Qed.

Lemma normalizeCostScore_in_range cost :
  0 <= cost <= maxCost ->
  normalizeCostScore cost = Number (100 - cost * 100 / maxCost) /\
  (0 <=? normalizeCostScore cost)%float = true.
Proof.
  intros H. rewrite normalizeCostScore_quot.
  assert (Hq : Z.quot (cost * 100) maxCost = cost * 100 / maxCost).
  { apply Z.quot_div_nonneg; unfold maxCost; lia. }
  rewrite Hq. apply clampedCostScore_table. unfold maxCost in *. split.
  - apply Z.div_pos; lia.
  - apply Z.div_le_upper_bound; lia.
Qed.

(** Between two quotients from 0 to 100 the greater has the lesser
    score. *)
Lemma clampedCostScore_strict q1 q2 :
  0 <= q1 <= 100 -> 0 <= q2 <= 100 ->
  (clampedCostScore q1 <? clampedCostScore q2)%float = (q2 <? q1).
Proof.
  intros H1 H2. apply percents_spec in H1, H2.
  assert (Hall : forallb (fun q1 =>
                   forallb (fun q2 =>
                     Bool.eqb (clampedCostScore q1 <? clampedCostScore q2)%float (q2 <? q1))
                     percents) percents = true)
    by (vm_compute; reflexivity).
  rewrite forallb_forall in Hall. apply Hall in H1.
  rewrite forallb_forall in H1. apply H1 in H2. now apply Bool.eqb_prop in H2.
Qed.

Lemma percent_in_range cost :
  0 <= cost <= maxCost -> 0 <= Z.quot (cost * 100) maxCost <= 100.
Proof.
  intros H. rewrite Z.quot_div_nonneg by (unfold maxCost; lia).
  unfold maxCost in *. split.
  - apply Z.div_pos; lia.
  - apply Z.div_le_upper_bound; lia.
Qed.

(** C8, as the code has it.  The cost sub-score is
    [clamp(100 - q, 0, 100)] for the bigint quotient
    [q = 100 * cost / maxCost], [maxCost = 10^18]: on costs from 0 to
    [maxCost] the whole number [100 - floor(100 * cost / maxCost)], so 100
    at cost 0 and 0 at [maxCost]; the time sub-score is
    [clamp(100 - time / maxTime * 100, 0, 100)] with [maxTime = 300], 100
    at time 0 and 0 at [maxTime]; both lie between 0 and 100 unless the
    clamped number is NaN; every decision of [analyzeBatch] carries
    [0.5 * costScore + 0.3 * timeScore + 0.2 * loadScore].  Costs with
    the same quotient [q] have the same cost sub-score and the same
    Balanced score, and of two costs from 0 to [maxCost] one has the
    strictly greater cost sub-score exactly when its quotient is the
    smaller.  So for costs 100, 5 and 2 wei, all of quotient 0, the three
    Balanced scores are equal whatever the metrics; for costs of 100, 5
    and 2 hundredths of an ether, with the time and load of the example,
    [BalancedStrategy] selects the cost-2 chain and [analyzeBatch] ranks
    it first. *)
Theorem score_arithmetic :
  (forall cost, 0 <= cost <= maxCost ->
     normalizeCostScore cost = Number (100 - cost * 100 / maxCost)) /\
  normalizeCostScore 0 = 100%float /\
  normalizeCostScore maxCost = 0%float /\
  normalizeTimeScore 0 = 100%float /\
  normalizeTimeScore maxTime = 0%float /\
  (forall cost,
     normalizeCostScore cost = clamp (100 - Number (Z.quot (cost * 100) maxCost))%float /\
     (is_nan (100 - Number (Z.quot (cost * 100) maxCost)) = false ->
      (0 <=? normalizeCostScore cost)%float = true /\
      (normalizeCostScore cost <=? 100)%float = true)) /\
  (forall time,
     normalizeTimeScore time = clamp (100 - time / maxTime * 100)%float /\
     (is_nan (100 - time / maxTime * 100) = false ->
      (0 <=? normalizeTimeScore time)%float = true /\
      (normalizeTimeScore time <=? 100)%float = true)) /\
  (forall r batch d, d ∈ analyzeBatch r batch ->
     exists c a cost metrics,
       (c, a) ∈ adapters r /\
       estimateGasCost a batch = Resolved cost /\ getMetrics a = Resolved metrics /\
       score d = (normalizeCostScore cost * 0.5
                  + normalizeTimeScore (finalizationTime metrics) * 0.3
                  + (100 - chainLoad metrics) * 0.2)%float) /\
  (forall cost1 cost2 metrics,
     Z.quot (cost1 * 100) maxCost = Z.quot (cost2 * 100) maxCost ->
     normalizeCostScore cost1 = normalizeCostScore cost2 /\
     balancedScore cost1 metrics = balancedScore cost2 metrics) /\
  (forall cost1 cost2,
     0 <= cost1 <= maxCost -> 0 <= cost2 <= maxCost ->
     (normalizeCostScore cost1 <? normalizeCostScore cost2)%float =
     (Z.quot (cost2 * 100) maxCost <? Z.quot (cost1 * 100) maxCost)) /\
  (forall metrics,
     balancedScore 100 metrics = balancedScore 2 metrics /\
     balancedScore 5 metrics = balancedScore 2 metrics) /\
  selectChain BalancedStrategy stubBatch
    (adapters (threeChains (100 * 10 ^ 16) (5 * 10 ^ 16) (2 * 10 ^ 16)))
  = Resolved POLYGON /\
  map decision_chainId
    (analyzeBatch (threeChains (100 * 10 ^ 16) (5 * 10 ^ 16) (2 * 10 ^ 16)) stubBatch)
  = [POLYGON; BSC; ETHEREUM].
Proof.
  split; [intros cost H; now apply normalizeCostScore_in_range|].
  do 4 (split; [vm_compute; reflexivity|]).
  split; [intros cost; split; [reflexivity | apply clamp_range]|].
  split; [intros time; split; [reflexivity | apply clamp_range]|].
  split; [|split; [|split; [|split; [|split; vm_compute; reflexivity]]]].
  - intros r batch d Hd. rewrite analyzeBatch_unfold, Array_sort_Permutation in Hd.
    apply list_elem_of_omap in Hd as ([c a] & Hin & Hd).
    apply analyzeEntry_Some in Hd as (_ & _ & cost & metrics & Hc & Hm & _ & _ & Hs).
    exists c, a, cost, metrics. auto.
  - intros cost1 cost2 metrics Hq.
    assert (Hc : normalizeCostScore cost1 = normalizeCostScore cost2)
      by (rewrite !normalizeCostScore_quot; now rewrite Hq).
    split; [exact Hc|]. unfold balancedScore. now rewrite Hc.
  - intros cost1 cost2 H1 H2. rewrite !normalizeCostScore_quot.
    apply clampedCostScore_strict; now apply percent_in_range.
  - intros metrics. split; reflexivity.
Qed.

(** C8 refuted as stated: with costs 100, 5 and 2 on Ethereum, BSC and
    Polygon and equal time and load, the cost-2 chain's Balanced score is
    the cost-100 chain's, not above it; [BalancedStrategy] selects the
    cost-100 chain and [analyzeBatch] ranks the cost-2 chain last. *)
Lemma balanced_does_not_prefer_cost_2 :
  balancedScore 2 (stubMetrics 24 50) = balancedScore 100 (stubMetrics 24 50) /\
  (balancedScore 100 (stubMetrics 24 50) <? balancedScore 2 (stubMetrics 24 50))%float
    = false /\
  selectChain BalancedStrategy stubBatch (adapters (threeChains 100 5 2))
    = Resolved ETHEREUM /\
  map decision_chainId (analyzeBatch (threeChains 100 5 2) stubBatch)
    = [ETHEREUM; BSC; POLYGON].
Proof.
  vm_compute. repeat split.
Qed.

(** *** [EthereumAdapter.estimateGasCost] *)

(** C10, as the code has it.  On an adapter that holds its settlement
    contract, [estimateGasCost] never throws: when encoding the batch, the
    gas estimate or the gas price fails it returns the constant 10^18,
    whose cost sub-score is 0, the least a cost between 0 and [maxCost]
    can get; otherwise it returns gas estimate times gas price.  On an
    adapter without the contract it throws "not connected". *)
Theorem estimateGasCost_spec (a : EthereumAdapter) (batch : BatchSubmission) :
  (forall c, settlementContract a = Some c ->
     (forall error, estimateGasCost_try a c batch = Rejected error ->
        EthereumAdapter_estimateGasCost a batch = Resolved pessimisticCost) /\
     (forall cost, estimateGasCost_try a c batch = Resolved cost ->
        EthereumAdapter_estimateGasCost a batch = Resolved cost) /\
     (forall error,
        encode a batch = Rejected error \/
        (exists data, encode a batch = Resolved data /\
           submitBatch_estimateGas c (batchIndex batch) (batchRoot batch) data
             = Rejected error) \/
        (exists data gas, encode a batch = Resolved data /\
           submitBatch_estimateGas c (batchIndex batch) (batchRoot batch) data
             = Resolved gas /\
           getCurrentGasPrice a = Rejected error) ->
        estimateGasCost_try a c batch = Rejected error)) /\
  (settlementContract a = None ->
     EthereumAdapter_estimateGasCost a batch = Rejected (notConnected a)) /\
  normalizeCostScore pessimisticCost = 0%float /\
  (forall cost, 0 <= cost <= maxCost ->
     (normalizeCostScore pessimisticCost <=? normalizeCostScore cost)%float = true).
Proof.
  split; [|split; [|split]].
  - intros c Hc. unfold EthereumAdapter_estimateGasCost. rewrite Hc.
    split; [|split].
    + intros error ->. reflexivity.
    + intros cost ->. reflexivity.
    + intros error [H | [(data & He & H) | (data & gas & He & Hg & H)]];
        unfold estimateGasCost_try.
      * now rewrite H.
      * now rewrite He, H.
      * now rewrite He, Hg, H.
  - intros Hc. unfold EthereumAdapter_estimateGasCost. now rewrite Hc.
  - vm_compute. reflexivity.
  - intros cost H. apply normalizeCostScore_in_range in H as [_ H].
    change (normalizeCostScore pessimisticCost) with 0%float. exact H.
Qed.

(** An adapter connected to a node whose fee query fails. *)
Definition feeless : EthereumAdapter :=
  mkEthereumAdapter (stubConfig ETHEREUM) true
    (Some (mkProvider (Rejected (Thrown "getFeeData failed"))))
    (Some (mkContract (fun _ _ _ => Resolved 21000)))
    (fun _ => Resolved "0xdata"%string).

(** The same adapter before [connect()]. *)
Definition unconnected : EthereumAdapter :=
  mkEthereumAdapter (stubConfig ETHEREUM) false None None
    (fun _ => Resolved "0xdata"%string).

Lemma estimateGasCost_spec_witness :
  EthereumAdapter_estimateGasCost feeless stubBatch = Resolved (10 ^ 18).
Proof.
  destruct (estimateGasCost_spec feeless stubBatch) as (Hconn & _).
  destruct (Hconn (mkContract (fun _ _ _ => Resolved 21000)) eq_refl) as (Hfail & _).
  apply (Hfail (Thrown "getFeeData failed")). reflexivity.
Defined.

(** C10 refuted as stated: on an adapter that was never connected the
    estimate fails and the failure reaches the caller. *)
Lemma estimateGasCost_throws_unconnected :
  settlementContract unconnected = None /\
  EthereumAdapter_estimateGasCost unconnected stubBatch
    = Rejected (NotConnected "stub").
Proof.
  split; reflexivity.
Qed.

(** *** [submitBatchWithFailover] *)

(** What the adapter registered for chain [c] answers to the next
    [submitBatch] the router makes on it. *)
Definition answer (r : SettlementRouter) (batch : BatchSubmission) (c : ChainId)
  : Promise SettlementResult :=
  match Map_get c (adapters r) with
  | Some a => submitBatch a (count_occ ChainId_eq_dec (submitLog r) c) batch
  | None => Rejected (NoAdapterFound c)
  end.

Definition throws {A} (p : Promise A) : Prop := exists error, p = Rejected error.

(** The router after one more recorded attempt on each of [chains]. *)
Definition attempted (chains : list ChainId) (r : SettlementRouter) : SettlementRouter :=
  with_submitLog (submitLog r ++ chains) r.

(** The router after a successful submission on [c]. *)
Definition settled (c : ChainId) (result : SettlementResult) (r : SettlementRouter)
  : SettlementRouter :=
  with_stats (updateStats c result (stats r)) r.

Definition usable (r : SettlementRouter) (c : ChainId) : Prop :=
  exists a, Map_get c (adapters r) = Some a /\ isConnected a = true.

Lemma Map_get_In {V} (m : JsMap V) k v :
  NoDup (map fst m) -> In (k, v) m -> Map_get k m = Some v.
Proof.
  induction m as [|[k' v'] m IH]; intros Hnd Hin; [destruct Hin|].
  cbn in *. apply NoDup_cons in Hnd as [Hk Hnd].
  destruct Hin as [[= -> ->]|Hin].
  - now rewrite decide_True.
  - rewrite decide_False; [now apply IH|].
    intros ->. apply Hk. apply list_elem_of_In.
    change k' with (fst (k', v)). now apply in_map.
Qed.

(** With no retries [submitToChain] asks the adapter once. *)
Lemma submitToChain_once r batch c :
  usable r c ->
  submitToChain batch c 0 r =
    match answer r batch c with
    | Resolved result => (Resolved result, settled c result (attempted [c] r))
    | Rejected error => (Rejected (SubmitFailed 1 error), attempted [c] r)
    end.
Proof.
  intros (a & Ha & Hc). unfold submitToChain, answer. rewrite Ha, Hc. cbn.
  destruct (submitBatch a _ batch); reflexivity.
Qed.

Lemma answer_attempted r batch c chains :
  ~ In c chains -> answer (attempted chains r) batch c = answer r batch c.
Proof.
  intros Hc. unfold answer, attempted. cbn.
  rewrite count_occ_app, (proj1 (count_occ_not_In _ chains c) Hc).
  now rewrite Nat.add_0_r.
Qed.

Lemma attempted_app chains more r :
  attempted more (attempted chains r) = attempted (chains ++ more) r.
Proof.
  unfold attempted, with_submitLog. cbn. now rewrite <- app_assoc.
Qed.

Lemma failoverLoop_all_throw batch decisions : forall r,
  let chains := map decision_chainId decisions in
  Forall (usable r) chains ->
  NoDup chains ->
  Forall (fun c => throws (answer r batch c)) chains ->
  failoverLoop batch decisions r = (Rejected AllChainsFailed, attempted chains r).
Proof.
  induction decisions as [|d ds IH]; intros r chains Hu Hnd Hall; subst chains.
  - cbn. unfold attempted, with_submitLog. rewrite app_nil_r. now destruct r.
  - cbn [map] in *. apply NoDup_cons in Hnd as [Hd Hnd].
    inversion Hu as [|? ? Hud Hus]; subst.
    inversion Hall as [|? ? [err Herr] Hrest]; subst.
    cbn [failoverLoop]. rewrite (submitToChain_once _ _ _ Hud), Herr.
    rewrite IH; [now rewrite attempted_app| exact Hus | exact Hnd |].
    rewrite Forall_forall in Hrest |- *. intros c Hc.
    rewrite answer_attempted; [now apply Hrest|].
    intros [<-|[]]. apply Hd. now apply list_elem_of_In.
Qed.

Lemma failoverLoop_first_success batch decisions : forall r failed c rest result,
  map decision_chainId decisions = failed ++ c :: rest ->
  Forall (usable r) (failed ++ [c]) ->
  NoDup (failed ++ [c]) ->
  Forall (fun c' => throws (answer r batch c')) failed ->
  answer r batch c = Resolved result ->
  failoverLoop batch decisions r =
    (Resolved result, settled c result (attempted (failed ++ [c]) r)).
Proof.
  induction decisions as [|d ds IH]; intros r failed c rest result Hmap Hu Hnd Hall Hok.
  - destruct failed; discriminate.
  - cbn [map] in Hmap. destruct failed as [|f failed]; cbn [app] in *.
    + injection Hmap as Hd _. inversion Hu as [|? ? Huc _]; subst.
      cbn [failoverLoop]. rewrite (submitToChain_once _ _ _ Huc), Hok. reflexivity.
    + injection Hmap as Hd Hmap. apply NoDup_cons in Hnd as [Hf Hnd].
      inversion Hu as [|? ? Huf Hus]; subst.
      inversion Hall as [|? ? [err Herr] Hrest]; subst.
      cbn [failoverLoop]. rewrite (submitToChain_once _ _ _ Huf), Herr.
      assert (Hsame : forall c', In c' (failed ++ [c]) ->
                answer (attempted [decision_chainId d] r) batch c' = answer r batch c').
      { intros c' Hc'. apply answer_attempted. intros [<-|[]].
        apply Hf. now apply list_elem_of_In. }
      rewrite (IH _ failed c rest result Hmap);
        [rewrite attempted_app; reflexivity | exact Hus | exact Hnd | |].
      * rewrite Forall_forall in Hrest |- *. intros c' Hc'.
        rewrite Hsame; [now apply Hrest|].
        apply in_or_app; left. now apply list_elem_of_In.
      * rewrite Hsame; [exact Hok | apply in_or_app; right; now left].
Qed.

Lemma filter_keys_NoDup {V} (P : ChainId * V -> Prop) `{forall x, Decision (P x)}
    (m : JsMap V) :
  NoDup (map fst m) -> NoDup (map fst (filter P m)).
Proof.
  induction m as [|[k v] m IH]; intros Hnd; [constructor|].
  cbn in Hnd. apply NoDup_cons in Hnd as [Hk Hnd]. rewrite filter_cons.
  destruct (decide (P (k, v))); [|now apply IH].
  cbn. apply NoDup_cons. split; [|now apply IH].
  intros Hin. apply Hk. apply list_elem_of_In in Hin. apply list_elem_of_In.
  apply in_map_iff in Hin as ([k' v'] & <- & Hin). apply in_map.
  apply list_elem_of_In in Hin. apply list_elem_of_In.
  now apply list_elem_of_filter in Hin as [_ Hin].
Qed.

(** Registering keeps every chain id at one entry of the registry. *)
Lemma Map_set_keys {V} (k : ChainId) (v : V) (m : JsMap V) :
  map fst (Map_set k v m) =
  if decide (k ∈ map fst m) then map fst m else map fst m ++ [k].
Proof.
  induction m as [|[k' v'] m IH]; cbn.
  - rewrite decide_False; [reflexivity | apply not_elem_of_nil].
  - destruct (decide (k = k')) as [->|Hne]; cbn.
    + rewrite decide_True; [reflexivity | apply list_elem_of_here].
    + rewrite IH. destruct (decide (k ∈ map fst m)) as [Hin|Hin].
      * rewrite decide_True; [reflexivity | now apply list_elem_of_further].
      * rewrite decide_False; [reflexivity|].
        intros Hin'. apply elem_of_cons in Hin' as [Heq|Hin']; congruence.
Qed.

Lemma registerAdapter_NoDup (a : ChainAdapter) (r : SettlementRouter) :
  NoDup (map fst (adapters r)) -> NoDup (map fst (adapters (registerAdapter a r))).
Proof.
  intros Hnd. unfold registerAdapter. cbn. rewrite Map_set_keys.
  destruct (decide (chainId a ∈ map fst (adapters r))) as [|Hin]; [assumption|].
  apply NoDup_app. split; [assumption|]. split; [|apply NoDup_singleton].
  intros k Hk Hk'. apply list_elem_of_singleton in Hk'. now subst k.
Qed.

Lemma routerOf_NoDup (l : list ChainAdapter) :
  NoDup (map fst (adapters (routerOf l))).
Proof.
  unfold routerOf.
  assert (H : forall r0, NoDup (map fst (adapters r0)) ->
            NoDup (map fst (adapters (fold_left (fun r a => registerAdapter a r) l r0)))).
  { induction l as [|a l IH]; intros r0 H0; cbn; [assumption|].
    apply IH. now apply registerAdapter_NoDup. }
  apply H. constructor.
Qed.

Section Ranking.
Variables (r : SettlementRouter) (batch : BatchSubmission).
Hypothesis registered_once : NoDup (map fst (adapters r)).

Lemma ranked_NoDup : NoDup (map decision_chainId (analyzeBatch r batch)).
Proof using registered_once.
  rewrite analyzeBatch_unfold.
  rewrite (Permutation_map decision_chainId (Array_sort_Permutation _ _)).
  rewrite scored_chainIds. now apply filter_keys_NoDup.
Qed.

Lemma ranked_usable : Forall (usable r) (map decision_chainId (analyzeBatch r batch)).
Proof using registered_once.
  apply Forall_forall. intros c Hc. apply list_elem_of_In in Hc.
  apply in_map_iff in Hc as (d & <- & Hd). apply list_elem_of_In in Hd.
  rewrite analyzeBatch_unfold, Array_sort_Permutation in Hd.
  apply list_elem_of_omap in Hd as ([c a] & Hin & Hd).
  apply analyzeEntry_Some in Hd as (Hs & -> & _).
  exists a. split.
  - apply Map_get_In; [assumption | now apply list_elem_of_In].
  - unfold scorable in Hs. now destruct (isConnected a).
Qed.
End Ranking.

(** A registry keyed by chain id has at most six entries, and the array
    [analyzeBatch] sorts is no longer: the sort never gets to merge
    runs. *)
Lemma ranking_short r batch :
  NoDup (map fst (adapters r)) ->
  (length (analyzeLoop batch (adapters r) []) <= 6)%nat.
Proof.
  intros Hnd. rewrite analyzeLoop_omap. cbn [app].
  rewrite <- (length_map decision_chainId), scored_chainIds.
  pose proof (filter_keys_NoDup (fun entry => scorable batch (snd entry) = true)
                (adapters r) Hnd) as Hnd'.
  apply (submseteq_length _ [ETHEREUM; BSC; POLYGON; ARBITRUM; OPTIMISM; BASE]).
  apply NoDup_submseteq; [exact Hnd'|].
  intros c _. destruct c; set_solver.
Qed.

(** C9, as the code has it.  With every chain registered once:
    [submitBatchWithFailover] walks the ranking of [analyzeBatch] from the
    top, asks each chain's adapter once, and returns the first answer that
    is not a throw, having asked exactly the chains ranked above it and
    it, in that order; so with three ranked chains, the first throwing and
    the second answering, the result is the second's.  If every ranked
    chain throws, each has been asked once, in ranking order, and
    [AllChainsFailed] is raised.  (With an empty ranking nothing is asked
    and [NoAvailableChains] is raised.)  When no score is NaN the ranking
    is in descending order of score: the chain that settles the batch
    scores at most what each chain asked before it scores, and at least
    what each chain left unasked scores. *)
Theorem submitBatchWithFailover_spec (r : SettlementRouter) (batch : BatchSubmission) :
  NoDup (map fst (adapters r)) ->
  let decisions := analyzeBatch r batch in
  let ranked := map decision_chainId decisions in
  (forall failed c rest result,
     ranked = failed ++ c :: rest ->
     Forall (fun c' => throws (answer r batch c')) failed ->
     answer r batch c = Resolved result ->
     submitBatchWithFailover batch r =
       (Resolved result, settled c result (attempted (failed ++ [c]) r))) /\
  (forall first second third result,
     ranked = [first; second; third] ->
     throws (answer r batch first) ->
     answer r batch second = Resolved result ->
     fst (submitBatchWithFailover batch r) = Resolved result /\
     submitLog (snd (submitBatchWithFailover batch r)) = submitLog r ++ [first; second]) /\
  (ranked <> [] ->
   Forall (fun c => throws (answer r batch c)) ranked ->
   submitBatchWithFailover batch r = (Rejected AllChainsFailed, attempted ranked r)) /\
  (ranked = [] ->
   submitBatchWithFailover batch r = (Rejected NoAvailableChains, r)) /\
  (Forall numbered decisions ->
   (forall d1 d2,
      precedes d1 d2 decisions -> (score d2 <=? score d1)%float = true) /\
   (forall failed d rest result,
      decisions = failed ++ d :: rest ->
      Forall (fun d' => throws (answer r batch (decision_chainId d'))) failed ->
      answer r batch (decision_chainId d) = Resolved result ->
      fst (submitBatchWithFailover batch r) = Resolved result /\
      submitLog (snd (submitBatchWithFailover batch r)) =
        submitLog r ++ map decision_chainId failed ++ [decision_chainId d] /\
      Forall (fun d' => (score d <=? score d')%float = true) failed /\
      Forall (fun d' => (score d' <=? score d)%float = true) rest)).
Proof.
  intros Hnd decisions ranked.
  pose proof (ranked_NoDup r batch Hnd) as Hrnd.
  pose proof (ranked_usable r batch Hnd) as Hru.
  fold decisions in Hrnd, Hru. fold ranked in Hrnd, Hru.
  assert (Hloop : ranked <> [] ->
            submitBatchWithFailover batch r = failoverLoop batch decisions r).
  { unfold submitBatchWithFailover, ranked, decisions.
    destruct (analyzeBatch r batch); cbn; [congruence | reflexivity]. }
  assert (Hfirst : forall failed c rest result,
     ranked = failed ++ c :: rest ->
     Forall (fun c' => throws (answer r batch c')) failed ->
     answer r batch c = Resolved result ->
     submitBatchWithFailover batch r =
       (Resolved result, settled c result (attempted (failed ++ [c]) r))).
  { intros failed c rest result Hr Hfail Hok.
    rewrite Hloop by (rewrite Hr; now destruct failed).
    apply (failoverLoop_first_success batch _ r failed c rest result Hr);
      [| | assumption | assumption].
    - rewrite Hr in Hru. change (c :: rest) with ([c] ++ rest) in Hru.
      rewrite app_assoc in Hru. now apply Forall_app in Hru as [Hru _].
    - rewrite Hr in Hrnd. change (c :: rest) with ([c] ++ rest) in Hrnd.
      rewrite app_assoc in Hrnd. now apply NoDup_app in Hrnd as [Hrnd _]. }
  split; [exact Hfirst|]. split; [|split; [|split]].
  - intros first second third result Hr Hthrow Hok.
    rewrite (Hfirst [first] second [third] result Hr); [now split | | exact Hok].
    now constructor.
  - intros Hne Hall. rewrite (Hloop Hne).
    now apply failoverLoop_all_throw.
  - unfold ranked, decisions, submitBatchWithFailover.
    destruct (analyzeBatch r batch); [reflexivity | discriminate].
  - intros Hnum.
    pose proof (ranking_descending r batch Hnum) as Hdesc. fold decisions in Hdesc.
    split; [exact Hdesc|].
    intros failed d rest result Hd Hfail Hok.
    rewrite (Hfirst (map decision_chainId failed) (decision_chainId d)
               (map decision_chainId rest) result);
      [| unfold ranked; rewrite Hd, map_app; reflexivity
       | now apply Forall_map | exact Hok].
    split; [reflexivity|]. split; [reflexivity|].
    split; apply Forall_forall; intros d' Hd'; apply Hdesc; rewrite Hd;
      apply list_elem_of_split in Hd' as (k1 & k2 & ->).
    + exists k1, k2, rest. now rewrite <- app_assoc.
    + exists failed, k1, k2. reflexivity.
Qed.

(** Polygon ranks first and throws on submission, BSC ranks second and
    settles, Ethereum ranks last and is never asked. *)
Definition failoverRouter : SettlementRouter :=
  routerOf
    [ stubAdapter ETHEREUM true (Resolved (100 * 10 ^ 16)) (Resolved (stubMetrics 24 50))
        (Resolved (stubResult "0xe"));
      stubAdapter BSC true (Resolved (5 * 10 ^ 16)) (Resolved (stubMetrics 24 50))
        (Resolved (stubResult "0xb"));
      stubAdapter POLYGON true (Resolved (2 * 10 ^ 16)) (Resolved (stubMetrics 24 50))
        (Rejected (Thrown "nonce too low")) ].

Lemma submitBatchWithFailover_spec_witness :
  map decision_chainId (analyzeBatch failoverRouter stubBatch) = [POLYGON; BSC; ETHEREUM] /\
  fst (submitBatchWithFailover stubBatch failoverRouter) = Resolved (stubResult "0xb") /\
  submitLog (snd (submitBatchWithFailover stubBatch failoverRouter)) = [POLYGON; BSC] /\
  exists d1 d2 d3,
    analyzeBatch failoverRouter stubBatch = [d1; d2; d3] /\
    (score d2 <=? score d1)%float = true /\ (score d3 <=? score d2)%float = true.
Proof.
  assert (Hnd : NoDup (map fst (adapters failoverRouter))) by compute_done.
  destruct (submitBatchWithFailover_spec failoverRouter stubBatch Hnd)
    as (_ & Hthree & _ & _ & Hscore).
  split; [vm_compute; reflexivity|].
  assert (Hnum : Forall numbered (analyzeBatch failoverRouter stubBatch))
    by (vm_compute; repeat constructor).
  destruct (Hscore Hnum) as [Hdesc _].
  destruct (Hthree POLYGON BSC ETHEREUM (stubResult "0xb")) as [Hresult Hlog].
  - vm_compute. reflexivity.
  - exists (Thrown "nonce too low"). vm_compute. reflexivity.
  - vm_compute. reflexivity.
  - split; [exact Hresult|]. split; [exact Hlog|].
    assert (Hranked : exists d1 d2 d3, analyzeBatch failoverRouter stubBatch = [d1; d2; d3])
      by (vm_compute; do 3 eexists; reflexivity).
    destruct Hranked as (d1 & d2 & d3 & Hranked).
    exists d1, d2, d3. split; [exact Hranked|].
    split; apply Hdesc; rewrite Hranked.
    + now exists [], [], [d3].
    + now exists [d1], [], [].
Defined.

(** C9 refuted as stated: Ethereum, BSC and Polygon, registered in this
    order, score 79.6, NaN and 83.6; the ranking is Ethereum, BSC, Polygon,
    and the batch is settled on Ethereum, the chain of the least score,
    without Polygon being asked. *)
Definition unrankedRouter : SettlementRouter :=
  routerOf
    [ stubAdapter ETHEREUM true (Resolved (16 * 10 ^ 16)) (Resolved (stubMetrics 24 50))
        (Resolved (stubResult "0xe"));
      stubAdapter BSC true (Resolved (16 * 10 ^ 16)) (Resolved (stubMetrics 24 nan))
        (Resolved (stubResult "0xb"));
      stubAdapter POLYGON true (Resolved (16 * 10 ^ 16)) (Resolved (stubMetrics 24 30))
        (Resolved (stubResult "0xp")) ].

Lemma submitBatchWithFailover_not_by_score :
  match analyzeBatch unrankedRouter stubBatch with
  | [d1; d2; d3] =>
      decision_chainId d1 = ETHEREUM /\ decision_chainId d2 = BSC /\
      decision_chainId d3 = POLYGON /\
      (score d1 <? score d3)%float = true /\ is_nan (score d2) = true
  | _ => False
  end /\
  fst (submitBatchWithFailover stubBatch unrankedRouter) = Resolved (stubResult "0xe") /\
  submitLog (snd (submitBatchWithFailover stubBatch unrankedRouter)) = [ETHEREUM].
Proof.
  vm_compute. repeat split.
Qed.

(** *** Choosing the first best quote

    The three strategies walk the registry once, keeping the chain whose
    quote is strictly better than the best seen so far. *)

Section FirstBest.
Context {T : Type} (lt le : T -> T -> bool).

Definition pickBy (best : option ChainId * T) (quote : ChainId * T)
  : option ChainId * T :=
  if lt (snd quote) (snd best) then (Some (fst quote), snd quote) else best.

Hypothesis lt_trans : forall a b c, lt a b = true -> lt b c = true -> lt a c = true.
Hypothesis le_lt_trans : forall a b c, le a b = true -> lt b c = true -> lt a c = true.
Hypothesis lt_not_le : forall a b, lt a b = true -> le b a = false.

Lemma pickBy_spec quotes : forall best low,
  (fold_left pickBy quotes (best, low) = (best, low) /\
   Forall (fun q => lt (snd q) low = false) quotes) \/
  (exists c t before after,
     fold_left pickBy quotes (best, low) = (Some c, t) /\
     quotes = before ++ (c, t) :: after /\
     lt t low = true /\
     Forall (fun q => le (snd q) t = false) before /\
     Forall (fun q => lt (snd q) t = false) after).
Proof using lt_trans le_lt_trans lt_not_le.
  induction quotes as [|[cq tq] quotes IH]; intros best low.
  - left. split; [reflexivity | constructor].
  - cbn [fold_left]. unfold pickBy at 2 4. cbn [fst snd].
    destruct (lt tq low) eqn:Hq.
    + right. destruct (IH (Some cq) tq) as [[Hr Hall] | (c & t & before & after & Hr & Hs & Hlt & Hb & Ha)].
      * exists cq, tq, [], quotes. repeat split; auto.
      * exists c, t, ((cq, tq) :: before), after.
        split; [exact Hr|]. split; [now rewrite Hs|].
        split; [eapply lt_trans; eauto|]. split; [|exact Ha].
        constructor; [|exact Hb]. cbn. now apply lt_not_le.
    + destruct (IH best low) as [[Hr Hall] | (c & t & before & after & Hr & Hs & Hlt & Hb & Ha)].
      * left. split; [exact Hr|]. constructor; assumption.
      * right. exists c, t, ((cq, tq) :: before), after.
        split; [exact Hr|]. split; [now rewrite Hs|].
        split; [exact Hlt|]. split; [|exact Ha].
        constructor; [|exact Hb]. cbn.
        destruct (le tq t) eqn:Hle; [|reflexivity].
        rewrite (le_lt_trans _ _ _ Hle Hlt) in Hq. discriminate.
Qed.
End FirstBest.

Lemma orThrowNoChains_Some c : orThrowNoChains (Some c) = Resolved c.
Proof. now destruct c. Qed.

(** What a strategy returns, given the quotes it compares, the starting
    value [worst] and its [pickBy] fold. *)
Lemma firstBest_outcome {T} (lt le : T -> T -> bool) (quotes : list (ChainId * T))
    (worst : T) :
  (forall a b c, lt a b = true -> lt b c = true -> lt a c = true) ->
  (forall a b c, le a b = true -> lt b c = true -> lt a c = true) ->
  (forall a b, lt a b = true -> le b a = false) ->
  match orThrowNoChains (fst (fold_left (pickBy lt) quotes (None, worst))) with
  | Resolved c =>
      exists t before after,
        quotes = before ++ (c, t) :: after /\
        lt t worst = true /\
        Forall (fun q => le (snd q) t = false) before /\
        Forall (fun q => lt (snd q) t = false) after
  | Rejected error =>
      error = NoAvailableChains /\ Forall (fun q => lt (snd q) worst = false) quotes
  end.
Proof.
  intros H1 H2 H3.
  destruct (pickBy_spec lt le H1 H2 H3 quotes None worst)
    as [[-> Hall] | (c & t & before & after & -> & Hs & Hlt & Hb & Ha)].
  - cbn. auto.
  - cbn [fst]. rewrite orThrowNoChains_Some. exists t, before, after. auto.
Qed.

(** **** [CostOptimizedStrategy] *)

Lemma pickBy_ltb : pickBy Z.ltb = pick.
Proof. reflexivity. Qed.

(** X12.  [CostOptimizedStrategy] returns the first-registered of the connected
    chains with the least quote, if that quote is below 2^53 - 1, and
    raises "No available chains" if no quote is. *)
Theorem CostOptimized_first_cheapest (batch : BatchSubmission)
    (entries : JsMap ChainAdapter) :
  match selectChain CostOptimizedStrategy batch entries with
  | Resolved c =>
      exists cost before after,
        omap (quoted batch) entries = before ++ (c, cost) :: after /\
        cost < MAX_SAFE_INTEGER /\
        Forall (fun q => cost < snd q) before /\
        Forall (fun q => cost <= snd q) after
  | Rejected error =>
      error = NoAvailableChains /\
      Forall (fun q => MAX_SAFE_INTEGER <= snd q) (omap (quoted batch) entries)
  end.
Proof.
  cbn [selectChain CostOptimizedStrategy]. rewrite cheapestLoop_fold, <- pickBy_ltb.
  pose proof (firstBest_outcome Z.ltb Z.leb (omap (quoted batch) entries) MAX_SAFE_INTEGER)
    as H.
  destruct (orThrowNoChains _) as [c|error].
  - destruct H as (t & before & after & Hs & Hlt & Hb & Ha); try (intros; lia).
    exists t, before, after. split; [exact Hs|]. split; [lia|]. split.
    + eapply Forall_impl; [exact Hb|]. cbn. intros q Hq. lia.
    + eapply Forall_impl; [exact Ha|]. cbn. intros q Hq. lia.
  - destruct H as (-> & Hall); try (intros; lia). split; [reflexivity|].
    eapply Forall_impl; [exact Hall|]. cbn. intros q Hq. lia.
Qed.

(** **** [SpeedOptimizedStrategy] *)

(** The finalization time an entry of the registry reports, if it is
    connected and the query resolves. *)
Definition timed (entry : ChainId * ChainAdapter) : option (ChainId * float) :=
  if isConnected (snd entry) then
    match getFinalizationTime (snd entry) with
    | Resolved time => Some (fst entry, time)
    | Rejected _ => None
    end
  else None.

Lemma fastestLoop_fold entries : forall fastestChain shortestTime,
  fastestLoop entries fastestChain shortestTime =
  fst (fold_left (pickBy PrimFloat.ltb) (omap timed entries) (fastestChain, shortestTime)).
Proof.
  induction entries as [|[c a] rest IH]; intros best low; [reflexivity|].
  cbn [fastestLoop omap list_omap]. unfold timed at 1. cbn [fst snd].
  destruct (isConnected a); cbn [negb]; [|apply IH].
  destruct (getFinalizationTime a) as [time|]; [|apply IH].
  cbn [fold_left]. unfold pickBy at 2. cbn [fst snd].
  destruct (time <? low)%float; apply IH.
Qed.

(** X13.  [SpeedOptimizedStrategy] returns the first-registered of the connected
    chains reporting the least finalization time, if that time is below
    2^53 - 1: no chain registered before it reports a time that is at most
    its time, none registered after it a time below it; otherwise it
    raises "No available chains". *)
Theorem SpeedOptimized_first_fastest (batch : BatchSubmission)
    (entries : JsMap ChainAdapter) :
  match selectChain SpeedOptimizedStrategy batch entries with
  | Resolved c =>
      exists time before after,
        omap timed entries = before ++ (c, time) :: after /\
        (time <? Number MAX_SAFE_INTEGER)%float = true /\
        Forall (fun q => (snd q <=? time)%float = false) before /\
        Forall (fun q => (snd q <? time)%float = false) after
  | Rejected error =>
      error = NoAvailableChains /\
      Forall (fun q => (snd q <? Number MAX_SAFE_INTEGER)%float = false) (omap timed entries)
  end.
Proof.
  cbn [selectChain SpeedOptimizedStrategy]. rewrite fastestLoop_fold.
  apply (firstBest_outcome PrimFloat.ltb PrimFloat.leb).
  - apply ltb_trans.
  - apply leb_ltb_trans.
  - apply ltb_not_leb.
Qed.

(** **** [BalancedStrategy] *)

Definition rated (batch : BatchSubmission) (entry : ChainId * ChainAdapter)
  : option (ChainId * float) :=
  if isConnected (snd entry) then
    match estimateGasCost (snd entry) batch, getMetrics (snd entry) with
    | Resolved cost, Resolved metrics => Some (fst entry, balancedScore cost metrics)
    | _, _ => None
    end
  else None.

Definition gtb (a b : float) : bool := (b <? a)%float.
Definition geb (a b : float) : bool := (b <=? a)%float.

Lemma bestLoop_fold batch entries : forall bestChain bestScore,
  bestLoop batch entries bestChain bestScore =
  fst (fold_left (pickBy gtb) (omap (rated batch) entries) (bestChain, bestScore)).
Proof.
  induction entries as [|[c a] rest IH]; intros best low; [reflexivity|].
  cbn [bestLoop omap list_omap]. unfold rated at 1. cbn [fst snd].
  destruct (isConnected a); cbn [negb]; [|apply IH].
  destruct (estimateGasCost a batch) as [cost|]; [|apply IH].
  destruct (getMetrics a) as [metrics|]; [|apply IH].
  cbn [fold_left]. unfold pickBy at 2, gtb at 2. cbn [fst snd].
  destruct (low <? balancedScore cost metrics)%float; apply IH.
Qed.

(** X14.  [BalancedStrategy] returns the first-registered of the connected
    chains with the greatest score 0.4 cost + 0.4 time + 0.2 load, if that
    score is above -1: no chain registered before it has a score that is
    at least its score, none registered after it a score above it;
    otherwise, so also when every score is NaN, it raises "No available
    chains". *)
Theorem Balanced_first_best (batch : BatchSubmission) (entries : JsMap ChainAdapter) :
  match selectChain BalancedStrategy batch entries with
  | Resolved c =>
      exists best before after,
        omap (rated batch) entries = before ++ (c, best) :: after /\
        (-1 <? best)%float = true /\
        Forall (fun q => (best <=? snd q)%float = false) before /\
        Forall (fun q => (best <? snd q)%float = false) after
  | Rejected error =>
      error = NoAvailableChains /\
      Forall (fun q => (-1 <? snd q)%float = false) (omap (rated batch) entries)
  end.
Proof.
  cbn [selectChain BalancedStrategy]. rewrite bestLoop_fold.
  apply (firstBest_outcome gtb geb); unfold gtb, geb.
  - intros a b c Hab Hbc. eapply ltb_trans; eauto.
  - intros a b c Hab Hbc. eapply ltb_leb_trans; eauto.
  - intros a b. apply ltb_not_leb.
Qed.

(** *** [submitToChain]: retries *)







(** *** The registry and the statistics *)

Lemma Map_get_set {V} (k k' : ChainId) (v : V) (m : JsMap V) :
  Map_get k' (Map_set k v m) = if decide (k' = k) then Some v else Map_get k' m.
Proof.
  induction m as [|[k0 v0] m IH]; cbn.
  - destruct (decide (k' = k)); reflexivity.
  - destruct (decide (k = k0)) as [->|Hne]; cbn.
    + destruct (decide (k' = k0)); reflexivity.
    + rewrite IH. destruct (decide (k' = k0)) as [->|]; [|reflexivity].
      now rewrite decide_False by congruence.
Qed.

Lemma Map_get_Some_key {V} (k : ChainId) (v : V) (m : JsMap V) :
  Map_get k m = Some v -> k ∈ map fst m.
Proof.
  induction m as [|[k0 v0] m IH]; cbn; [discriminate|].
  destruct (decide (k = k0)) as [->|]; intros H.
  - apply list_elem_of_here.
  - apply list_elem_of_further. now apply IH.
Qed.

Lemma Map_get_None_key {V} (k : ChainId) (m : JsMap V) :
  Map_get k m = None -> k ∉ map fst m.
Proof.
  induction m as [|[k0 v0] m IH]; cbn; [intros _; apply not_elem_of_nil|].
  destruct (decide (k = k0)) as [->|Hne]; [discriminate|]. intros H Hin.
  apply elem_of_cons in Hin as [Heq|Hin]; [congruence | now apply IH].
Qed.

(** X16.  Registering an adapter: it is what a lookup of its chain now finds,
    other chains are found as before, the order of the registry is kept
    (a new chain goes last, a known chain keeps its place), and the
    chain's usage count starts again from 0 while [totalBatches] and the
    costs stay. *)
Theorem registerAdapter_spec (a : ChainAdapter) (r : SettlementRouter) :
  let r' := registerAdapter a r in
  Map_get (chainId a) (adapters r') = Some a /\
  (forall c, c <> chainId a -> Map_get c (adapters r') = Map_get c (adapters r)) /\
  map fst (adapters r') =
    (if decide (chainId a ∈ map fst (adapters r)) then map fst (adapters r)
     else map fst (adapters r) ++ [chainId a]) /\
  Map_get (chainId a) (chainUsage (stats r')) = Some 0 /\
  (forall c, c <> chainId a ->
     Map_get c (chainUsage (stats r')) = Map_get c (chainUsage (stats r))) /\
  totalBatches (stats r') = totalBatches (stats r) /\
  totalCost (stats r') = totalCost (stats r) /\
  submitLog r' = submitLog r.
Proof.
  intros r'. subst r'. unfold registerAdapter. cbn. repeat split.
  - rewrite Map_get_set. now rewrite decide_True.
  - intros c Hc. rewrite Map_get_set. now rewrite decide_False.
  - apply Map_set_keys.
  - rewrite Map_get_set. now rewrite decide_True.
  - intros c Hc. rewrite Map_get_set. now rewrite decide_False.
Qed.

(** The usage counts of all chains together. *)
Definition usageTotal (st : SettlementStats) : Z :=
  fold_right Z.add 0 (map snd (chainUsage st)).

Lemma usage_set (k : ChainId) (v : Z) (m : JsMap Z) :
  fold_right Z.add 0 (map snd (Map_set k v m)) =
  fold_right Z.add 0 (map snd m) - default 0 (Map_get k m) + v.
Proof.
  induction m as [|[k0 v0] m IH]; cbn; [lia|].
  destruct (decide (k = k0)) as [->|Hne]; cbn; [lia|]. rewrite IH. lia.
Qed.

Definition settledCount {A} (p : Promise A) : Z :=
  match p with Resolved _ => 1 | Rejected _ => 0 end.

(** What an operation of the router does to its statistics: nothing if it
    throws, one more batch on one chain if it returns. *)
Definition counts_settlement (op : Async SettlementResult) (r : SettlementRouter) : Prop :=
  let '(outcome, r') := op r in
  adapters r' = adapters r /\
  totalBatches (stats r') = totalBatches (stats r) + settledCount outcome /\
  usageTotal (stats r') = usageTotal (stats r) + settledCount outcome /\
  match outcome with
  | Resolved result =>
      totalCost (stats r') = totalCost (stats r) + cost result /\
      averageCost (stats r') = Z.quot (totalCost (stats r')) (totalBatches (stats r'))
  | Rejected _ => stats r' = stats r
  end.

Lemma counts_thrown (error : Error) (r : SettlementRouter) :
  counts_settlement (fun r => (Rejected error, r)) r.
Proof. unfold counts_settlement. cbn [settledCount]. rewrite !Z.add_0_r. auto. Qed.

Lemma updateStats_counts c result st :
  totalBatches (updateStats c result st) = totalBatches st + 1 /\
  usageTotal (updateStats c result st) = usageTotal st + 1 /\
  totalCost (updateStats c result st) = totalCost st + cost result /\
  averageCost (updateStats c result st) =
    Z.quot (totalCost (updateStats c result st)) (totalBatches (updateStats c result st)).
Proof.
  unfold updateStats, usageTotal. cbn [totalBatches chainUsage totalCost averageCost].
  repeat split. rewrite usage_set. ring.
Qed.

Lemma submitAttempts_counts a chain batch maxRetries : forall fuel lastError r,
  counts_settlement (submitAttempts a chain batch maxRetries fuel lastError) r.
Proof.
  induction fuel as [|fuel IH]; intros lastError r.
  - apply (counts_thrown (SubmitFailed (S maxRetries) lastError) r).
  - unfold counts_settlement in *. cbn [submitAttempts].
    destruct (submitBatch a _ batch) as [result|error].
    + cbn [with_stats with_submitLog adapters stats settledCount].
      destruct (updateStats_counts chain result (stats r)) as (H1 & H2 & H3 & H4).
      repeat split; assumption.
    + specialize (IH error (with_submitLog (submitLog r ++ [chain]) r)).
      destruct (submitAttempts a chain batch maxRetries fuel error _) as [outcome r'].
      exact IH.
Qed.

Lemma submitToChain_counts batch chain maxRetries r :
  counts_settlement (submitToChain batch chain maxRetries) r.
Proof.
  pose proof (fun error => counts_thrown error r) as H0.
  pose proof (fun a => submitAttempts_counts a chain batch maxRetries (S maxRetries)
                         (Thrown "") r) as H1.
  unfold counts_settlement, submitToChain in *.
  destruct (Map_get chain (adapters r)) as [a|]; [|apply H0].
  destruct (isConnected a); cbn [negb]; [apply H1 | apply H0].
Qed.

Lemma failoverLoop_counts batch decisions : forall r,
  counts_settlement (failoverLoop batch decisions) r.
Proof.
  induction decisions as [|d ds IH]; intros r.
  - apply (counts_thrown AllChainsFailed r).
  - pose proof (submitToChain_counts batch (decision_chainId d) 0 r) as H1.
    unfold counts_settlement in *. cbn [failoverLoop].
    destruct (submitToChain batch (decision_chainId d) 0 r) as [[result|error] r1];
      [exact H1|].
    destruct H1 as (Ha & Hb & Hu & Hs). specialize (IH r1).
    destruct (failoverLoop batch ds r1) as [outcome r2].
    cbn [settledCount] in *. rewrite Hs in IH. rewrite Ha in IH. exact IH.
Qed.

(** X17.  The statistics count the batches that were settled, whichever way they
    were submitted: a call that throws leaves them as they were, however
    many attempts it made; a call that returns adds one batch, one use of
    one chain and the cost of the result, and sets the average cost to the
    (truncated) quotient of total cost and batch count. *)
Theorem stats_count_settlements (r : SettlementRouter) (batch : BatchSubmission)
    (chain : ChainId) (maxRetries : nat) :
  counts_settlement (submitToChain batch chain maxRetries) r /\
  counts_settlement (Router_submitBatch batch maxRetries) r /\
  counts_settlement (submitBatchWithFailover batch) r.
Proof.
  split; [apply submitToChain_counts|]. split.
  - pose proof (fun c => submitToChain_counts batch c maxRetries r) as H1.
    pose proof (fun error => counts_thrown error r) as H0.
    unfold counts_settlement, Router_submitBatch in *.
    destruct (selectChain (strategy r) batch (adapters r)) as [c|error];
      [apply H1 | apply H0].
  - pose proof (failoverLoop_counts batch (analyzeBatch r batch) r) as H1.
    pose proof (counts_thrown NoAvailableChains r) as H0.
    unfold counts_settlement, submitBatchWithFailover in *.
    destruct (analyzeBatch r batch) as [|d ds]; [exact H0 | exact H1].
Qed.

(** *** The router over its lifetime *)

(** The calls that change a router. *)
Inductive RouterCall :=
| Register (adapter : ChainAdapter)
| SubmitToChain (batch : BatchSubmission) (chain : ChainId) (maxRetries : nat)
| SubmitBatch (batch : BatchSubmission) (maxRetries : nat)
| SubmitBatchWithFailover (batch : BatchSubmission).

Definition after (r : SettlementRouter) (call : RouterCall) : SettlementRouter :=
  match call with
  | Register adapter => registerAdapter adapter r
  | SubmitToChain batch chain maxRetries => snd (submitToChain batch chain maxRetries r)
  | SubmitBatch batch maxRetries => snd (Router_submitBatch batch maxRetries r)
  | SubmitBatchWithFailover batch => snd (submitBatchWithFailover batch r)
  end.

(** The router built with [strategy] after the given calls. *)
Definition history (routing : RoutingStrategy) (calls : list RouterCall)
  : SettlementRouter :=
  fold_left after calls (new_SettlementRouter routing).

(** A submission leaves the registry alone and either leaves the
    statistics alone or counts one result on a registered chain. *)
Definition one_update (r r' : SettlementRouter) : Prop :=
  adapters r' = adapters r /\
  (stats r' = stats r \/
   exists c a result,
     Map_get c (adapters r) = Some a /\ stats r' = updateStats c result (stats r)).

Lemma submitAttempts_update a chain batch maxRetries :
  forall fuel lastError r,
  Map_get chain (adapters r) = Some a ->
  one_update r (snd (submitAttempts a chain batch maxRetries fuel lastError r)).
Proof.
  induction fuel as [|fuel IH]; intros lastError r Ha; cbn [submitAttempts].
  - split; auto.
  - destruct (submitBatch a _ batch) as [result|error].
    + split; [reflexivity|]. right. exists chain, a, result. split; [exact Ha | reflexivity].
    + destruct (IH error (with_submitLog (submitLog r ++ [chain]) r) Ha) as [H1 H2].
      split; [exact H1 | exact H2].
Qed.

Lemma submitToChain_update batch chain maxRetries r :
  one_update r (snd (submitToChain batch chain maxRetries r)).
Proof.
  unfold submitToChain. destruct (Map_get chain (adapters r)) as [a|] eqn:Ha;
    [|split; auto].
  destruct (isConnected a); cbn [negb]; [|split; auto].
  now apply submitAttempts_update.
Qed.

Lemma failoverLoop_update batch decisions : forall r,
  one_update r (snd (failoverLoop batch decisions r)).
Proof.
  induction decisions as [|d ds IH]; intros r; cbn [failoverLoop]; [split; auto|].
  pose proof (submitToChain_update batch (decision_chainId d) 0 r) as H1.
  pose proof (submitToChain_counts batch (decision_chainId d) 0 r) as H2.
  unfold counts_settlement in H2.
  destruct (submitToChain batch (decision_chainId d) 0 r) as [[result|error] r1];
    [exact H1|].
  destruct H2 as (Ha & _ & _ & Hs). specialize (IH r1).
  destruct IH as [Ha' Hs']. split; [congruence|]. now rewrite Ha, Hs in Hs'.
Qed.

(** What holds of a router at any time: the usage table has a count for
    exactly the registered chains, in registration order, each chain
    once; no count is negative; the counts add up to at most
    [totalBatches]; before any batch is settled the total and the average
    cost are 0, afterwards the average cost is the truncated quotient of
    total cost and batch count. *)
Definition well_kept (r : SettlementRouter) : Prop :=
  map fst (chainUsage (stats r)) = map fst (adapters r) /\
  NoDup (map fst (adapters r)) /\
  Forall (fun entry => 0 <= snd entry) (chainUsage (stats r)) /\
  usageTotal (stats r) <= totalBatches (stats r) /\
  0 <= totalBatches (stats r) /\
  (totalBatches (stats r) = 0 -> totalCost (stats r) = 0 /\ averageCost (stats r) = 0) /\
  (0 < totalBatches (stats r) ->
   averageCost (stats r) = Z.quot (totalCost (stats r)) (totalBatches (stats r))).

Lemma Map_set_nonneg (k : ChainId) (v : Z) (m : JsMap Z) :
  0 <= v -> Forall (fun entry => 0 <= snd entry) m ->
  Forall (fun entry => 0 <= snd entry) (Map_set k v m).
Proof.
  intros Hv. induction m as [|[k0 v0] m IH]; intros Hm; cbn.
  - repeat constructor. exact Hv.
  - inversion Hm as [|? ? H0 Hrest]; subst.
    destruct (decide (k = k0)); constructor; auto.
Qed.

Lemma Map_get_nonneg (k : ChainId) (m : JsMap Z) :
  Forall (fun entry => 0 <= snd entry) m -> 0 <= default 0 (Map_get k m).
Proof.
  induction m as [|[k0 v0] m IH]; intros Hm; cbn; [lia|].
  inversion Hm as [|? ? H0 Hrest]; subst.
  destruct (decide (k = k0)); cbn; auto.
Qed.

Lemma well_kept_register a r : well_kept r -> well_kept (registerAdapter a r).
Proof.
  intros (Hk & Hnd & Hpos & Hle & Hrest). unfold well_kept, registerAdapter, usageTotal in *.
  cbn. split; [|split; [|split; [|split]]].
  - rewrite !Map_set_keys, Hk. reflexivity.
  - now apply (registerAdapter_NoDup a r).
  - apply Map_set_nonneg; [lia | exact Hpos].
  - rewrite usage_set. pose proof (Map_get_nonneg (chainId a) _ Hpos). lia.
  - exact Hrest.
Qed.

Lemma well_kept_update r r' : one_update r r' -> well_kept r -> well_kept r'.
Proof.
  intros [Ha Hs] (Hk & Hnd & Hpos & Hle & Hn & Hzero & Havg). unfold well_kept. rewrite Ha.
  destruct Hs as [-> | (c & a & result & Hc & ->)]; [auto 10|].
  destruct (updateStats_counts c result (stats r)) as (H1 & H2 & H3 & H4).
  split; [|split; [|split; [|split; [|split; [|split]]]]].
  - unfold updateStats. cbn [chainUsage]. rewrite Map_set_keys, Hk.
    rewrite decide_True; [reflexivity|]. eapply Map_get_Some_key; eauto.
  - exact Hnd.
  - unfold updateStats. cbn [chainUsage]. apply Map_set_nonneg; [|exact Hpos].
    pose proof (Map_get_nonneg c _ Hpos). lia.
  - lia.
  - lia.
  - lia.
  - intros _. exact H4.
Qed.

(** X18.  Every router is well kept, whatever adapters were registered and
    re-registered and whatever batches were submitted, in any order. *)
Theorem router_well_kept (routing : RoutingStrategy) (calls : list RouterCall) :
  well_kept (history routing calls).
Proof.
  unfold history.
  assert (H0 : well_kept (new_SettlementRouter routing)).
  { unfold well_kept, usageTotal. cbn. repeat split; try constructor; try discriminate. }
  revert H0. generalize (new_SettlementRouter routing) as r.
  induction calls as [|call calls IH]; intros r Hr; [exact Hr|].
  cbn [fold_left]. apply IH. destruct call as [a|batch chain k|batch k|batch]; cbn [after].
  - now apply well_kept_register.
  - eapply well_kept_update; [apply submitToChain_update | exact Hr].
  - eapply well_kept_update; [|exact Hr]. unfold Router_submitBatch.
    destruct (selectChain (strategy r) batch (adapters r)) as [c|error].
    + apply submitToChain_update.
    + split; auto.
  - eapply well_kept_update; [|exact Hr]. unfold submitBatchWithFailover.
    destruct (analyzeBatch r batch) as [|d ds].
    + split; auto.
    + apply failoverLoop_update.
Qed.

(** *** [submitBatch]: from the strategy to the adapter *)










(** *** Scores are numbers

    NaN arises in the arithmetic of the scores only from a NaN input. *)

Definition sf_nan (x : spec_float) : bool :=
  match x with S754_nan => true | _ => false end.

Lemma shr_fexp_nonneg m e l :
  0 <= m -> 0 <= shr_m (fst (shr_fexp prec emax m e l)).
Proof.
  intros Hm. unfold shr_fexp, shr.
  assert (H0 : 0 <= shr_m (shr_record_of_loc m l))
    by (destruct l as [|[]]; cbn; exact Hm).
  destruct (fexp prec emax (Zdigits2 m + e) - e); cbn [fst]; try exact H0.
  now apply iter_shr_1_m.
Qed.

Lemma round_aux_number s m e l :
  0 <= m -> sf_nan (binary_round_aux prec emax s m e l) = false.
Proof.
  intros Hm. unfold binary_round_aux.
  pose proof (shr_fexp_nonneg m e l Hm) as H1.
  destruct (shr_fexp prec emax m e l) as [mrs' e']. cbn [fst] in H1.
  pose proof (round_nearest_even_ge (shr_m mrs') (loc_of_shr_record mrs')) as Hr.
  pose proof (shr_fexp_nonneg (round_nearest_even (shr_m mrs') (loc_of_shr_record mrs'))
                e' loc_Exact ltac:(lia)) as H2.
  destruct (shr_fexp prec emax _ e' loc_Exact) as [mrs'' e'']. cbn [fst] in H2.
  destruct (shr_m mrs'') as [|p|p]; [reflexivity | | lia].
  destruct (e'' <=? emax - prec); reflexivity.
Qed.

Lemma round_number s m e : sf_nan (binary_round prec emax s m e) = false.
Proof.
  unfold binary_round. destruct (shl_align m e _) as [mz ez].
  apply round_aux_number. lia.
Qed.

Lemma normalize_number m e s : sf_nan (binary_normalize prec emax m e s) = false.
Proof.
  destruct m; cbn [binary_normalize]; [reflexivity | apply round_number ..].
Qed.

Definition sf_finite (x : spec_float) : bool :=
  match x with S754_finite _ _ _ => true | _ => false end.

Lemma SFcompare_refl x : sf_nan x = false -> SFcompare x x = Some Eq.
Proof.
  destruct x as [s|s| |s m e]; try discriminate; intros _; try (destruct s; reflexivity).
  cbn [SFcompare]. rewrite Z.compare_refl.
  change (Pos.compare_cont Eq m m) with (Pos.compare m m). rewrite Pos.compare_refl.
  now destruct s.
Qed.

Lemma is_nan_spec (f : float) : is_nan f = sf_nan (Prim2SF f).
Proof.
  unfold is_nan. rewrite FloatAxioms.eqb_spec. unfold SFeqb.
  destruct (sf_nan (Prim2SF f)) eqn:Hn.
  - destruct (Prim2SF f); try discriminate. reflexivity.
  - now rewrite SFcompare_refl.
Qed.

Lemma sub_number (a y : float) :
  sf_finite (Prim2SF a) = true -> is_nan y = false -> is_nan (a - y) = false.
Proof.
  rewrite !is_nan_spec, FloatAxioms.sub_spec. unfold SF64sub.
  destruct (Prim2SF a) as [sa|sa| |sa ma ea]; try discriminate. intros _.
  destruct (Prim2SF y) as [sy|sy| |sy my ey]; try discriminate; intros _; try reflexivity.
  cbn [SFsub]. apply normalize_number.
Qed.

Lemma mul_number (x a : float) :
  sf_finite (Prim2SF a) = true -> is_nan x = false -> is_nan (x * a) = false.
Proof.
  rewrite !is_nan_spec, FloatAxioms.mul_spec. unfold SF64mul.
  destruct (Prim2SF a) as [sa|sa| |sa ma ea]; try discriminate. intros _.
  destruct (Prim2SF x) as [sx|sx| |sx mx ex]; try discriminate; intros _; try reflexivity.
  cbn [SFmul]. apply round_aux_number. lia.
Qed.

Lemma div_number (x a : float) :
  sf_finite (Prim2SF a) = true -> is_nan x = false -> is_nan (x / a) = false.
Proof.
  rewrite !is_nan_spec, FloatAxioms.div_spec. unfold SF64div.
  destruct (Prim2SF a) as [sa|sa| |sa ma ea]; try discriminate. intros _.
  destruct (Prim2SF x) as [sx|sx| |sx mx ex]; try discriminate; intros _; try reflexivity.
  cbn [SFdiv]. unfold SFdiv_core_binary.
  set (m' := match _ - _ - _ with Z0 => Zpos mx | Zpos _ => _ | Zneg _ => 0 end).
  assert (Hm' : 0 <= m').
  { subst m'. destruct (_ - _ - _); try lia. apply Z.shiftl_nonneg. lia. }
  pose proof (Z.div_pos m' (Zpos ma) Hm' ltac:(lia)) as Hq.
  unfold Z.div in Hq. destruct (Z.div_eucl m' (Zpos ma)) as [q r]. cbn [fst] in Hq.
  now apply round_aux_number.
Qed.

Lemma SF2Prim_number (x : spec_float) :
  sf_nan x = false -> sf_nan (Prim2SF (SF2Prim x)) = false.
Proof.
  destruct x as [s|s| |s m e]; try discriminate; intros _; try (destruct s; reflexivity).
  cbn [SF2Prim].
  assert (H : sf_nan (Prim2SF (Z.ldexp (of_uint63 (Uint63Axioms.of_Z (Zpos m))) e)) = false).
  { rewrite Z_ldexp_spec, FloatAxioms.of_uint63_spec.
    pose proof (normalize_number (Uint63Axioms.to_Z (Uint63Axioms.of_Z (Zpos m))) 0 false) as Hn.
    destruct (binary_normalize prec emax _ 0 false) as [s'|s'| |s' m' e'];
      try discriminate; try reflexivity.
    cbn [SFldexp]. apply round_number. }
  destruct s; [|exact H]. rewrite FloatAxioms.opp_spec.
  destruct (Prim2SF _); try discriminate; reflexivity.
Qed.

Lemma Number_number (z : Z) : is_nan (Number z) = false.
Proof. rewrite is_nan_spec. apply SF2Prim_number, normalize_number. Qed.

(** X20.  Whatever the cost, the cost score is a number between 0 and 100;
    whatever the time, the time score is one too unless the time is NaN,
    and then so is the score. *)
Theorem scores_in_range :
  (forall cost,
     (0 <=? normalizeCostScore cost)%float = true /\
     (normalizeCostScore cost <=? 100)%float = true) /\
  (forall time, is_nan time = false ->
     (0 <=? normalizeTimeScore time)%float = true /\
     (normalizeTimeScore time <=? 100)%float = true) /\
  (forall time, is_nan time = true -> is_nan (normalizeTimeScore time) = true).
Proof.
  split; [|split].
  - intros cost. apply (clamp_range (100 - Number (Z.quot (cost * 100) maxCost))).
    apply sub_number; [reflexivity | apply Number_number].
  - intros time Ht. apply (clamp_range (100 - time / maxTime * 100)).
    apply sub_number; [reflexivity|]. apply mul_number; [reflexivity|].
    apply div_number; [reflexivity | exact Ht].
  - intros time Ht. unfold normalizeTimeScore, Math_max, Math_min.
    assert (Hn : is_nan (100 - time / maxTime * 100) = true).
    { rewrite !is_nan_spec in *. rewrite FloatAxioms.sub_spec, FloatAxioms.mul_spec,
        FloatAxioms.div_spec.
      destruct (Prim2SF time); try discriminate. reflexivity. }
    change (is_nan 100) with false. change (is_nan 0) with false. cbn [orb].
    rewrite Hn. reflexivity.
Qed.

(** *** [generateReason] *)

(** X21.  The reason is never empty, and it is "balanced" exactly when none of
    the three scores exceeds 70 (so also when they are NaN). *)
Theorem generateReason_spec (costScore timeScore loadScore : float) :
  generateReason costScore timeScore loadScore <> ""%string /\
  (generateReason costScore timeScore loadScore = "balanced"%string <->
   (70 <? costScore)%float = false /\ (70 <? timeScore)%float = false /\
   (70 <? loadScore)%float = false).
Proof.
  unfold generateReason.
  destruct (70 <? costScore)%float, (70 <? timeScore)%float, (70 <? loadScore)%float;
    cbn; (split; [discriminate|]); split; intros H;
    try discriminate; try reflexivity; try (destruct H as (? & ? & ?); discriminate);
    auto.
Qed.

(** *** [EthereumAdapter.ts]: chain load, metrics, disconnecting *)

(** What [getChainLoad] reads of the latest block. *)
Record Block := mkBlock {
  block_gasUsed : Z;
  block_gasLimit : Z
}.

(** [getChainLoad], given the answer of [provider.getBlock("latest")].  A
    zero gas limit makes the bigint division throw, which the [catch]
    turns into the default like any other failure. *)
Definition getChainLoad (a : EthereumAdapter) (latest : Promise (option Block))
  : Promise float :=
  match provider a with
  | None => Rejected (notConnected a)
  | Some _ =>
      match latest with
      | Resolved (Some block) =>
          if block_gasLimit block =? 0 then Resolved 50%float
          else Resolved (Number (Z.quot (block_gasUsed block * 100) (block_gasLimit block)))
      | Resolved None => Resolved 50%float
      | Rejected _ => Resolved 50%float
      end
  end.







Lemma percent_load q :
  0 <= q <= 100 ->
  (0 <=? Number q)%float = true /\ (Number q <=? 100)%float = true /\
  (0 <=? 100 - Number q)%float = true /\ (100 - Number q <=? 100)%float = true.
Proof.
  intros H. apply percents_spec in H.
  assert (Hall : forallb (fun q => (0 <=? Number q)%float && (Number q <=? 100)%float
                                   && (0 <=? 100 - Number q)%float
                                   && (100 - Number q <=? 100)%float) percents = true)
    by (vm_compute; reflexivity).
  rewrite forallb_forall in Hall. apply Hall in H.
  repeat (apply andb_prop in H as [H ?]). auto.
Qed.

(** X22.  [getChainLoad] throws on an adapter without a provider and nowhere
    else: without a latest block, on a failing query and on a zero gas
    limit it answers 50; otherwise, for a block that used no more gas than
    its limit, the whole percentage used, which lies between 0 and 100 and
    so does the load score 100 - load. *)
Theorem getChainLoad_spec (a : EthereumAdapter) (latest : Promise (option Block)) :
  (provider a = None -> getChainLoad a latest = Rejected (notConnected a)) /\
  (provider a <> None ->
   exists load,
     getChainLoad a latest = Resolved load /\
     is_nan load = false /\
     (latest = Resolved None \/ (exists error, latest = Rejected error) \/
      (exists used, latest = Resolved (Some (mkBlock used 0))) ->
      load = 50%float) /\
     (forall block,
        latest = Resolved (Some block) ->
        0 <= block_gasUsed block <= block_gasLimit block -> 0 < block_gasLimit block ->
        load = Number (block_gasUsed block * 100 / block_gasLimit block) /\
        (0 <=? load)%float = true /\ (load <=? 100)%float = true /\
        (0 <=? 100 - load)%float = true /\ (100 - load <=? 100)%float = true)).
Proof.
  unfold getChainLoad. split; [now intros ->|]. intros Hp.
  destruct (provider a) as [p|]; [clear Hp | congruence].
  destruct latest as [[[used limit]|]|error]; cbn [block_gasLimit block_gasUsed].
  - destruct (limit =? 0) eqn:Hl.
    + exists 50%float. split; [reflexivity|]. split; [reflexivity|]. split; [reflexivity|].
      intros block [= <-]. cbn. apply Z.eqb_eq in Hl. lia.
    + eexists. split; [reflexivity|]. split; [apply Number_number|]. split.
      * intros [H | [[error H] | [used' H]]]; try discriminate.
        injection H as _ ->. discriminate.
      * intros block [= <-]. cbn [block_gasUsed block_gasLimit]. intros Hu Hpos.
        assert (Hq : Z.quot (used * 100) limit = used * 100 / limit)
          by (apply Z.quot_div_nonneg; lia).
        rewrite Hq. split; [reflexivity|]. apply percent_load. split.
        -- apply Z.div_pos; lia.
        -- apply Z.div_le_upper_bound; lia.
  - exists 50%float. split; [reflexivity|]. split; [reflexivity|]. split; [reflexivity|].
    intros block [=].
  - exists 50%float. split; [reflexivity|]. split; [reflexivity|]. split; [reflexivity|].
    intros block [=].
Qed.

Lemma getChainLoad_spec_witness :
  exists load,
    getChainLoad feeless (Resolved (Some (mkBlock 7500000 30000000))) = Resolved load /\
    load = Number 25 /\ (0 <=? 100 - load)%float = true.
Proof.
  destruct (getChainLoad_spec feeless (Resolved (Some (mkBlock 7500000 30000000))))
    as [_ H].
  destruct H as (load & Hl & _ & _ & Hb); [discriminate|].
  exists load. split; [exact Hl|].
  destruct (Hb (mkBlock 7500000 30000000) eq_refl) as (H1 & _ & _ & H2 & _);
    cbn; try lia.
  split; [exact H1 | exact H2].
Defined.




End Settlement.


(** ** The L1 bridge *)

Module Bridge.

Local Open Scope N_scope.

Abbreviation address := N (only parsing).
Abbreviation bytes32 := N (only parsing).
Abbreviation uint256 := N (only parsing).

Abbreviation Result := Rollup.Result.
Abbreviation Ok := Rollup.Ok.
Abbreviation Revert := Rollup.Revert.
Abbreviation Panic := Rollup.Panic.
Abbreviation MAX_UINT256 := Rollup.MAX_UINT256.

Record DepositRecord := mkDepositRecord {
  deposit_user : address;
  deposit_amount : uint256;
  deposit_token : address;
  deposit_timestamp : uint256;
  deposit_processed : bool
}.

Record WithdrawalRecord := mkWithdrawalRecord {
  user : address;
  amount : uint256;
  token : address;
  merkleProof : bytes32;
  timestamp : uint256;
  processed : bool
}.

(** Contract storage, the owner slot of [Ownable], and the ether the
    contract holds. *)
Record State := mkState {
  deposits : gmap N DepositRecord;
  withdrawals : gmap N WithdrawalRecord;
  supportedTokens : gmap N bool;
  depositCounter : uint256;
  withdrawalDelay : uint256;
  rollupContract : address;
  owner : address;
  balance : uint256
}.

Inductive Event :=
| DepositInitiated (depositId : uint256) (user : address) (amount : uint256) (token : address)
| WithdrawalInitiated (withdrawalId : bytes32) (user : address) (amount : uint256)
    (token : address)
| WithdrawalCompleted (withdrawalId : bytes32) (user : address) (amount : uint256)
    (token : address).

(** Ether sent out, calls made on token contracts, and events. *)
Inductive Effect :=
| Sent (to : address) (amount : uint256)
| TransferFrom (token from : address) (amount : uint256)
| Transfer (token to : address) (amount : uint256)
| Emitted (e : Event).

(** The data a failing call comes back with: none, [Error(string)] with
    its reason, or [Panic(uint256)] with its code. *)
Inductive RevertData := NoData | Reason (reason : string) | PanicCode (code : N).

(** The abort of a caller that passes the data of a failed call on, as a
    high-level call and [transfer] do. *)
Definition bubble {A} (data : RevertData) : Result A :=
  match data with
  | NoData => Revert ""
  | Reason reason => Revert reason
  | PanicCode code => Panic code
  end.

(** What a call on an ERC-20 token comes back with. *)
Inductive TokenAnswer := ReturnsTrue | ReturnsFalse | Reverts (data : RevertData).

(** What an address does with ether that [transfer] hands it on 2300 gas:
    an externally owned account accepts it, a contract accepts it if its
    [receive] or [fallback] function runs through. *)
Inductive EtherAnswer := Accepts | Refuses (data : RevertData).

(** The transaction context, the token contracts by the answers they
    give, and the recipients of ether by theirs.  Neither calls back into
    the bridge. *)
Record Env := mkEnv {
  msg_sender : address;
  block_timestamp : uint256;
  transferFrom : address -> address -> uint256 -> TokenAnswer;
  transfer : address -> address -> uint256 -> TokenAnswer;
  receive : address -> uint256 -> EtherAnswer
}.

Definition zeroDeposit : DepositRecord := mkDepositRecord 0 0 0 0 false.
Definition zeroWithdrawal : WithdrawalRecord := mkWithdrawalRecord 0 0 0 0 0 false.

Definition depositAt (s : State) (i : N) : DepositRecord :=
  default zeroDeposit (deposits s !! i).
Definition withdrawalAt (s : State) (i : N) : WithdrawalRecord :=
  default zeroWithdrawal (withdrawals s !! i).
Definition supported (s : State) (t : address) : bool :=
  default false (supportedTokens s !! t).

Definition with_deposit (d : DepositRecord) (s : State) : State :=
  mkState (<[depositCounter s := d]> (deposits s)) (withdrawals s) (supportedTokens s)
    (depositCounter s + 1) (withdrawalDelay s) (rollupContract s) (owner s) (balance s).
Definition with_withdrawal (i : bytes32) (w : WithdrawalRecord) (s : State) : State :=
  mkState (deposits s) (<[i := w]> (withdrawals s)) (supportedTokens s)
    (depositCounter s) (withdrawalDelay s) (rollupContract s) (owner s) (balance s).
Definition with_supported (t : address) (b : bool) (s : State) : State :=
  mkState (deposits s) (withdrawals s) (<[t := b]> (supportedTokens s))
    (depositCounter s) (withdrawalDelay s) (rollupContract s) (owner s) (balance s).
Definition with_withdrawalDelay (n : uint256) (s : State) : State :=
  mkState (deposits s) (withdrawals s) (supportedTokens s)
    (depositCounter s) n (rollupContract s) (owner s) (balance s).
Definition with_rollupContract (a : address) (s : State) : State :=
  mkState (deposits s) (withdrawals s) (supportedTokens s)
    (depositCounter s) (withdrawalDelay s) a (owner s) (balance s).
Definition with_owner (a : address) (s : State) : State :=
  mkState (deposits s) (withdrawals s) (supportedTokens s)
    (depositCounter s) (withdrawalDelay s) (rollupContract s) a (balance s).
Definition with_balance (n : uint256) (s : State) : State :=
  mkState (deposits s) (withdrawals s) (supportedTokens s)
    (depositCounter s) (withdrawalDelay s) (rollupContract s) (owner s) n.

Definition setProcessed (w : WithdrawalRecord) : WithdrawalRecord :=
  mkWithdrawalRecord (user w) (amount w) (token w) (merkleProof w) (timestamp w) true.

(** The state-changing entry points; [transferOwnership] and
    [renounceOwnership] are inherited from OpenZeppelin's [Ownable]. *)
Inductive Call :=
| DepositETH (msg_value : uint256)
| DepositToken (_token : address) (_amount : uint256)
| InitiateWithdrawal (_user : address) (_amount : uint256) (_token : address)
    (_merkleProof : bytes32)
| CompleteWithdrawal (_withdrawalId : bytes32)
| AddSupportedToken (_token : address)
| RemoveSupportedToken (_token : address)
| SetWithdrawalDelay (_newDelay : uint256)
| SetRollupContract (_newRollup : address)
| UpdateRollupContract (_newRollup : address)
| TransferOwnership (newOwner : address)
| RenounceOwnership.

Section Hashed.

(** [keccak256(abi.encodePacked(_user, _amount, _token, block.timestamp))]. *)
Variable withdrawalIdOf : address -> uint256 -> address -> uint256 -> bytes32.

Definition constructor (deployer _rollupContract : address) (_withdrawalDelay : uint256)
  : State :=
  mkState ∅ ∅ ∅ 0 _withdrawalDelay _rollupContract deployer 0.

Definition record (e : Env) (a : uint256) (t : address) (s : State)
  : Result (State * list Effect) :=
  if depositCounter s + 1 <=? MAX_UINT256 then
    Ok (with_deposit (mkDepositRecord (msg_sender e) a t (block_timestamp e) false) s,
        [Emitted (DepositInitiated (depositCounter s) (msg_sender e) a t)])
  else Panic 17.

Definition depositETH (e : Env) (msg_value : uint256) (s : State)
  : Result (State * list Effect) :=
  if 0 <? msg_value
  then record e msg_value 0 (with_balance (balance s + msg_value) s)
  else Revert "Amount must be greater than 0".

(** [safeTransferFrom] of [SafeERC20] (OpenZeppelin 4, as the import
    paths say) passes the data of a failed call on if there is any, and
    has messages of its own for a call that fails without data and for a
    token that returns [false]. *)
Definition depositToken (e : Env) (_token : address) (_amount : uint256) (s : State)
  : Result (State * list Effect) :=
  if negb (supported s _token) then Revert "Token not supported"
  else if negb (0 <? _amount) then Revert "Amount must be greater than 0"
  else
    match transferFrom e _token (msg_sender e) _amount with
    | ReturnsTrue =>
        match record e _amount _token s with
        | Rollup.Ok (s', l) => Ok (s', TransferFrom _token (msg_sender e) _amount :: l)
        | failure => failure
        end
    | ReturnsFalse => Revert "SafeERC20: ERC20 operation did not succeed"
    | Reverts NoData => Revert "SafeERC20: low-level call failed"
    | Reverts data => bubble data
    end.

Definition initiateWithdrawal (e : Env) (_user : address) (_amount : uint256)
    (_token : address) (_merkleProof : bytes32) (s : State)
  : Result (State * list Effect) :=
  if msg_sender e =? rollupContract s then
    let withdrawalId := withdrawalIdOf _user _amount _token (block_timestamp e) in
    Ok (with_withdrawal withdrawalId
          (mkWithdrawalRecord _user _amount _token _merkleProof (block_timestamp e) false) s,
        [Emitted (WithdrawalInitiated withdrawalId _user _amount _token)])
  else Revert "Only rollup contract can initiate withdrawals".

Definition completeWithdrawal (e : Env) (_withdrawalId : bytes32) (s : State)
  : Result (State * list Effect) :=
  let withdrawal := withdrawalAt s _withdrawalId in
  if user withdrawal =? 0 then Revert "Withdrawal does not exist"
  else if processed withdrawal then Revert "Withdrawal already processed"
  else if negb (timestamp withdrawal + withdrawalDelay s <=? MAX_UINT256) then Panic 17
  else if negb (timestamp withdrawal + withdrawalDelay s <=? block_timestamp e)
  then Revert "Withdrawal delay not met"
  else
    let s1 := with_withdrawal _withdrawalId (setProcessed withdrawal) s in
    let completed :=
      Emitted (WithdrawalCompleted _withdrawalId (user withdrawal) (amount withdrawal)
                 (token withdrawal)) in
    if token withdrawal =? 0 then
      if amount withdrawal <=? balance s1 then
        match receive e (user withdrawal) (amount withdrawal) with
        | Accepts =>
            Ok (with_balance (balance s1 - amount withdrawal) s1,
                [Sent (user withdrawal) (amount withdrawal); completed])
        | Refuses data => bubble data
        end
      else Revert ""
    else
      match transfer e (token withdrawal) (user withdrawal) (amount withdrawal) with
      | Reverts data => bubble data
      | _ => Ok (s1, [Transfer (token withdrawal) (user withdrawal) (amount withdrawal);
                      completed])
      end.

(** [onlyOwner] of [Ownable], guarding a storage update. *)
Definition onlyOwner (e : Env) (update : State -> State) (s : State)
  : Result (State * list Effect) :=
  if msg_sender e =? owner s then Ok (update s, [])
  else Revert "Ownable: caller is not the owner".

Definition exec (e : Env) (c : Call) (s : State) : Result (State * list Effect) :=
  match c with
  | DepositETH v => depositETH e v s
  | DepositToken t a => depositToken e t a s
  | InitiateWithdrawal u a t p => initiateWithdrawal e u a t p s
  | CompleteWithdrawal i => completeWithdrawal e i s
  | AddSupportedToken t => onlyOwner e (with_supported t true) s
  | RemoveSupportedToken t => onlyOwner e (with_supported t false) s
  | SetWithdrawalDelay d => onlyOwner e (with_withdrawalDelay d) s
  | SetRollupContract a => onlyOwner e (with_rollupContract a) s
  | UpdateRollupContract a => onlyOwner e (with_rollupContract a) s
  | TransferOwnership a =>
      match onlyOwner e (with_owner a) s with
      | Rollup.Ok done =>
          if a =? 0 then Revert "Ownable: new owner is the zero address" else Ok done
      | failure => failure
      end
  | RenounceOwnership => onlyOwner e (with_owner 0) s
  end.

(** The storage after the transaction: an aborted call changes nothing. *)
Definition step (s : State) (ec : Env * Call) : State :=
  match exec (fst ec) (snd ec) s with
  | Rollup.Ok (s', _) => s'
  | _ => s
  end.

Definition run (s : State) (calls : list (Env * Call)) : State := fold_left step calls s.

(** *** Completing a withdrawal *)

Ltac bridge_cases H :=
  repeat match type of H with
         | context [if ?b then _ else _] => destruct b eqn:?; try discriminate H
         | context [match ?t with ReturnsTrue => _ | _ => _ end] =>
             destruct t eqn:?; try discriminate H
         | context [match ?t with Accepts => _ | _ => _ end] =>
             destruct t eqn:?; try discriminate H
         | context [match ?t with NoData => _ | _ => _ end] =>
             destruct t eqn:?; try discriminate H
         | context [bubble ?d] => destruct d; try discriminate H
         end.

Lemma withdrawalAt_insert s i j w :
  withdrawalAt (with_withdrawal i w s) j = if decide (i = j) then w else withdrawalAt s j.
Proof.
  unfold withdrawalAt; cbn. rewrite lookup_insert. destruct (decide (i = j)); reflexivity.
Qed.

(** X24.  [completeWithdrawal] is rejected for an id without a record (or with
    a record for the zero address) and for a processed record; it panics
    if [timestamp + withdrawalDelay] is beyond [uint256], and is rejected
    before that time.  Otherwise it marks the record processed and pays.
    Ether: rejected if the bridge holds too little; paid if the user
    accepts it; and failing with the user's revert data if the user
    refuses it.  A token: by a call of its [transfer], whose returned flag
    it does not look at, so the withdrawal counts as completed unless the
    token reverts, and then the call fails with the token's revert data.
    A repeat right after a completion is rejected. *)
Theorem completeWithdrawal_spec (e : Env) (s : State) (id : bytes32) :
  let w := withdrawalAt s id in
  let call := CompleteWithdrawal id in
  let completed := Emitted (WithdrawalCompleted id (user w) (amount w) (token w)) in
  (user w = 0 -> exec e call s = Revert "Withdrawal does not exist") /\
  (user w <> 0 -> processed w = true ->
   exec e call s = Revert "Withdrawal already processed") /\
  (user w <> 0 -> processed w = false ->
   MAX_UINT256 < timestamp w + withdrawalDelay s ->
   exec e call s = Panic 17) /\
  (user w <> 0 -> processed w = false ->
   timestamp w + withdrawalDelay s <= MAX_UINT256 ->
   block_timestamp e < timestamp w + withdrawalDelay s ->
   exec e call s = Revert "Withdrawal delay not met") /\
  (user w <> 0 -> processed w = false ->
   timestamp w + withdrawalDelay s <= MAX_UINT256 ->
   timestamp w + withdrawalDelay s <= block_timestamp e ->
   let s1 := with_withdrawal id (setProcessed w) s in
   (token w = 0 -> balance s < amount w -> exec e call s = Revert "") /\
   (token w = 0 -> amount w <= balance s ->
    receive e (user w) (amount w) = Accepts ->
    exec e call s =
      Ok (with_balance (balance s - amount w) s1, [Sent (user w) (amount w); completed])) /\
   (token w = 0 -> amount w <= balance s ->
    forall data, receive e (user w) (amount w) = Refuses data ->
    exec e call s = bubble data) /\
   (token w <> 0 ->
    transfer e (token w) (user w) (amount w) = ReturnsTrue \/
    transfer e (token w) (user w) (amount w) = ReturnsFalse ->
    exec e call s = Ok (s1, [Transfer (token w) (user w) (amount w); completed])) /\
   (token w <> 0 ->
    forall data, transfer e (token w) (user w) (amount w) = Reverts data ->
    exec e call s = bubble data) /\
   forall s' l e', exec e call s = Ok (s', l) ->
     processed (withdrawalAt s' id) = true /\
     (forall j, j <> id -> withdrawalAt s' j = withdrawalAt s j) /\
     exec e' call s' = Revert "Withdrawal already processed").
Proof.
  intros w call completed. subst w call completed. cbn [exec]. unfold completeWithdrawal.
  split; [|split; [|split; [|split]]].
  - intros ->. reflexivity.
  - intros Hu Hp. apply N.eqb_neq in Hu. now rewrite Hu, Hp.
  - intros Hu Hp Hov. apply N.eqb_neq in Hu. rewrite Hu, Hp.
    apply N.leb_gt in Hov. now rewrite Hov.
  - intros Hu Hp Hov Hd. apply N.eqb_neq in Hu. rewrite Hu, Hp.
    apply N.leb_le in Hov. rewrite Hov. cbn [negb].
    apply N.leb_gt in Hd. now rewrite Hd.
  - intros Hu Hp Hov Hd.
    set (s1 := with_withdrawal id (setProcessed (withdrawalAt s id)) s).
    apply N.eqb_neq in Hu. rewrite Hu, Hp.
    apply N.leb_le in Hov, Hd. rewrite Hov, Hd. cbn [negb].
    split; [|split; [|split; [|split; [|split]]]].
    + intros -> Hb. cbn. apply N.leb_gt in Hb. now rewrite Hb.
    + intros -> Hb Ha. cbn. apply N.leb_le in Hb. now rewrite Hb, Ha.
    + intros -> Hb data Ha. cbn. apply N.leb_le in Hb. now rewrite Hb, Ha.
    + intros Ht Ha. apply N.eqb_neq in Ht. rewrite Ht. now destruct Ha as [-> | ->].
    + intros Ht data Ha. apply N.eqb_neq in Ht. now rewrite Ht, Ha.
    + intros s' l e' Hx.
      assert (Hs' : withdrawals s' = withdrawals s1).
      { bridge_cases Hx; injection Hx as <- _; reflexivity. }
      assert (Hw : forall j, withdrawalAt s' j = withdrawalAt s1 j)
        by (intros j; unfold withdrawalAt; now rewrite Hs').
      split; [|split].
      * rewrite Hw. unfold s1. rewrite withdrawalAt_insert.
        now destruct (decide (id = id)).
      * intros j Hj. rewrite Hw. unfold s1. rewrite withdrawalAt_insert.
        destruct (decide (id = j)); [congruence | reflexivity].
      * rewrite Hw. unfold s1. rewrite withdrawalAt_insert.
        destruct (decide (id = id)); [|congruence]. cbn. now rewrite Hu.
Qed.

(** *** Withdrawal records over time *)

(** The call writes the record of withdrawal [id]. *)
Definition initiates (id : bytes32) (ec : Env * Call) : bool :=
  match snd ec with
  | InitiateWithdrawal u a t _ => withdrawalIdOf u a t (block_timestamp (fst ec)) =? id
  | _ => false
  end.

Lemma exec_keeps_withdrawal e c s s' l id :
  exec e c s = Ok (s', l) ->
  initiates id (e, c) = false ->
  withdrawalAt s' id = withdrawalAt s id \/
  withdrawalAt s' id = setProcessed (withdrawalAt s id).
Proof.
  intros H Hi. destruct c; cbn [exec] in H;
    unfold depositETH, depositToken, record, initiateWithdrawal, completeWithdrawal,
      onlyOwner in H.
  all: bridge_cases H; try (injection H as <- _; left; reflexivity).
  - unfold initiates in Hi. cbn in Hi. injection H as <- _.
    left. rewrite withdrawalAt_insert. apply N.eqb_neq in Hi.
    destruct (decide _); [congruence | reflexivity].
  - injection H as <- _.
    change (withdrawalAt (with_balance _ ?t) id) with (withdrawalAt t id).
    rewrite withdrawalAt_insert. destruct (decide _) as [->|]; auto.
  - injection H as <- _. rewrite withdrawalAt_insert. destruct (decide _) as [->|]; auto.
  - injection H as <- _. rewrite withdrawalAt_insert. destruct (decide _) as [->|]; auto.
Qed.

Lemma run_keeps_processed id calls : forall s,
  forallb (fun ec => negb (initiates id ec)) calls = true ->
  user (withdrawalAt (run s calls) id) = user (withdrawalAt s id) /\
  (processed (withdrawalAt s id) = true ->
   processed (withdrawalAt (run s calls) id) = true).
Proof.
  induction calls as [|[e c] calls IH]; intros s Hall; [split; auto|].
  cbn [forallb] in Hall. apply andb_prop in Hall as [Hc Hall].
  apply negb_true_iff in Hc.
  change (run s ((e, c) :: calls)) with (run (step s (e, c)) calls).
  destruct (IH (step s (e, c)) Hall) as [Hu Hp].
  assert (Hstep : user (withdrawalAt (step s (e, c)) id) = user (withdrawalAt s id) /\
            (processed (withdrawalAt s id) = true ->
             processed (withdrawalAt (step s (e, c)) id) = true)).
  { unfold step. cbn [fst snd]. destruct (exec e c s) as [[s' l]| |] eqn:Hx; auto.
    destruct (exec_keeps_withdrawal _ _ _ _ _ id Hx Hc) as [-> | ->]; auto. }
  destruct Hstep as [Hu' Hp']. split; [congruence | auto].
Qed.

(** X25.  A completed withdrawal is not paid again: whatever calls follow, as
    long as none of them initiates a withdrawal with the same id, every
    further [completeWithdrawal] of it is rejected. *)
Theorem withdrawal_paid_once (e : Env) (s s' : State) (l : list Effect) (id : bytes32)
    (calls : list (Env * Call)) (e' : Env) :
  exec e (CompleteWithdrawal id) s = Ok (s', l) ->
  forallb (fun ec => negb (initiates id ec)) calls = true ->
  exec e' (CompleteWithdrawal id) (run s' calls) = Revert "Withdrawal already processed".
Proof.
  intros Hx Hall.
  assert (H0 : user (withdrawalAt s' id) <> 0 /\ processed (withdrawalAt s' id) = true).
  { cbn [exec] in Hx. unfold completeWithdrawal in Hx.
    bridge_cases Hx; injection Hx as <- _;
      try change (withdrawalAt (with_balance _ ?t) id) with (withdrawalAt t id);
      rewrite withdrawalAt_insert; (destruct (decide (id = id)); [|congruence]);
      cbn; (split; [|reflexivity]);
      match goal with H : (_ =? 0) = false |- _ => now apply N.eqb_neq in H end. }
  destruct H0 as [Hu Hp].
  destruct (run_keeps_processed id calls s' Hall) as [Hu' Hp'].
  cbn [exec]. unfold completeWithdrawal. rewrite Hu'.
  apply N.eqb_neq in Hu. rewrite Hu, (Hp' Hp). reflexivity.
Qed.

(** X26.  Two withdrawals initiated for the same user, amount and token in
    blocks with the same timestamp share one id: the second overwrites
    the first, and the ledger is as if only the second had been
    initiated. *)
Theorem same_block_withdrawals_collapse (e1 e2 : Env) (s : State)
    (u : address) (a : uint256) (t : address) (p1 p2 : bytes32) :
  msg_sender e1 = rollupContract s ->
  msg_sender e2 = rollupContract s ->
  block_timestamp e1 = block_timestamp e2 ->
  run s [(e1, InitiateWithdrawal u a t p1); (e2, InitiateWithdrawal u a t p2)] =
  run s [(e2, InitiateWithdrawal u a t p2)] /\
  withdrawalAt (run s [(e2, InitiateWithdrawal u a t p2)])
    (withdrawalIdOf u a t (block_timestamp e2)) =
    mkWithdrawalRecord u a t p2 (block_timestamp e2) false.
Proof.
  intros H1 H2 Ht. unfold run, step. cbn [fold_left fst snd exec].
  unfold initiateWithdrawal. rewrite H1, N.eqb_refl. cbn [rollupContract with_withdrawal].
  rewrite H2, N.eqb_refl, Ht. split.
  - unfold with_withdrawal. cbn. now rewrite insert_insert_eq.
  - rewrite withdrawalAt_insert. now destruct (decide _).
Qed.

(** *** Deposits *)

Lemma exec_keeps_deposits e c s s' l :
  exec e c s = Ok (s', l) ->
  depositCounter s <= depositCounter s' /\
  forall i, i < depositCounter s -> depositAt s' i = depositAt s i.
Proof.
  intros H. destruct c; cbn [exec] in H;
    unfold depositETH, depositToken, record, initiateWithdrawal, completeWithdrawal,
      onlyOwner in H.
  all: bridge_cases H; injection H as <- _; cbn; (split; [lia|]); intros i Hi;
    try reflexivity.
  all: unfold depositAt; cbn; rewrite lookup_insert_ne by lia; reflexivity.
Qed.

(** X27.  A deposit that goes through came with a positive amount, for a
    token also with a supported token that handed the amount over, and is
    recorded under the next deposit id with the sender, the amount, the
    token (0 for ether) and the time; no other call touches the deposits.
    Whatever calls follow, a recorded deposit stays exactly as it was
    written, its [processed] flag unset. *)
Theorem deposits_are_final (s : State) :
  (forall e c s' l,
     exec e c s = Ok (s', l) ->
     match c with
     | DepositETH v =>
         0 < v /\ balance s' = balance s + v /\
         depositCounter s' = depositCounter s + 1 /\
         depositAt s' (depositCounter s) =
           mkDepositRecord (msg_sender e) v 0 (block_timestamp e) false
     | DepositToken t a =>
         supported s t = true /\ 0 < a /\
         transferFrom e t (msg_sender e) a = ReturnsTrue /\ balance s' = balance s /\
         depositCounter s' = depositCounter s + 1 /\
         depositAt s' (depositCounter s) =
           mkDepositRecord (msg_sender e) a t (block_timestamp e) false
     | _ => depositCounter s' = depositCounter s /\ deposits s' = deposits s
     end) /\
  (forall calls,
     depositCounter s <= depositCounter (run s calls) /\
     forall i, i < depositCounter s -> depositAt (run s calls) i = depositAt s i).
Proof.
  split.
  - intros e c s' l H. destruct c; cbn [exec] in H;
      unfold depositETH, depositToken, record, initiateWithdrawal, completeWithdrawal,
        onlyOwner in H.
    all: bridge_cases H; injection H as <- _; try (split; reflexivity).
    all: repeat match goal with
           | H : negb _ = false |- _ => apply negb_false_iff in H
           | H : (0 <? _) = true |- _ => apply N.ltb_lt in H
           end.
    + repeat split; auto. unfold depositAt; cbn. now rewrite lookup_insert_eq.
    + repeat split; auto. unfold depositAt; cbn. now rewrite lookup_insert_eq.
  - intros calls. revert s. induction calls as [|[e c] calls IH]; intros s.
    + split; [cbn; lia | reflexivity].
    + change (run s ((e, c) :: calls)) with (run (step s (e, c)) calls).
      destruct (IH (step s (e, c))) as [Hc Hd].
      assert (Hstep : depositCounter s <= depositCounter (step s (e, c)) /\
                forall i, i < depositCounter s ->
                          depositAt (step s (e, c)) i = depositAt s i).
      { unfold step. cbn [fst snd]. destruct (exec e c s) as [[s' l]| |] eqn:Hx.
        - eapply exec_keeps_deposits; eauto.
        - split; [lia | reflexivity].
        - split; [lia | reflexivity]. }
      destruct Hstep as [Hc' Hd']. split; [lia|].
      intros i Hi. rewrite Hd by lia. now apply Hd'.
Qed.

End Hashed.

(** *** An example ledger *)

(** A stand-in for the hash, tokens that always hand over and recipients
    that accept ether. *)
Definition toyId (u : address) (a : uint256) (t : address) (ts : uint256) : bytes32 :=
  u + 1000 * a + 1000000 * t + 1000000000 * ts.

Definition at_ (sender : address) (time : uint256) : Env :=
  mkEnv sender time (fun _ _ _ => ReturnsTrue) (fun _ _ _ => ReturnsTrue)
    (fun _ _ => Accepts).

(** Address 100 deployed the bridge for the rollup contract at address 50
    with a delay of 60 seconds; address 7 deposited 10 wei, and the rollup
    initiated a withdrawal of 4 wei for address 9 at time 1000. *)
Definition funded : State :=
  run toyId (constructor 100 50 60)
    [ (at_ 7 900, DepositETH 10);
      (at_ 50 1000, InitiateWithdrawal 9 4 0 77) ].

Definition fundedId : bytes32 := toyId 9 4 0 1000.

(** Completed at time 1060; a later deposit, a withdrawal initiated for
    somebody else and a change of the delay do not make it payable
    again. *)
Lemma withdrawal_paid_once_witness :
  exec toyId (at_ 9 5000) (CompleteWithdrawal fundedId)
    (run toyId (step toyId funded (at_ 9 1060, CompleteWithdrawal fundedId))
       [ (at_ 7 1100, DepositETH 5);
         (at_ 50 1200, InitiateWithdrawal 8 4 0 78);
         (at_ 100 1300, SetWithdrawalDelay 0) ])
  = Revert "Withdrawal already processed".
Proof.
  apply (withdrawal_paid_once toyId (at_ 9 1060) funded
           (step toyId funded (at_ 9 1060, CompleteWithdrawal fundedId))
           [Sent 9 4; Emitted (WithdrawalCompleted fundedId 9 4 0)]);
    vm_compute; reflexivity.
Defined.

(** The withdrawal of [funded] at time 1060, the first moment it is due:
    paid to a user who accepts ether, and failing with the user's reason
    for one who does not. *)
Definition refusing (sender : address) (time : uint256) : Env :=
  mkEnv sender time (fun _ _ _ => ReturnsTrue) (fun _ _ _ => ReturnsTrue)
    (fun _ _ => Refuses (Reason "no ether please")).

Lemma completeWithdrawal_spec_witness :
  (exists s',
     exec toyId (at_ 9 1060) (CompleteWithdrawal fundedId) funded =
       Ok (s', [Sent 9 4; Emitted (WithdrawalCompleted fundedId 9 4 0)]) /\
     balance s' = 6) /\
  exec toyId (refusing 9 1060) (CompleteWithdrawal fundedId) funded
    = Revert "no ether please" /\
  exec toyId (at_ 9 1059) (CompleteWithdrawal fundedId) funded
    = Revert "Withdrawal delay not met".
Proof.
  destruct (completeWithdrawal_spec toyId (at_ 9 1060) funded fundedId)
    as (_ & _ & _ & _ & Hdue).
  destruct Hdue as (_ & Hpaid & _); [vm_compute; congruence..|].
  destruct (completeWithdrawal_spec toyId (refusing 9 1060) funded fundedId)
    as (_ & _ & _ & _ & Hdue').
  destruct Hdue' as (_ & _ & Hrefused & _); [vm_compute; congruence..|].
  destruct (completeWithdrawal_spec toyId (at_ 9 1059) funded fundedId)
    as (_ & _ & _ & Hearly & _).
  split; [|split].
  - exists (step toyId funded (at_ 9 1060, CompleteWithdrawal fundedId)).
    split; [|vm_compute; reflexivity].
    rewrite Hpaid; vm_compute; congruence.
  - rewrite (Hrefused ltac:(vm_compute; reflexivity) ltac:(vm_compute; congruence)
               (Reason "no ether please") ltac:(reflexivity)).
    reflexivity.
  - apply Hearly; vm_compute; congruence.
Defined.

(** Two withdrawals of 4 wei for address 9 in the block of time 1000. *)
Lemma same_block_withdrawals_collapse_witness :
  let s := run toyId (constructor 100 50 60) [(at_ 7 900, DepositETH 10)] in
  run toyId s [ (at_ 50 1000, InitiateWithdrawal 9 4 0 77);
                (at_ 50 1000, InitiateWithdrawal 9 4 0 78) ] =
  run toyId s [ (at_ 50 1000, InitiateWithdrawal 9 4 0 78) ] /\
  withdrawalAt (run toyId s [ (at_ 50 1000, InitiateWithdrawal 9 4 0 78) ])
    (toyId 9 4 0 1000) = mkWithdrawalRecord 9 4 0 78 1000 false.
Proof.
  intros s.
  apply (same_block_withdrawals_collapse toyId (at_ 50 1000) (at_ 50 1000) s 9 4 0 77 78);
    vm_compute; reflexivity.
Defined.

End Bridge.


(** ** The transaction pool of the sequencer *)

Module Pool.

Local Open Scope Z_scope.

Abbreviation Outcome := Settlement.Outcome.
Abbreviation Resolved := Settlement.Resolved.
Abbreviation Rejected := Settlement.Rejected.

(** A transaction as it is handed to [addTransaction], without hash and
    timestamp. *)
Record TransactionRequest := mkTransactionRequest {
  request_to : string;
  request_value : Z;
  request_data : string;
  request_gasLimit : float;
  request_gasPrice : Z;
  request_nonce : float;
  request_from : option string
}.

Record Transaction := mkTransaction {
  hash : string;
  to : string;
  value : Z;
  data : string;
  gasLimit : float;
  gasPrice : Z;
  nonce : float;
  from : option string;
  timestamp : float
}.

Inductive Status := pending | processing | processed | failed.

Record TransactionStatus := mkTransactionStatus {
  status_hash : string;
  status : Status;
  status_timestamp : float;
  batchId : option string
}.

(** A JavaScript [Map] with string keys: one entry for each key, in
    insertion order; [set] on a present key replaces the value in place. *)
Abbreviation StrMap V := (list (string * V)).

Fixpoint Map_set {V} (k : string) (v : V) (m : StrMap V) : StrMap V :=
  match m with
  | [] => [(k, v)]
  | (k', v') :: rest =>
      if decide (k = k') then (k, v) :: rest else (k', v') :: Map_set k v rest
  end.

Fixpoint Map_get {V} (k : string) (m : StrMap V) : option V :=
  match m with
  | [] => None
  | (k', v') :: rest => if decide (k = k') then Some v' else Map_get k rest
  end.

Definition Map_delete {V} (k : string) (m : StrMap V) : StrMap V :=
  filter (fun entry => fst entry <> k) m.

Record TransactionPool := mkTransactionPool {
  pendingTransactions : StrMap Transaction;
  transactionStatuses : StrMap TransactionStatus;
  nonces : StrMap float
}.

Definition new_TransactionPool : TransactionPool := mkTransactionPool [] [] [].

Definition with_pending (m : StrMap Transaction) (p : TransactionPool) :=
  mkTransactionPool m (transactionStatuses p) (nonces p).
Definition with_statuses (m : StrMap TransactionStatus) (p : TransactionPool) :=
  mkTransactionPool (pendingTransactions p) m (nonces p).

Definition zeroAddress : string := "0x0000000000000000000000000000000000000000".

(** [validateTransaction]: the message of the error it throws, if any. *)
Definition validateTransaction (tx : TransactionRequest) : option string :=
  if decide (request_to tx = ""%string) then Some "Invalid recipient address"%string
  else if decide (request_to tx = zeroAddress) then Some "Invalid recipient address"%string
  else if request_value tx <? 0 then Some "Invalid value"%string
  else if (request_gasLimit tx <? 21000)%float then Some "Gas limit too low"%string
  else if request_gasPrice tx <=? 0 then Some "Invalid gas price"%string
  else if (request_nonce tx <? 0)%float then Some "Invalid nonce"%string
  else None.

Definition setStatus (st : Status) (s : TransactionStatus) : TransactionStatus :=
  mkTransactionStatus (status_hash s) st (status_timestamp s) (batchId s).

(** One turn of the [forEach] of the three [markTransactions...]
    methods: the status object is changed if there is one. *)
Definition mark (st : Status) (p : TransactionPool) (h : string) : TransactionPool :=
  match Map_get h (transactionStatuses p) with
  | Some s => with_statuses (Map_set h (setStatus st s) (transactionStatuses p)) p
  | None => p
  end.

Definition remove (p : TransactionPool) (h : string) : TransactionPool :=
  with_pending (Map_delete h (pendingTransactions p)) p.

Definition markTransactionsProcessing (hashes : list string) (p : TransactionPool)
  : TransactionPool :=
  fold_left (mark processing) hashes p.

Definition markTransactionsProcessed (hashes : list string) (p : TransactionPool)
  : TransactionPool :=
  fold_left (fun p h => remove (mark processed p h) h) hashes p.

Definition markTransactionsFailed (hashes : list string) (p : TransactionPool)
  : TransactionPool :=
  fold_left (fun p h => remove (mark failed p h) h) hashes p.

Definition getTransactionStatus (h : string) (p : TransactionPool)
  : option TransactionStatus :=
  Map_get h (transactionStatuses p).

Definition size (p : TransactionPool) : nat := length (pendingTransactions p).

(** [now - tx.timestamp > maxAge]. *)
Definition expired (now maxAge : float) (tx : Transaction) : bool :=
  (maxAge <? now - timestamp tx)%float.

Definition expiredHashes (now maxAge : float) (p : TransactionPool) : list string :=
  map fst (filter (fun entry => expired now maxAge (snd entry) = true)
             (pendingTransactions p)).

(** [cleanupExpiredTransactions] when the clock reads [now]. *)
Definition cleanupExpiredTransactions (now maxAge : float) (p : TransactionPool)
  : TransactionPool :=
  fold_left (fun p h =>
               with_statuses (Map_delete h (transactionStatuses p)) (remove p h))
    (expiredHashes now maxAge p) p.

(** What a method of the pool throws: an [Error] with its message, or the
    [TypeError] of calling something that is not a function. *)
Inductive Exception :=
| Error (message : string)
| NotAFunction (callee : string).

Section Library.

(** What [import { keccak256 } from "keccak"] binds the name to: the
    function of that name, from the bytes of a string to their digest in
    hexadecimal, or [undefined] if the package has no export of that
    name, and the package published as [keccak] has none;
    [Number.prototype.toString]; [String.prototype.localeCompare];
    [BigInt.prototype.toString]. *)
Variable keccak256 : option (string -> string).
Variable Number_toString : float -> string.
Variable localeCompare : string -> string -> float.
Variable BigInt_toString : Z -> string.

(** [generateTransactionHash]: the digest of the fields written out one
    after the other, or the error of calling [keccak256]. *)
Definition generateTransactionHash (tx : TransactionRequest) (timestamp : float)
  : Outcome Exception string :=
  let data :=
    (request_to tx ++ BigInt_toString (request_value tx) ++ request_data tx
     ++ Number_toString (request_gasLimit tx) ++ BigInt_toString (request_gasPrice tx)
     ++ Number_toString (request_nonce tx) ++ Number_toString timestamp)%string in
  match keccak256 with
  | Some digest => Resolved ("0x" ++ digest data)%string
  | None => Rejected (NotAFunction "keccak256")
  end.

(** [addTransaction] when the clock reads [now]: the hash returned or the
    error thrown, and the pool afterwards.  The hash is computed first,
    the request validated next. *)
Definition addTransaction (now : float) (tx : TransactionRequest) (p : TransactionPool)
  : Outcome Exception string * TransactionPool :=
  match generateTransactionHash tx now with
  | Settlement.Rejected error => (Rejected error, p)
  | Settlement.Resolved hash =>
      match validateTransaction tx with
      | Some message => (Rejected (Error message), p)
      | None =>
          let transaction :=
            mkTransaction hash (request_to tx) (request_value tx) (request_data tx)
              (request_gasLimit tx) (request_gasPrice tx) (request_nonce tx)
              (request_from tx) now in
          (Resolved hash,
           with_statuses
             (Map_set hash (mkTransactionStatus hash pending now None)
                (transactionStatuses p))
             (with_pending (Map_set hash transaction (pendingTransactions p)) p))
      end
  end.

Definition byGasPrice (a b : Transaction) : float :=
  localeCompare (BigInt_toString (gasPrice b)) (BigInt_toString (gasPrice a)).

Definition getPendingTransactions (p : TransactionPool) : list Transaction :=
  Settlement.Array_sort byGasPrice (map snd (pendingTransactions p)).

(** [getTransactionsForBatch] for a count that is a whole number and not
    negative. *)
Definition getTransactionsForBatch (maxCount : nat) (p : TransactionPool)
  : list Transaction :=
  take maxCount (getPendingTransactions p).

(** *** The maps *)

Lemma pending_get_set {V} (k k' : string) (v : V) (m : StrMap V) :
  Map_get k' (Map_set k v m) = if decide (k' = k) then Some v else Map_get k' m.
Proof.
  induction m as [|[k0 v0] m IH]; cbn.
  - destruct (decide (k' = k)); reflexivity.
  - destruct (decide (k = k0)) as [->|Hne]; cbn.
    + destruct (decide (k' = k0)); reflexivity.
    + rewrite IH. destruct (decide (k' = k0)) as [->|]; [|reflexivity].
      now rewrite decide_False by congruence.
Qed.

Lemma Map_set_length {V} (k : string) (v : V) (m : StrMap V) :
  length (Map_set k v m) =
  if decide (k ∈ map fst m) then length m else S (length m).
Proof.
  induction m as [|[k0 v0] m IH]; cbn.
  - rewrite decide_False; [reflexivity | apply not_elem_of_nil].
  - destruct (decide (k = k0)) as [->|Hne]; cbn.
    + rewrite decide_True; [reflexivity | apply list_elem_of_here].
    + rewrite IH. destruct (decide (k ∈ map fst m)) as [Hin|Hin].
      * rewrite decide_True; [reflexivity | now apply list_elem_of_further].
      * rewrite decide_False; [reflexivity|].
        intros Hin'. apply elem_of_cons in Hin' as [Heq|Hin']; congruence.
Qed.

Lemma Map_get_kept {V} (hashes : list string) (k : string) (m : StrMap V) :
  k ∉ hashes -> Map_get k (filter (fun entry => fst entry ∉ hashes) m) = Map_get k m.
Proof.
  intros Hk. induction m as [|[k0 v0] m IH]; [reflexivity|].
  rewrite filter_cons. cbn [fst]. destruct (decide (k0 ∉ hashes)) as [H0|H0]; cbn.
  - now rewrite IH.
  - rewrite IH. rewrite decide_False; [reflexivity|]. intros ->. now apply H0.
Qed.

Lemma pending_get_In {V} (m : StrMap V) k v :
  NoDup (map fst m) -> In (k, v) m -> Map_get k m = Some v.
Proof.
  induction m as [|[k' v'] m IH]; intros Hnd Hin; [destruct Hin|].
  cbn in *. apply NoDup_cons in Hnd as [Hk Hnd].
  destruct Hin as [[= -> ->]|Hin].
  - now rewrite decide_True.
  - rewrite decide_False; [now apply IH|].
    intros ->. apply Hk. apply list_elem_of_In.
    change k' with (fst (k', v)). now apply in_map.
Qed.

Lemma delete_all {V} (hashes : list string) : forall (m : StrMap V),
  fold_left (fun m h => Map_delete h m) hashes m =
  filter (fun entry => fst entry ∉ hashes) m.
Proof.
  induction hashes as [|h hashes IH]; intros m; cbn [fold_left].
  - induction m as [|e m IHm]; [reflexivity|].
    rewrite filter_cons, decide_True by apply not_elem_of_nil. now rewrite <- IHm.
  - rewrite IH. unfold Map_delete. clear IH.
    induction m as [|e m IHm]; [reflexivity|].
    rewrite !filter_cons. destruct (decide (fst e <> h)) as [Hne|Heq].
    + rewrite filter_cons. destruct (decide (fst e ∉ hashes)) as [Hn|Hn].
      * rewrite decide_True; [now rewrite IHm|].
        intros Hin. apply elem_of_cons in Hin as [?|?]; congruence.
      * rewrite decide_False; [exact IHm|].
        intros Hn'. apply Hn. intros Hin. apply Hn'. now apply list_elem_of_further.
    + rewrite decide_False; [exact IHm|].
      intros Hn'. apply Hn'. apply dec_stable in Heq. rewrite Heq. apply list_elem_of_here.
Qed.

(** *** Adding a transaction *)

(** X28.  [addTransaction] computes the hash before it looks at the request.
    If [keccak256] is not a function, as with the [keccak] package, which
    exports none of that name, every call throws the [TypeError] of
    calling it, for a valid request as for an invalid one, and the pool
    stays as it was.  If it is a function: a request is valid when its
    recipient is neither empty nor the zero address, its value is not
    negative, its gas limit is not below 21000, its gas price is positive
    and its nonce is not negative; an invalid request is thrown out with
    the message of the first check it fails and the pool stays as it was;
    a valid one is filed under its hash as pending, stamped with the
    clock, next to what was there, and the pool grows by one unless the
    hash was pending already. *)
Theorem addTransaction_spec (now : float) (tx : TransactionRequest) (p : TransactionPool) :
  (validateTransaction tx = None <->
   request_to tx <> ""%string /\ request_to tx <> zeroAddress /\
   0 <= request_value tx /\ (request_gasLimit tx <? 21000)%float = false /\
   0 < request_gasPrice tx /\ (request_nonce tx <? 0)%float = false) /\
  (keccak256 = None ->
   addTransaction now tx p = (Rejected (NotAFunction "keccak256"), p)) /\
  (forall digest, keccak256 = Some digest ->
   match addTransaction now tx p with
   | (Settlement.Rejected error, p') =>
       (exists message, error = Error message /\ validateTransaction tx = Some message) /\
       p' = p
   | (Settlement.Resolved h, p') =>
       validateTransaction tx = None /\
       generateTransactionHash tx now = Resolved h /\
       getTransactionStatus h p' = Some (mkTransactionStatus h pending now None) /\
       Map_get h (pendingTransactions p') =
         Some (mkTransaction h (request_to tx) (request_value tx) (request_data tx)
                 (request_gasLimit tx) (request_gasPrice tx) (request_nonce tx)
                 (request_from tx) now) /\
       (forall h', h' <> h ->
          getTransactionStatus h' p' = getTransactionStatus h' p /\
          Map_get h' (pendingTransactions p') = Map_get h' (pendingTransactions p)) /\
       size p' = (if decide (h ∈ map fst (pendingTransactions p)) then size p
                  else S (size p)) /\
       nonces p' = nonces p
   end).
Proof.
  split; [|split].
  - unfold validateTransaction.
    destruct (decide (request_to tx = ""%string)) as [H1|H1];
      [split; [discriminate | intros (? & _); congruence]|].
    destruct (decide (request_to tx = zeroAddress)) as [H2|H2];
      [split; [discriminate | intros (_ & ? & _); congruence]|].
    destruct (request_value tx <? 0) eqn:H3;
      [split; [discriminate | intros (_ & _ & ? & _); apply Z.ltb_lt in H3; lia]|].
    destruct (request_gasLimit tx <? 21000)%float eqn:H4;
      [split; [discriminate | intros (_ & _ & _ & ? & _); congruence]|].
    destruct (request_gasPrice tx <=? 0) eqn:H5;
      [split; [discriminate | intros (_ & _ & _ & _ & ? & _); apply Z.leb_le in H5; lia]|].
    destruct (request_nonce tx <? 0)%float eqn:H6;
      [split; [discriminate | intros (_ & _ & _ & _ & _ & ?); congruence]|].
    apply Z.ltb_ge in H3. apply Z.leb_gt in H5. split; auto 10.
  - intros Hk. unfold addTransaction, generateTransactionHash. now rewrite Hk.
  - intros digest Hk. unfold addTransaction, generateTransactionHash. rewrite Hk.
    destruct (validateTransaction tx) as [message|]; [split; [now exists message | reflexivity]|].
    split; [reflexivity|]. split; [reflexivity|].
    unfold getTransactionStatus, size. cbn.
    split; [rewrite pending_get_set; now rewrite decide_True|].
    split; [rewrite pending_get_set; now rewrite decide_True|].
    split; [|split; [apply Map_set_length | reflexivity]].
    intros h' Hne. rewrite !pending_get_set. now rewrite !decide_False by exact Hne.
Qed.

(** *** Marking transactions *)

Lemma mark_status st p h h' :
  getTransactionStatus h' (mark st p h) =
  if decide (h' = h) then setStatus st <$> getTransactionStatus h' p
  else getTransactionStatus h' p.
Proof.
  unfold mark, getTransactionStatus.
  destruct (Map_get h (transactionStatuses p)) as [s|] eqn:Hs; cbn.
  - rewrite pending_get_set. destruct (decide (h' = h)) as [->|]; [|reflexivity].
    now rewrite Hs.
  - destruct (decide (h' = h)) as [->|]; [|reflexivity]. now rewrite Hs.
Qed.

Lemma setStatus_twice st (s : option TransactionStatus) :
  setStatus st <$> (setStatus st <$> s) = setStatus st <$> s.
Proof. now destruct s. Qed.

Lemma marked_statuses st (touch : TransactionPool -> string -> TransactionPool) hashes :
  (forall p h h', getTransactionStatus h' (touch p h) =
     if decide (h' = h) then setStatus st <$> getTransactionStatus h' p
     else getTransactionStatus h' p) ->
  forall p h',
  getTransactionStatus h' (fold_left touch hashes p) =
  if decide (h' ∈ hashes) then setStatus st <$> getTransactionStatus h' p
  else getTransactionStatus h' p.
Proof.
  intros Htouch. induction hashes as [|h hashes IH]; intros p h'; cbn [fold_left].
  - rewrite decide_False; [reflexivity | apply not_elem_of_nil].
  - rewrite IH, Htouch. destruct (decide (h' = h)) as [->|Hne].
    + rewrite (decide_True (P := h ∈ h :: hashes)) by apply list_elem_of_here.
      rewrite setStatus_twice. now destruct (decide (h ∈ hashes)).
    + destruct (decide (h' ∈ hashes)) as [Hin|Hin].
      * rewrite decide_True; [reflexivity | now apply list_elem_of_further].
      * rewrite decide_False; [reflexivity|].
        intros Hin'. apply elem_of_cons in Hin' as [?|?]; congruence.
Qed.

Lemma marked_pending st hashes : forall p,
  pendingTransactions (fold_left (fun p h => remove (mark st p h) h) hashes p) =
  fold_left (fun m h => Map_delete h m) hashes (pendingTransactions p).
Proof.
  induction hashes as [|h hashes IH]; intros p; cbn [fold_left]; [reflexivity|].
  rewrite IH. f_equal. unfold remove, mark.
  destruct (Map_get h (transactionStatuses p)); reflexivity.
Qed.

Lemma processing_pending hashes : forall p,
  pendingTransactions (markTransactionsProcessing hashes p) = pendingTransactions p.
Proof.
  unfold markTransactionsProcessing.
  induction hashes as [|h hashes IH]; intros p; cbn [fold_left]; [reflexivity|].
  rewrite IH. unfold mark. destruct (Map_get h (transactionStatuses p)); reflexivity.
Qed.

(** X29.  Marking transactions as processing changes their status and nothing
    else: they stay in the pending pool and are handed out again for the
    next batch.  Marking them as processed or failed changes the status
    of those that have one and takes all of them out of the pending pool,
    so that none of them is handed out again, while the others stay in
    the pool. *)
Theorem marking_spec (hashes : list string) (p : TransactionPool) (maxCount : nat) :
  let busy := markTransactionsProcessing hashes p in
  let done := markTransactionsProcessed hashes p in
  let lost := markTransactionsFailed hashes p in
  let marked st h :=
    if decide (h ∈ hashes) then setStatus st <$> getTransactionStatus h p
    else getTransactionStatus h p in
  let others := filter (fun entry => fst entry ∉ hashes) (pendingTransactions p) in
  (pendingTransactions busy = pendingTransactions p /\
   getTransactionsForBatch maxCount busy = getTransactionsForBatch maxCount p /\
   forall h, getTransactionStatus h busy = marked processing h) /\
  (pendingTransactions done = others /\
   getPendingTransactions done ≡ₚ map snd others /\
   (forall h, getTransactionStatus h done = marked processed h)) /\
  (pendingTransactions lost = others /\
   getPendingTransactions lost ≡ₚ map snd others /\
   (forall h, getTransactionStatus h lost = marked failed h)).
Proof.
  intros busy done lost marked others.
  assert (Hrem : forall st p h h',
            getTransactionStatus h' (remove (mark st p h) h) =
            if decide (h' = h) then setStatus st <$> getTransactionStatus h' p
            else getTransactionStatus h' p)
    by (intros; apply mark_status).
  split; [|split].
  - subst busy. split; [apply processing_pending|]. split.
    + unfold getTransactionsForBatch, getPendingTransactions.
      now rewrite processing_pending.
    + intros h. apply marked_statuses. apply mark_status.
  - subst done others. unfold markTransactionsProcessed.
    assert (Hp : pendingTransactions
                   (fold_left (fun p h => remove (mark processed p h) h) hashes p) =
                 filter (fun entry => fst entry ∉ hashes) (pendingTransactions p))
      by (rewrite marked_pending; apply delete_all).
    split; [exact Hp|]. split.
    + unfold getPendingTransactions. rewrite Hp. apply Settlement.Array_sort_Permutation.
    + intros h. apply (marked_statuses processed); apply Hrem.
  - subst lost others. unfold markTransactionsFailed.
    assert (Hp : pendingTransactions
                   (fold_left (fun p h => remove (mark failed p h) h) hashes p) =
                 filter (fun entry => fst entry ∉ hashes) (pendingTransactions p))
      by (rewrite marked_pending; apply delete_all).
    split; [exact Hp|]. split.
    + unfold getPendingTransactions. rewrite Hp. apply Settlement.Array_sort_Permutation.
    + intros h. apply (marked_statuses failed); apply Hrem.
Qed.

(** *** Cleaning up *)

Lemma cleanup_fold hashes : forall p,
  fold_left (fun p h =>
               with_statuses (Map_delete h (transactionStatuses p)) (remove p h)) hashes p =
  mkTransactionPool
    (fold_left (fun m h => Map_delete h m) hashes (pendingTransactions p))
    (fold_left (fun m h => Map_delete h m) hashes (transactionStatuses p))
    (nonces p).
Proof.
  induction hashes as [|h hashes IH]; intros p; cbn [fold_left]; [now destruct p|].
  rewrite IH. reflexivity.
Qed.

Lemma filter_expired_keys {V} (P : V -> bool) (m : StrMap V) :
  NoDup (map fst m) ->
  filter (fun entry => fst entry ∉ map fst (filter (fun entry => P (snd entry) = true) m)) m =
  filter (fun entry => P (snd entry) = false) m.
Proof.
  intros Hnd.
  assert (H : forall l : StrMap V, (forall e, e ∈ l -> e ∈ m) ->
            filter (fun entry =>
                      fst entry ∉ map fst (filter (fun entry => P (snd entry) = true) m)) l =
            filter (fun entry => P (snd entry) = false) l).
  { induction l as [|[k v] l IH]; intros Hl; [reflexivity|].
    rewrite !filter_cons. cbn [fst snd].
    rewrite IH by (intros e He; apply Hl; now right).
    destruct (P v) eqn:Hv.
    - assert (Hin : k ∈ map fst (filter (fun entry => P (snd entry) = true) m)).
      { apply list_elem_of_In. change k with (fst (k, v)). apply in_map.
        apply list_elem_of_In. apply list_elem_of_filter.
        split; [exact Hv | apply Hl; left]. }
      rewrite decide_False by (intros Hn; now apply Hn).
      rewrite decide_False by congruence. reflexivity.
    - assert (Hn : k ∉ map fst (filter (fun entry => P (snd entry) = true) m)).
      { intros Hin. apply list_elem_of_In, in_map_iff in Hin as ([k' v'] & Hk & Hin).
        cbn in Hk. subst k'.
        apply list_elem_of_In, list_elem_of_filter in Hin as [Hv' Hin]. cbn in Hv'.
        assert (Hkv : (k, v) ∈ m) by (apply Hl; left).
        apply list_elem_of_In, (pending_get_In _ _ _ Hnd) in Hin, Hkv. congruence. }
      rewrite decide_True by exact Hn. rewrite decide_True by reflexivity. reflexivity. }
  apply H. auto.
Qed.

(** X30.  [cleanupExpiredTransactions] drops from the pending pool and from the
    statuses the hashes of the pending transactions older than [maxAge],
    and nothing else: with one entry for each hash, exactly the
    transactions that are not expired stay pending, and the status of a
    transaction that is no longer pending, whatever its age, is kept. *)
Theorem cleanupExpiredTransactions_spec (now maxAge : float) (p : TransactionPool) :
  let p' := cleanupExpiredTransactions now maxAge p in
  let gone := expiredHashes now maxAge p in
  pendingTransactions p' =
    filter (fun entry => fst entry ∉ gone) (pendingTransactions p) /\
  transactionStatuses p' =
    filter (fun entry => fst entry ∉ gone) (transactionStatuses p) /\
  nonces p' = nonces p /\
  (forall h, h ∉ map fst (pendingTransactions p) ->
     getTransactionStatus h p' = getTransactionStatus h p) /\
  (NoDup (map fst (pendingTransactions p)) ->
   pendingTransactions p' =
     filter (fun entry => expired now maxAge (snd entry) = false) (pendingTransactions p) /\
   forall h tx, In (h, tx) (pendingTransactions p) ->
     expired now maxAge tx = false ->
     getTransactionStatus h p' = getTransactionStatus h p).
Proof.
  intros p' gone. subst p'. unfold cleanupExpiredTransactions. fold gone.
  rewrite cleanup_fold, !delete_all. cbn.
  assert (Hkeep : forall h, h ∉ gone ->
            Map_get h (filter (fun entry => fst entry ∉ gone) (transactionStatuses p)) =
            Map_get h (transactionStatuses p)).
  { intros h Hh. now apply Map_get_kept. }
  split; [reflexivity|]. split; [reflexivity|]. split; [reflexivity|].
  split; [|intros Hnd; split].
  - intros h Hh. unfold getTransactionStatus. cbn. apply Hkeep.
    intros Hin. apply Hh. subst gone. unfold expiredHashes in Hin.
    apply list_elem_of_In, in_map_iff in Hin as (e & <- & Hin).
    apply list_elem_of_In, list_elem_of_filter in Hin as [_ Hin].
    apply list_elem_of_In. apply in_map. now apply list_elem_of_In.
  - subst gone. unfold expiredHashes.
    apply (filter_expired_keys (expired now maxAge)). exact Hnd.
  - intros h tx Hget Hexp. unfold getTransactionStatus. cbn. apply Hkeep.
    intros Hin. subst gone. unfold expiredHashes in Hin.
    apply list_elem_of_In, in_map_iff in Hin as ([h' tx'] & Hk & Hin). cbn in Hk. subst h'.
    apply list_elem_of_In, list_elem_of_filter in Hin as [Hexp' Hin]. cbn in Hexp'.
    apply list_elem_of_In, (pending_get_In _ _ _ Hnd) in Hin.
    apply (pending_get_In _ _ _ Hnd) in Hget. congruence.
Qed.

End Library.

(** A request that passes every check, handed to a pool whose [keccak256]
    is what the [keccak] package gives, and to one whose [keccak256]
    is a function. *)
Definition payment : TransactionRequest :=
  mkTransactionRequest "0x00000000000000000000000000000000000000aa" 1 "0x" 21000 5 0 None.

Lemma addTransaction_spec_witness :
  validateTransaction payment = None /\
  addTransaction None (fun _ => "1"%string) (fun _ => "1"%string) 1700000000000 payment
      new_TransactionPool
    = (Rejected (NotAFunction "keccak256"), new_TransactionPool) /\
  exists h p',
    addTransaction (Some (fun data => data)) (fun _ => "1"%string) (fun _ => "1"%string)
        1700000000000 payment new_TransactionPool
      = (Resolved h, p') /\
    size p' = 1%nat.
Proof.
  destruct (addTransaction_spec None (fun _ => "1"%string) (fun _ => "1"%string)
              1700000000000 payment new_TransactionPool) as (Hvalid & Hthrows & _).
  split; [apply Hvalid; vm_compute; repeat split; congruence|].
  split; [now apply Hthrows|].
  destruct (addTransaction_spec (Some (fun data => data)) (fun _ => "1"%string)
              (fun _ => "1"%string) 1700000000000 payment new_TransactionPool)
    as (_ & _ & Hfiled).
  specialize (Hfiled (fun data => data) eq_refl).
  assert (Hx : exists h p',
            addTransaction (Some (fun data => data)) (fun _ => "1"%string)
              (fun _ => "1"%string) 1700000000000 payment new_TransactionPool
            = (Resolved h, p'))
    by (vm_compute; do 2 eexists; reflexivity).
  destruct Hx as (h & p' & Hx). rewrite Hx in Hfiled.
  exists h, p'. split; [exact Hx|].
  destruct Hfiled as (_ & _ & _ & _ & _ & Hsize & _). rewrite Hsize.
  cbn. rewrite decide_False; [reflexivity | apply not_elem_of_nil].
Defined.

End Pool.
